(** * Tyre quotation app: pricing, quote numbers, session gate, quote store

    A shallow embedding of the TypeScript sources of the quotation builder:
    - [types.ts]: [LineItem], [Quotation], [CompanyDetails];
    - [QuotationForm.tsx]: [generateQuoteNumber], the totals of the edit form,
      its initial state and the handlers of its lines and inputs;
    - [SettingsModal.tsx]: the handlers of the settings dialog;
    - [QuotationPreview.tsx] and [SavedQuotesList.tsx]: the totals of the
      preview and of a quote card;
    - [LoginScreen.tsx]: [handleSubmit];
    - [App.tsx]: the start-up effect and the handlers of the quotes, the
      settings, the login and the navigation.

    A JavaScript [number] is an IEEE 754 binary64 value: it is modelled by Rocq's
    primitive [float], whose operations are the same binary64 operations
    (round to nearest, ties to even).  Strings are [string]; the two browser
    stores are finite maps from keys to strings. *)

From Stdlib Require Import ZArith NArith QArith Qabs Qpower List String Ascii Floats Uint63.
From Stdlib Require Import Lia Lqa Bool Permutation.
From stdpp Require Import gmap strings list.

Close Scope Q_scope.

Set Warnings "-inexact-float".

(* ===================================================================== *)
(** * Part I: the model *)
(* ===================================================================== *)

(** ** JavaScript built-ins used by the sources *)

Module JS.

(** The decimal digit [d] as a character. *)
Definition digit (d : N) : ascii := ascii_of_N (48 + d).

(** [digits_of fuel n acc]: the decimal digits of [n], most significant first,
    in front of [acc]. *)
Fixpoint digits_of (fuel : nat) (n : N) (acc : string) : string :=
  match fuel with
  | O => acc
  | S fuel' =>
      let acc' := String (digit (n mod 10)) acc in
      if (n / 10 =? 0)%N then acc' else digits_of fuel' (n / 10) acc'
  end.

(** [Number.prototype.toString()] on a non-negative integer. *)
Definition toString (n : N) : string :=
  digits_of (S (N.to_nat (N.log2 n))) n EmptyString.

(** The first [n] characters of [cur ++ pad ++ pad ++ ...]. *)
Fixpoint cycle (n : nat) (pad cur : string) : string :=
  match n with
  | O => EmptyString
  | S n' =>
      match cur with
      | String c rest => String c (cycle n' pad rest)
      | EmptyString =>
          match pad with
          | String c rest => String c (cycle n' pad rest)
          | EmptyString => EmptyString
          end
      end
  end.

(** [String.prototype.padStart(targetLength, padString)]. *)
Definition padStart (s : string) (targetLength : nat) (padString : string) : string :=
  if (targetLength <=? String.length s)%nat then s
  else String.append (cycle (targetLength - String.length s) padString padString) s.

(** [String.prototype.startsWith(searchString)]. *)
Definition startsWith (s searchString : string) : bool := String.prefix searchString s.

(** [String.prototype.slice(start)]: a negative [start] counts from the end. *)
Definition slice (s : string) (start : Z) : string :=
  let len := Z.of_nat (String.length s) in
  let from := if (start <? 0)%Z then Z.max (len + start) 0 else Z.min start len in
  String.substring (Z.to_nat from) (Z.to_nat (len - from)) s.

(** Truthiness of a value that is a string, [null] or [undefined]. *)
Definition truthy (v : option string) : bool :=
  match v with
  | Some s => negb (String.eqb s EmptyString)
  | None => false
  end.

(** The double that is the integer [n], for [|n| <= 2^53]. *)
Definition of_integer (n : Z) : float :=
  if (n <? 0)%Z then (- of_uint63 (Uint63.of_Z (- n)))%float
  else of_uint63 (Uint63.of_Z n).

(** [floor (x + 1/2)] for [x = (-1)^s * m * 2^e] with [e < 0], computed
    exactly: the integer closest to [x], the larger one on a tie. *)
Definition nearest_integer (s : bool) (m : positive) (e : Z) : Z :=
  ((2 * cond_Zopp s (Z.pos m) + 2 ^ (- e)) / 2 ^ (1 - e))%Z.

(** [Math.round(x)]: a value that is not finite, or is integral, is returned
    as it is; otherwise the result is [floor (x + 1/2)], and a zero result
    keeps the sign of [x] (so that [Math.round(-0.2)] is [-0]). *)
Definition Math_round (x : float) : float :=
  match Prim2SF x with
  | S754_finite s m e =>
      if (0 <=? e)%Z then x
      else
        let n := nearest_integer s m e in
        if (n =? 0)%Z then (if s then neg_zero else zero) else of_integer n
  | _ => x
  end.

(** The value of a binary64 number when it is an integer. *)
Definition integer_of_spec (f : spec_float) : option Z :=
  match f with
  | S754_zero _ => Some 0%Z
  | S754_finite s m e =>
      if (0 <=? e)%Z then Some (cond_Zopp s (Z.pos m * 2 ^ e))%Z
      else if (Z.pos m mod 2 ^ (- e) =? 0)%Z then Some (cond_Zopp s (Z.pos m / 2 ^ (- e)))%Z
      else None
  | _ => None
  end.

Definition integer_value (x : float) : option Z := integer_of_spec (Prim2SF x).

(** [Number.isInteger]. *)
Definition isInteger (x : float) : bool :=
  match integer_value x with Some _ => true | None => false end.

(** [Number.isFinite]. *)
Definition isFinite (x : float) : bool :=
  match Prim2SF x with
  | S754_zero _ | S754_finite _ _ _ => true
  | _ => false
  end.

End JS.

(** ** [types.ts] *)

Module LineItem.
Record t := mk {
  id : string;
  description : string;
  quantity : float;
  unitAmount : float   (* unit price inclusive of tax *)
}.
End LineItem.

Inductive Status := Draft | Sent | Accepted | Rejected.

Module Quotation.
Record t := mk {
  id : string;
  quoteNumber : string;
  date : string;
  customerName : string;
  customerPhone : string;
  customerEmail : string;
  customerAddress : string;
  vehicleMake : string;
  vehicleModel : string;
  vehicleYear : string;
  lineItems : list LineItem.t;
  discount : float;   (* fixed amount *)
  taxRate : float;    (* percentage *)
  notes : string;
  status : Status
}.
End Quotation.

Module CompanyDetails.
Record t := mk {
  name : string;
  address : string;
  phone : string;
  email : string;
  bankName : string;
  accountHolder : string;
  accountNumber : string;
  ifscCode : string;
  upiId : string;
  upiQrCode : option string;
  defaultNotes : option string;
  defaultTaxRate : option float;
  password : option string
}.

(** What [JSON.parse] gives for a stored record: any subset of the fields. *)
Record partial := mkPartial {
  p_name : option string;
  p_address : option string;
  p_phone : option string;
  p_email : option string;
  p_bankName : option string;
  p_accountHolder : option string;
  p_accountNumber : option string;
  p_ifscCode : option string;
  p_upiId : option string;
  p_upiQrCode : option string;
  p_defaultNotes : option string;
  p_defaultTaxRate : option float;
  p_password : option string
}.

(** The object spread [{ ...d, ...p }]: a field of [p] overrides that of [d]. *)
Definition spread (d : t) (p : partial) : t :=
  {| name := default (name d) (p_name p);
     address := default (address d) (p_address p);
     phone := default (phone d) (p_phone p);
     email := default (email d) (p_email p);
     bankName := default (bankName d) (p_bankName p);
     accountHolder := default (accountHolder d) (p_accountHolder p);
     accountNumber := default (accountNumber d) (p_accountNumber p);
     ifscCode := default (ifscCode d) (p_ifscCode p);
     upiId := default (upiId d) (p_upiId p);
     upiQrCode := match p_upiQrCode p with Some v => Some v | None => upiQrCode d end;
     defaultNotes := match p_defaultNotes p with Some v => Some v | None => defaultNotes d end;
     defaultTaxRate := match p_defaultTaxRate p with Some v => Some v | None => defaultTaxRate d end;
     password := match p_password p with Some v => Some v | None => password d end |}.
End CompanyDetails.

(** ** The pricing computation

    The same seven [const] bindings are written out in three components; each
    is embedded from its own source text. *)

Record Pricing := mkPricing {
  taxDivisor : float;
  grossTotal : float;
  subtotal : float;
  totalTax : float;
  totalAfterDiscount : float;
  grandTotal : float;
  roundOff : float
}.

(** The object the edit form's [useMemo] returns. *)
Record Totals := mkTotals {
  t_subtotal : float;
  t_totalTax : float;
  t_roundOff : float;
  t_grandTotal : float
}.

Module QuotationForm.

(** The body of the [useMemo] of [QuotationForm.tsx]. *)
Definition pricing (quote : Quotation.t) : Pricing :=
  let taxDivisor :=
    (1 + (if 0 <? Quotation.taxRate quote then Quotation.taxRate quote / 100 else 0))%float in
  let grossTotal :=
    fold_left (fun acc item => (acc + LineItem.quantity item * LineItem.unitAmount item)%float)
      (Quotation.lineItems quote) 0%float in
  let subtotal := if (1 <? taxDivisor)%float then (grossTotal / taxDivisor)%float else grossTotal in
  let totalTax := (grossTotal - subtotal)%float in
  let totalAfterDiscount := (grossTotal - Quotation.discount quote)%float in
  let grandTotal := JS.Math_round totalAfterDiscount in
  let roundOff := (grandTotal - totalAfterDiscount)%float in
  mkPricing taxDivisor grossTotal subtotal totalTax totalAfterDiscount grandTotal roundOff.

Definition totals (quote : Quotation.t) : Totals :=
  let p := pricing quote in
  mkTotals (subtotal p) (totalTax p) (roundOff p) (grandTotal p).

End QuotationForm.

Module QuotationPreview.

(** The [const] bindings at the head of [QuotationPreview.tsx]. *)
Definition pricing (quote : Quotation.t) : Pricing :=
  let taxDivisor :=
    (1 + (if 0 <? Quotation.taxRate quote then Quotation.taxRate quote / 100 else 0))%float in
  let grossTotal :=
    fold_left (fun acc item => (acc + LineItem.quantity item * LineItem.unitAmount item)%float)
      (Quotation.lineItems quote) 0%float in
  let subtotal := if (1 <? taxDivisor)%float then (grossTotal / taxDivisor)%float else grossTotal in
  let totalTax := (grossTotal - subtotal)%float in
  let totalAfterDiscount := (grossTotal - Quotation.discount quote)%float in
  let grandTotal := JS.Math_round totalAfterDiscount in
  let roundOff := (grandTotal - totalAfterDiscount)%float in
  mkPricing taxDivisor grossTotal subtotal totalTax totalAfterDiscount grandTotal roundOff.

End QuotationPreview.

Module QuoteCard.

(** The three [const] bindings of [QuoteCard] in [SavedQuotesList.tsx]:
    gross total, total after discount, grand total. *)
Definition pricing (quote : Quotation.t) : float * float * float :=
  let grossTotal :=
    fold_left (fun acc item => (acc + LineItem.quantity item * LineItem.unitAmount item)%float)
      (Quotation.lineItems quote) 0%float in
  let totalAfterDiscount := (grossTotal - Quotation.discount quote)%float in
  let grandTotal := JS.Math_round totalAfterDiscount in
  (grossTotal, totalAfterDiscount, grandTotal).

Definition grandTotal (quote : Quotation.t) : float := snd (pricing quote).

End QuoteCard.

(** *** Vocabulary of the pricing properties *)

(** [z - 1/2 <= x < z + 1/2] for a finite [x = (-1)^s * m * 2^e]: the integer
    [z] is the one closest to [x], the larger one on a tie. *)
Definition nearest_to (x : float) (z : Z) : Prop :=
  match Prim2SF x with
  | S754_zero _ => z = 0%Z
  | S754_finite s m e =>
      if (0 <=? e)%Z then z = cond_Zopp s (Z.pos m * 2 ^ e)%Z
      else (2 ^ (- e) * (2 * z - 1) <= 2 * cond_Zopp s (Z.pos m) < 2 ^ (- e) * (2 * z + 1))%Z
  | _ => False
  end.

(** The rational number a finite binary64 value stands for. *)
Definition exact_of_spec (x : spec_float) : option Q :=
  match x with
  | S754_zero _ => Some 0%Q
  | S754_finite s m e => Some (inject_Z (cond_Zopp s (Z.pos m)) * 2 ^ e)%Q
  | _ => None
  end.

Definition exact_value (x : float) : option Q := exact_of_spec (Prim2SF x).

(** A normal number: finite, not zero, with all 53 digits of precision (no
    overflow and no underflow has taken place). *)
Definition isNormal (x : float) : bool :=
  match classify x with
  | PNormal | NNormal => true
  | _ => false
  end.

(** [|x - y| <= 2^-51 * |y|] on the exact values: [x] is [y] up to the
    rounding errors of two operations. *)
Definition within_tolerance (x y : float) : Prop :=
  match exact_value x, exact_value y with
  | Some vx, Some vy => (Qabs (vx - vy) <= (1 # 2251799813685248) * Qabs vy)%Q
  | _, _ => False
  end.

(** The [reduce] expression that the three components share. *)
Definition grossTotal_of (lineItems : list LineItem.t) : float :=
  fold_left (fun acc item => (acc + LineItem.quantity item * LineItem.unitAmount item)%float)
    lineItems 0%float.

(** The exact amount of a line whose quantity and unit amount are
    non-negative whole numbers. *)
Definition whole_amount (item : LineItem.t) : option Z :=
  match JS.integer_value (LineItem.quantity item),
        JS.integer_value (LineItem.unitAmount item) with
  | Some q, Some u => if ((0 <=? q) && (0 <=? u))%Z then Some (q * u)%Z else None
  | _, _ => None
  end.

(** The exact total of a list of such lines. *)
Fixpoint whole_total (items : list LineItem.t) : option Z :=
  match items with
  | [] => Some 0%Z
  | item :: rest =>
      match whole_amount item, whole_total rest with
      | Some a, Some t => Some (a + t)%Z
      | _, _ => None
      end
  end.

(** ** The quote-number generator *)

(** What [generateQuoteNumber] reads of [new Date()]. *)
Record JSDate := mkDate {
  getDate : N;       (* day of the month, 1..31 *)
  getMonth : N;      (* month index, 0..11 *)
  getFullYear : N
}.

Definition datePrefix (date : JSDate) : string :=
  let day := JS.padStart (JS.toString (getDate date)) 2 "0" in
  let month := JS.padStart (JS.toString (getMonth date + 1)) 2 "0" in
  let year := JS.slice (JS.toString (getFullYear date)) (-2) in
  String.append "QT-" (String.append day (String.append month year)).

Definition generateQuoteNumber (existingQuotes : list Quotation.t) (date : JSDate) : string :=
  let datePrefix := datePrefix date in
  let todayQuotes :=
    List.filter (fun q => JS.startsWith (Quotation.quoteNumber q) datePrefix) existingQuotes in
  let nextSerial := (N.of_nat (length todayQuotes) + 1)%N in
  let serialNumber := JS.padStart (JS.toString nextSerial) 4 "0" in
  String.append datePrefix (String.append "-" serialNumber).

(** ** The browser environment and the effects of the handlers *)

(** A web store ([localStorage], [sessionStorage]): its items, whether every
    access to it throws (storage disabled), and which writes it accepts (a
    write over quota throws). *)
Record Storage := mkStorage {
  items : gmap string string;
  denied : bool;
  accepts : string -> string -> bool
}.

Inductive View := list_view | form_view.

(** The React state of [App]. *)
Record AppState := mkApp {
  view : View;
  quotes : list Quotation.t;
  selectedQuote : option Quotation.t;
  isSettingsOpen : bool;
  companyDetails : CompanyDetails.t;
  isAuthenticated : bool;
  isAppReady : bool
}.

Record World := mkWorld {
  app : AppState;
  localStorage : Storage;
  sessionStorage : Storage
}.

(** Handlers run in a state monad over [World] in which a call may throw; the
    state reached when the exception is raised is kept, as in JavaScript. *)
Inductive outcome (A : Type) := Returned (a : A) | Thrown.
Arguments Returned {A} a.
Arguments Thrown {A}.

Definition Eff (A : Type) : Type := World -> outcome A * World.

Definition ret {A} (a : A) : Eff A := fun w => (Returned a, w).

Definition bind {A B} (m : Eff A) (k : A -> Eff B) : Eff B :=
  fun w => match m w with
           | (Returned a, w') => k a w'
           | (Thrown, w') => (Thrown, w')
           end.

Definition throw {A} : Eff A := fun w => (Thrown, w).

(** [try { body } catch { handler }]. *)
Definition try_catch {A} (body handler : Eff A) : Eff A :=
  fun w => match body w with
           | (Returned a, w') => (Returned a, w')
           | (Thrown, w') => handler w'
           end.

(** [try { body } catch { handler } finally { fin }]. *)
Definition try_catch_finally (body handler fin : Eff unit) : Eff unit :=
  fun w => match try_catch body handler w with
           | (r, w') => match fin w' with
                        | (Returned _, w'') => (r, w'')
                        | (Thrown, w'') => (Thrown, w'')
                        end
           end.

Declare Scope eff_scope.
Delimit Scope eff_scope with eff.
Notation "'let*' x ':=' m 'in' k" := (bind m (fun x => k))
  (at level 10, x name, m at level 100, k at level 200) : eff_scope.
Notation "m ';;' k" := (bind m (fun _ => k))
  (at level 100, k at level 200, right associativity) : eff_scope.

Inductive store := local | session.

Definition the_store (which : store) (w : World) : Storage :=
  match which with local => localStorage w | session => sessionStorage w end.

Definition with_items (which : store) (f : gmap string string -> gmap string string) (w : World) : World :=
  match which with
  | local =>
      let s := localStorage w in
      mkWorld (app w) (mkStorage (f (items s)) (denied s) (accepts s)) (sessionStorage w)
  | session =>
      let s := sessionStorage w in
      mkWorld (app w) (localStorage w) (mkStorage (f (items s)) (denied s) (accepts s))
  end.

Definition getItem (which : store) (key : string) : Eff (option string) :=
  fun w => if denied (the_store which w) then (Thrown, w)
           else (Returned (items (the_store which w) !! key), w).

Definition setItem (which : store) (key value : string) : Eff unit :=
  fun w => if denied (the_store which w) || negb (accepts (the_store which w) key value)
           then (Thrown, w)
           else (Returned tt, with_items which (insert key value) w).

Definition removeItem (which : store) (key : string) : Eff unit :=
  fun w => if denied (the_store which w) then (Thrown, w)
           else (Returned tt, with_items which (delete key) w).

Definition setState (f : AppState -> AppState) : Eff unit :=
  fun w => (Returned tt, mkWorld (f (app w)) (localStorage w) (sessionStorage w)).

Definition setView (v : View) : Eff unit :=
  setState (fun a => mkApp v (quotes a) (selectedQuote a) (isSettingsOpen a)
                       (companyDetails a) (isAuthenticated a) (isAppReady a)).
Definition setQuotes (qs : list Quotation.t) : Eff unit :=
  setState (fun a => mkApp (view a) qs (selectedQuote a) (isSettingsOpen a)
                       (companyDetails a) (isAuthenticated a) (isAppReady a)).
Definition setSelectedQuote (q : option Quotation.t) : Eff unit :=
  setState (fun a => mkApp (view a) (quotes a) q (isSettingsOpen a)
                       (companyDetails a) (isAuthenticated a) (isAppReady a)).
Definition setIsSettingsOpen (b : bool) : Eff unit :=
  setState (fun a => mkApp (view a) (quotes a) (selectedQuote a) b
                       (companyDetails a) (isAuthenticated a) (isAppReady a)).
Definition setCompanyDetails (d : CompanyDetails.t) : Eff unit :=
  setState (fun a => mkApp (view a) (quotes a) (selectedQuote a) (isSettingsOpen a)
                       d (isAuthenticated a) (isAppReady a)).
Definition setIsAuthenticated (b : bool) : Eff unit :=
  setState (fun a => mkApp (view a) (quotes a) (selectedQuote a) (isSettingsOpen a)
                       (companyDetails a) b (isAppReady a)).
Definition setIsAppReady (b : bool) : Eff unit :=
  setState (fun a => mkApp (view a) (quotes a) (selectedQuote a) (isSettingsOpen a)
                       (companyDetails a) (isAuthenticated a) b).

(** [Array.prototype.findIndex]: the first index whose element satisfies [p],
    or [-1]. *)
Fixpoint findIndex {A} (p : A -> bool) (l : list A) : Z :=
  match l with
  | [] => (-1)%Z
  | x :: l' => if p x then 0%Z
               else let i := findIndex p l' in if (i <? 0)%Z then (-1)%Z else (i + 1)%Z
  end.

Definition newline : string := String (ascii_of_nat 10) EmptyString.

Definition defaultCompanyDetails : CompanyDetails.t :=
  {| CompanyDetails.name := "HINDUSTAN TYRES";
     CompanyDetails.address := "123 Tyre Avenue, Auto City, 54321";
     CompanyDetails.phone := "+91 98765 43210";
     CompanyDetails.email := "sales@hindustantyres.com";
     CompanyDetails.bankName := "State Bank of India";
     CompanyDetails.accountHolder := "HINDUSTAN TYRES";
     CompanyDetails.accountNumber := "12345678901";
     CompanyDetails.ifscCode := "SBIN0001234";
     CompanyDetails.upiId := "hindustantyres@upi";
     CompanyDetails.upiQrCode := Some EmptyString;
     CompanyDetails.defaultNotes :=
       Some (String.append "1. All prices are inclusive of taxes."
            (String.append newline
            (String.append "2. Warranty as per manufacturer terms."
            (String.append newline "3. This quotation is valid for 7 days."))));
     CompanyDetails.defaultTaxRate := Some 18%float;
     CompanyDetails.password := None |}.

(** ** [QuotationForm.tsx]: the state of the edit form *)

Module FormState.

Definition emptyLineItem : LineItem.t := LineItem.mk EmptyString EmptyString 1 0.

(** The notes of a new quote when the company details give none. *)
Definition standardNotes : string :=
  String.append "1. All prices are inclusive of taxes."
    (String.append (String (ascii_of_nat 10) EmptyString)
    (String.append "2. Warranty as per manufacturer terms."
    (String.append (String (ascii_of_nat 10) EmptyString)
       "3. This quotation is valid for 7 days."))).

(** The initial value of the [quote] cell.  [uuid1] and [uuid2] are the two
    results of [crypto.randomUUID()], [today] is
    [new Date().toISOString().split('T')[0]] and [now] is the [new Date()] of
    [generateQuoteNumber]. *)
Definition initialQuote (initialData : option Quotation.t) (uuid1 uuid2 today : string)
    (now : JSDate) (quotes : list Quotation.t) (companyDetails : CompanyDetails.t)
    : Quotation.t :=
  match initialData with
  | Some data => data
  | None =>
      {| Quotation.id := uuid1;
         Quotation.quoteNumber := generateQuoteNumber quotes now;
         Quotation.date := today;
         Quotation.customerName := EmptyString;
         Quotation.customerPhone := EmptyString;
         Quotation.customerEmail := EmptyString;
         Quotation.customerAddress := EmptyString;
         Quotation.vehicleMake := EmptyString;
         Quotation.vehicleModel := EmptyString;
         Quotation.vehicleYear := EmptyString;
         Quotation.lineItems :=
           [LineItem.mk uuid2 "E.g., Michelin Primacy 4 - 205/55 R16"
              (LineItem.quantity emptyLineItem) 0];
         Quotation.discount := 0;
         Quotation.taxRate :=
           match CompanyDetails.defaultTaxRate companyDetails with
           | Some rate => rate
           | None => 18
           end;
         Quotation.notes :=
           match CompanyDetails.defaultNotes companyDetails with
           | Some text => if JS.truthy (Some text) then text else standardNotes
           | None => standardNotes
           end;
         Quotation.status := Draft |}
  end.

Definition with_lineItems (prev : Quotation.t) (lineItems : list LineItem.t) : Quotation.t :=
  Quotation.mk (Quotation.id prev) (Quotation.quoteNumber prev) (Quotation.date prev)
    (Quotation.customerName prev) (Quotation.customerPhone prev)
    (Quotation.customerEmail prev) (Quotation.customerAddress prev)
    (Quotation.vehicleMake prev) (Quotation.vehicleModel prev) (Quotation.vehicleYear prev)
    lineItems (Quotation.discount prev) (Quotation.taxRate prev) (Quotation.notes prev)
    (Quotation.status prev).

(** What an event of a named input or of the status selector carries. *)
Inductive TextField :=
  | customerName | customerPhone | customerEmail | customerAddress
  | vehicleMake | vehicleModel | vehicleYear | date | notes.

Inductive change :=
  | text_change (name : TextField) (value : string)
  | status_change (value : Status).

(** [setQuote(prev => ({ ...prev, [name]: value }))]. *)
Definition handleChange (c : change) (prev : Quotation.t) : Quotation.t :=
  let pick (field : TextField -> bool) (old : string) : string :=
    match c with
    | text_change name value => if field name then value else old
    | status_change _ => old
    end in
  Quotation.mk (Quotation.id prev) (Quotation.quoteNumber prev)
    (pick (fun n => match n with date => true | _ => false end) (Quotation.date prev))
    (pick (fun n => match n with customerName => true | _ => false end)
       (Quotation.customerName prev))
    (pick (fun n => match n with customerPhone => true | _ => false end)
       (Quotation.customerPhone prev))
    (pick (fun n => match n with customerEmail => true | _ => false end)
       (Quotation.customerEmail prev))
    (pick (fun n => match n with customerAddress => true | _ => false end)
       (Quotation.customerAddress prev))
    (pick (fun n => match n with vehicleMake => true | _ => false end)
       (Quotation.vehicleMake prev))
    (pick (fun n => match n with vehicleModel => true | _ => false end)
       (Quotation.vehicleModel prev))
    (pick (fun n => match n with vehicleYear => true | _ => false end)
       (Quotation.vehicleYear prev))
    (Quotation.lineItems prev) (Quotation.discount prev) (Quotation.taxRate prev)
    (pick (fun n => match n with notes => true | _ => false end) (Quotation.notes prev))
    (match c with status_change value => value | text_change _ _ => Quotation.status prev end).

(** [keyof LineItem]. *)
Inductive LineItemField := item_id | item_description | item_quantity | item_unitAmount.

Section WithNumber.

(** [Number(value)] on the text of a number input. *)
Variable Number : string -> float.

(** The assignment [item[field] = ...] of [handleLineItemChange]. *)
Definition assign (item : LineItem.t) (field : LineItemField) (value : string) : LineItem.t :=
  let number := if String.eqb value EmptyString then 0%float else Number value in
  match field with
  | item_quantity =>
      LineItem.mk (LineItem.id item) (LineItem.description item) number (LineItem.unitAmount item)
  | item_unitAmount =>
      LineItem.mk (LineItem.id item) (LineItem.description item) (LineItem.quantity item) number
  | item_description =>
      LineItem.mk (LineItem.id item) value (LineItem.quantity item) (LineItem.unitAmount item)
  | item_id =>
      LineItem.mk value (LineItem.description item) (LineItem.quantity item)
        (LineItem.unitAmount item)
  end.

(** [handleLineItemChange(index, field, value)]: beyond the end of the array
    [item] is [undefined] and the assignment throws a [TypeError].  This is
    the quote of the form as a value; the assignment is to a line object
    that the collection may hold as well, which is modelled in [Shared]. *)
Definition handleLineItemChange (index : nat) (field : LineItemField) (value : string)
    (quote : Quotation.t) : outcome Quotation.t :=
  match Quotation.lineItems quote !! index with
  | Some item =>
      Returned (with_lineItems quote (<[index := assign item field value]> (Quotation.lineItems quote)))
  | None => Thrown
  end.

End WithNumber.

(** [addLineItem]; [uuid] is the result of [crypto.randomUUID()]. *)
Definition addLineItem (uuid : string) (prev : Quotation.t) : Quotation.t :=
  with_lineItems prev
    (Quotation.lineItems prev ++
     [LineItem.mk uuid (LineItem.description emptyLineItem) (LineItem.quantity emptyLineItem)
        (LineItem.unitAmount emptyLineItem)]).

(** [array.filter((_, i) => p(i))], from index [i0]. *)
Fixpoint filter_index {A} (p : nat -> bool) (i0 : nat) (l : list A) : list A :=
  match l with
  | [] => []
  | x :: l' => if p i0 then x :: filter_index p (S i0) l' else filter_index p (S i0) l'
  end.

(** [removeLineItem(index)]: keeps at least one line. *)
Definition removeLineItem (index : nat) (quote : Quotation.t) : Quotation.t :=
  if (length (Quotation.lineItems quote) <=? 1)%nat then quote
  else
    with_lineItems quote
      (filter_index (fun i => negb (i =? index)%nat) 0 (Quotation.lineItems quote)).

(** [handleSubmit]: the form hands its quote to [onSave]. *)
Definition handleSubmit (onSave : Quotation.t -> Eff unit) (quote : Quotation.t) : Eff unit :=
  onSave quote.

(** An action of the operator on the line items or the named inputs. *)
Inductive action :=
  | change_input (c : change)
  | change_item (index : nat) (field : LineItemField) (value : string)
  | add_item (uuid : string)
  | remove_item (index : nat).

(** The form state after an action; an action that throws leaves the state
    as it is. *)
Definition step (Number : string -> float) (quote : Quotation.t) (a : action) : Quotation.t :=
  match a with
  | change_input c => handleChange c quote
  | change_item index field value =>
      match handleLineItemChange Number index field value quote with
      | Returned quote' => quote'
      | Thrown => quote
      end
  | add_item uuid => addLineItem uuid quote
  | remove_item index => removeLineItem index quote
  end.

End FormState.

(** ** [SettingsModal.tsx] *)

Module SettingsModal.

(** The named text inputs of the modal. *)
Inductive TextField :=
  | name | address | phone | email | defaultNotes | password
  | bankName | accountHolder | accountNumber | ifscCode | upiId.

(** [setCurrentDetails(prev => ({ ...prev, [name]: value }))]. *)
Definition handleChange (field : TextField) (value : string) (prev : CompanyDetails.t)
    : CompanyDetails.t :=
  let pick (this : TextField -> bool) (old : string) : string :=
    if this field then value else old in
  let pick_opt (this : TextField -> bool) (old : option string) : option string :=
    if this field then Some value else old in
  CompanyDetails.mk
    (pick (fun f => match f with name => true | _ => false end) (CompanyDetails.name prev))
    (pick (fun f => match f with address => true | _ => false end) (CompanyDetails.address prev))
    (pick (fun f => match f with phone => true | _ => false end) (CompanyDetails.phone prev))
    (pick (fun f => match f with email => true | _ => false end) (CompanyDetails.email prev))
    (pick (fun f => match f with bankName => true | _ => false end)
       (CompanyDetails.bankName prev))
    (pick (fun f => match f with accountHolder => true | _ => false end)
       (CompanyDetails.accountHolder prev))
    (pick (fun f => match f with accountNumber => true | _ => false end)
       (CompanyDetails.accountNumber prev))
    (pick (fun f => match f with ifscCode => true | _ => false end)
       (CompanyDetails.ifscCode prev))
    (pick (fun f => match f with upiId => true | _ => false end) (CompanyDetails.upiId prev))
    (CompanyDetails.upiQrCode prev)
    (pick_opt (fun f => match f with defaultNotes => true | _ => false end)
       (CompanyDetails.defaultNotes prev))
    (CompanyDetails.defaultTaxRate prev)
    (pick_opt (fun f => match f with password => true | _ => false end)
       (CompanyDetails.password prev)).

(** [handleNumericChange] of the one numeric input, [defaultTaxRate]. *)
Definition handleNumericChange (parseFloat : string -> float) (value : string)
    (prev : CompanyDetails.t) : CompanyDetails.t :=
  CompanyDetails.mk
    (CompanyDetails.name prev) (CompanyDetails.address prev) (CompanyDetails.phone prev)
    (CompanyDetails.email prev) (CompanyDetails.bankName prev)
    (CompanyDetails.accountHolder prev) (CompanyDetails.accountNumber prev)
    (CompanyDetails.ifscCode prev) (CompanyDetails.upiId prev) (CompanyDetails.upiQrCode prev)
    (CompanyDetails.defaultNotes prev)
    (if String.eqb value EmptyString then None else Some (parseFloat value))
    (CompanyDetails.password prev).

(** [handleSubmit]: the modal hands its details to [onSave]. *)
Definition handleSubmit (onSave : CompanyDetails.t -> Eff unit) (currentDetails : CompanyDetails.t)
    : Eff unit :=
  onSave currentDetails.

End SettingsModal.

(** ** Line items as shared objects

    A [LineItem] is a JavaScript object, and the [lineItems] array of a quote
    holds references to such objects.  [handleLineItemChange] of the edit
    form copies the array and then assigns to a field of the object itself;
    when the form was opened on a quote of the collection, that is the object
    the collection still refers to. *)

Module Shared.

Abbreviation Heap := (gmap nat LineItem.t).

(** A quote object: its own fields (the [lineItems] field of [fields] is not
    used) and the references its [lineItems] array holds. *)
Record QuoteObject := mkObject { fields : Quotation.t; lineItemRefs : list nat }.

(** What a reader of the array, and of the quote, sees. *)
Definition read_items (heap : Heap) (refs : list nat) : option (list LineItem.t) :=
  mapM (fun r => heap !! r) refs.

Definition read (heap : Heap) (quote : QuoteObject) : option Quotation.t :=
  FormState.with_lineItems (fields quote) <$> read_items heap (lineItemRefs quote).

(** [handleLineItemChange(index, field, value)] on the form's quote object:
    [updatedLineItems] is a new array of the same references, and the
    assignment [item[field] = ...] writes to the heap. *)
Definition handleLineItemChange (Number : string -> float) (index : nat)
    (field : FormState.LineItemField) (value : string) (quote : QuoteObject) (heap : Heap)
    : outcome (QuoteObject * Heap) :=
  let updatedLineItems := lineItemRefs quote in
  match updatedLineItems !! index with
  | Some r =>
      match heap !! r with
      | Some item =>
          Returned (mkObject (fields quote) updatedLineItems,
                    <[r := FormState.assign Number item field value]> heap)
      | None => Thrown
      end
  | None => Thrown
  end.

End Shared.

(** ** [LoginScreen.tsx] *)

Module LoginScreen.

(** The two [useState] cells of the component. *)
Record state := mk { password : string; error : string }.

(** [password === storedPassword]: strict equality of two strings compares
    them character by character; [undefined] equals no string. *)
Definition strict_equal (password : string) (storedPassword : option string) : bool :=
  match storedPassword with
  | Some p => String.eqb password p
  | None => false
  end.

Definition handleSubmit (storedPassword : option string) (onLoginSuccess : Eff unit)
    (s : state) : Eff state :=
  if strict_equal (password s) storedPassword then
    (* setError(''); onLoginSuccess(); *)
    (onLoginSuccess ;; ret (mk (password s) EmptyString))%eff
  else
    (* setError('Incorrect password. Please try again.'); setPassword(''); *)
    ret (mk EmptyString "Incorrect password. Please try again.").

(** [onChange={(e) => setPassword(e.target.value)}]. *)
Definition onChange (value : string) (s : state) : state := mk value (error s).

End LoginScreen.

(** ** [App.tsx] *)

Module App.
Section WithJSON.

(** [JSON.parse] on the two stored texts ([None]: it throws a [SyntaxError])
    and [JSON.stringify] on the two records.  The parsed value is taken at
    the type the code gives it ([Quotation[]], [Partial<CompanyDetails>]);
    the code does not check it, so a stored text that parses to a value of
    another shape is not covered, and no property below is about what is
    rendered from parsed quotes. *)
Variable JSON_parse_quotes : string -> option (list Quotation.t).
Variable JSON_parse_details : string -> option CompanyDetails.partial.
Variable JSON_stringify_quotes : list Quotation.t -> string.
Variable JSON_stringify_details : CompanyDetails.t -> string.

Definition parse {A} (f : string -> option A) (text : string) : Eff A :=
  match f text with
  | Some v => ret v
  | None => throw
  end.

(** The [try] block of the start-up effect, in its three paragraphs: the
    quotes, the company details, the authentication logic. *)
Definition loadQuotes : Eff unit :=
  (let* savedQuotes := getItem local "tyreQuotes" in
   match savedQuotes with
   | Some text => if JS.truthy savedQuotes
                  then (let* qs := parse JSON_parse_quotes text in setQuotes qs)
                  else ret tt
   | None => ret tt
   end)%eff.

Definition loadDetails : Eff CompanyDetails.t :=
  (let* savedDetails := getItem local "companyDetails" in
   match savedDetails with
   | Some text => if JS.truthy savedDetails
                  then (let* parsed := parse JSON_parse_details text in
                        ret (CompanyDetails.spread defaultCompanyDetails parsed))
                  else ret defaultCompanyDetails
   | None => ret defaultCompanyDetails
   end)%eff.

Definition authenticate (details : CompanyDetails.t) : Eff unit :=
  let passwordIsSet := JS.truthy (CompanyDetails.password details) in
  if negb passwordIsSet then setIsAuthenticated true
  else
    (let* item := getItem session "isAuthenticated" in
     let sessionAuthenticated :=
       match item with Some v => String.eqb v "true" | None => false end in
     if sessionAuthenticated then setIsAuthenticated true else setIsAuthenticated false)%eff.

Definition useEffect_try : Eff unit :=
  (loadQuotes ;;
   let* details := loadDetails in
   setCompanyDetails details ;;
   authenticate details)%eff.

Definition useEffect_catch : Eff unit :=
  (setQuotes [] ;;
   setCompanyDetails defaultCompanyDetails ;;
   setIsAuthenticated true)%eff.   (* Fail open if there's an error *)

Definition useEffect : Eff unit :=
  try_catch_finally useEffect_try useEffect_catch (setIsAppReady true).

Definition saveQuotesToLocalStorage (updatedQuotes : list Quotation.t) : Eff unit :=
  try_catch
    (setItem local "tyreQuotes" (JSON_stringify_quotes updatedQuotes) ;;
     setQuotes updatedQuotes)%eff
    (ret tt).

Definition handleSaveSettings (details : CompanyDetails.t) : Eff unit :=
  try_catch
    (let detailsToSave :=
       if negb (JS.truthy (CompanyDetails.password details))
       then CompanyDetails.mk
              (CompanyDetails.name details) (CompanyDetails.address details)
              (CompanyDetails.phone details) (CompanyDetails.email details)
              (CompanyDetails.bankName details) (CompanyDetails.accountHolder details)
              (CompanyDetails.accountNumber details) (CompanyDetails.ifscCode details)
              (CompanyDetails.upiId details) (CompanyDetails.upiQrCode details)
              (CompanyDetails.defaultNotes details) (CompanyDetails.defaultTaxRate details)
              None
       else details in
     setItem local "companyDetails" (JSON_stringify_details detailsToSave) ;;
     setCompanyDetails detailsToSave ;;
     setIsSettingsOpen false)%eff
    (ret tt).

Definition handleLoginSuccess : Eff unit :=
  (setItem session "isAuthenticated" "true" ;;
   setIsAuthenticated true)%eff.

(** [confirmed]: the operator's answer to [window.confirm]. *)
Definition handleLogout (confirmed : bool) : Eff unit :=
  if confirmed then
    (removeItem session "isAuthenticated" ;;
     setIsAuthenticated false)%eff
  else ret tt.

(** The collection [handleSaveQuote] passes on to be persisted.  The index
    written to comes from [findIndex], so it is within the array. *)
Definition updatedQuotes_on_save (quotes : list Quotation.t) (quote : Quotation.t)
    : list Quotation.t :=
  let existingIndex :=
    findIndex (fun q => String.eqb (Quotation.id q) (Quotation.id quote)) quotes in
  if (-1 <? existingIndex)%Z
  then <[Z.to_nat existingIndex := quote]> quotes
  else quotes ++ [quote].

Definition handleSaveQuote (quote : Quotation.t) : Eff unit :=
  fun w =>
    (saveQuotesToLocalStorage (updatedQuotes_on_save (quotes (app w)) quote) ;;
     setView list_view ;;
     setSelectedQuote None)%eff w.

Definition updatedQuotes_on_delete (quotes : list Quotation.t) (id : string)
    : list Quotation.t :=
  List.filter (fun q => negb (String.eqb (Quotation.id q) id)) quotes.

Definition handleDeleteQuote (confirmed : bool) (id : string) : Eff unit :=
  fun w =>
    if confirmed
    then saveQuotesToLocalStorage (updatedQuotes_on_delete (quotes (app w)) id) w
    else ret tt w.

(** The login screen as [App] renders it:
    [<LoginScreen storedPassword={companyDetails.password!}
                  onLoginSuccess={handleLoginSuccess} />]. *)
Definition submitPassword (s : LoginScreen.state) : Eff LoginScreen.state :=
  fun w =>
    LoginScreen.handleSubmit (CompanyDetails.password (companyDetails (app w)))
      handleLoginSuccess s w.

(** The operator types [input] into the login screen and submits; a run of
    such attempts, as long as none throws. *)
Definition attempt (input : string) (s : LoginScreen.state) : Eff LoginScreen.state :=
  submitPassword (LoginScreen.onChange input s).

Fixpoint attempts (inputs : list string) (s : LoginScreen.state) : Eff LoginScreen.state :=
  match inputs with
  | [] => ret s
  | input :: rest => (let* s' := attempt input s in attempts rest s')%eff
  end.

(** The seven [useState] cells as the component is mounted. *)
Definition initialState : AppState :=
  mkApp list_view [] None false defaultCompanyDetails false false.

Definition handleCreateNew : Eff unit :=
  (setSelectedQuote None ;;
   setView form_view)%eff.

(** [quotes.find] gives the first quote with the identifier, or [undefined]. *)
Definition handleEditQuote (id : string) : Eff unit :=
  fun w =>
    match List.find (fun q => String.eqb (Quotation.id q) id) (quotes (app w)) with
    | Some quoteToEdit =>
        (setSelectedQuote (Some quoteToEdit) ;;
         setView form_view)%eff w
    | None => ret tt w
    end.

Definition handleViewList : Eff unit :=
  (setSelectedQuote None ;;
   setView list_view)%eff.

(** Loading the page: the component is mounted on its initial state, the two
    stores are what the browser kept, and the start-up effect runs. *)
Definition mount (w : World) : outcome unit * World :=
  useEffect (mkWorld initialState (localStorage w) (sessionStorage w)).

(** What [App] renders: nothing until the start-up effect has run, then the
    login screen or the application. *)
Inductive Screen := blank_screen | login_screen | main_screen.

Definition render (a : AppState) : Screen :=
  if negb (isAppReady a) then blank_screen
  else if negb (isAuthenticated a) then login_screen
  else main_screen.

(** *** Vocabulary of the start-up properties *)

(** The session-scoped marker, as [handleLoginSuccess] writes it. *)
Definition marker_present (w : World) : Prop :=
  items (sessionStorage w) !! "isAuthenticated" = Some "true".

(** No password is configured in a details record: the field is missing or
    holds the empty text.  A password is configured: it holds a text that is
    not empty. *)
Definition no_password (details : CompanyDetails.t) : Prop :=
  CompanyDetails.password details = None \/
  CompanyDetails.password details = Some EmptyString.

Definition password_configured (details : CompanyDetails.t) : Prop :=
  exists secret, CompanyDetails.password details = Some secret /\ secret <> EmptyString.

(** The text stored under the quotes key, if there is one, parses. *)
Definition quotes_parse (w : World) : Prop :=
  forall text, items (localStorage w) !! "tyreQuotes" = Some text ->
               text <> EmptyString -> JSON_parse_quotes text <> None.

(** [details] is the record the local store gives: the defaults where nothing
    (or the empty text) is stored under the details key, else the defaults
    overlaid by the fields of the stored record, which parses. *)
Definition stored_details (w : World) (details : CompanyDetails.t) : Prop :=
  match items (localStorage w) !! "companyDetails" with
  | Some text =>
      if String.eqb text EmptyString then details = defaultCompanyDetails
      else exists parsed, JSON_parse_details text = Some parsed /\
                          details = CompanyDetails.spread defaultCompanyDetails parsed
  | None => details = defaultCompanyDetails
  end.

(** The text stored under [key] is there, is not empty, and [JSON.parse]
    throws on it. *)
Definition unparseable {A} (f : string -> option A) (key : string) (w : World) : Prop :=
  exists text, items (localStorage w) !! key = Some text /\
               text <> EmptyString /\ f text = None.

(** Reading or parsing the persisted data throws. *)
Definition load_fails (w : World) : Prop :=
  denied (localStorage w) = true \/
  unparseable JSON_parse_quotes "tyreQuotes" w \/
  unparseable JSON_parse_details "companyDetails" w.

(** The local store takes the serialised collection. *)
Definition persistable (w : World) (qs : list Quotation.t) : Prop :=
  denied (localStorage w) = false /\
  accepts (localStorage w) "tyreQuotes" (JSON_stringify_quotes qs) = true.

(** The session store takes the marker. *)
Definition marker_writable (w : World) : Prop :=
  denied (sessionStorage w) = false /\
  accepts (sessionStorage w) "isAuthenticated" "true" = true.

(** *** Vocabulary of the quote-store properties *)

(** The stored collection is the serialised collection in memory (the
    [quotes] cell of [App]). *)
Definition in_sync (w : World) : Prop :=
  items (localStorage w) !! "tyreQuotes" = Some (JSON_stringify_quotes (quotes (app w))).

(** The local store refuses the serialised collection. *)
Definition not_persistable (w : World) (qs : list Quotation.t) : Prop :=
  denied (localStorage w) = true \/
  accepts (localStorage w) "tyreQuotes" (JSON_stringify_quotes qs) = false.

(** What the start-up effect leaves alone: the two stores and the cells of
    the navigation. *)
Definition untouched (w w' : World) : Prop :=
  localStorage w' = localStorage w /\ sessionStorage w' = sessionStorage w /\
  view (app w') = view (app w) /\ selectedQuote (app w') = selectedQuote (app w) /\
  isSettingsOpen (app w') = isSettingsOpen (app w).

(** The local store takes whatever is written under the details key. *)
Definition details_writable (w : World) : Prop :=
  denied (localStorage w) = false /\
  forall text, accepts (localStorage w) "companyDetails" text = true.


End WithJSON.
End App.

(** ** Vocabulary of the quote-number properties *)

(** The numeral of [n] in exactly [k] decimal digits (the low [k] digits). *)
Fixpoint decimal (k : nat) (n : N) : string :=
  match k with
  | O => EmptyString
  | S k' => String.append (decimal k' (n / 10)%N) (String (JS.digit (n mod 10)%N) EmptyString)
  end.

(** A calendar date as [new Date()] gives it, in a year of at least two digits. *)
Definition valid_date (date : JSDate) : Prop :=
  (1 <= getDate date <= 31)%N /\ (getMonth date <= 11)%N /\ (10 <= getFullYear date)%N.

(** ** Vocabulary of the binary64 rounding properties *)

Module Binary64.

Local Open Scope Z_scope.

Abbreviation fexp64 := (fexp prec emax).

(** [located m l num den]: the non-negative rational [num / den] lies in
    [[m, m+1)], and [l] places it there: [m] exactly, below, at or above
    [m + 1/2]. *)
Definition located (m : Z) (l : location) (num den : Z) : Prop :=
  0 <= m /\ 0 < den /\ m * den <= num < (m + 1) * den /\
  match l with
  | loc_Exact => num = m * den
  | loc_Inexact c => num <> m * den /\ (2 * (num - m * den) ?= den) = c
  end.

Ltac compare_cases :=
  repeat match goal with
  | H : (_ ?= _) = Lt |- _ => apply -> Z.compare_lt_iff in H
  | H : (_ ?= _) = Eq |- _ => apply -> Z.compare_eq_iff in H
  | H : (_ ?= _) = Gt |- _ => apply -> Z.compare_gt_iff in H
  | |- (_ ?= _) = Lt => apply <- Z.compare_lt_iff
  | |- (_ ?= _) = Eq => apply <- Z.compare_eq_iff
  | |- (_ ?= _) = Gt => apply <- Z.compare_gt_iff
  end.

Ltac located_cases :=
  unfold located in *; cbn [shr_m loc_of_shr_record shr_1 orb] in *;
  repeat match goal with H : _ /\ _ |- _ => destruct H end;
  compare_cases; repeat split; compare_cases; try lia.

(** What [binary_round_aux] returns for the mantissa [mr] and exponent [er]
    it has settled on. *)
Definition packed (s : bool) (mr er : Z) : spec_float :=
  match mr with
  | Z0 => S754_zero s
  | Z.pos p => if er <=? emax - prec then S754_finite s p er else S754_infinity s
  | Z.neg _ => S754_nan
  end.

(** The binary64 value that is the integer [z], for [0 <= z < 2^53]: zero, or
    the 53-digit mantissa of [z]. *)
Definition SFint (z : Z) : spec_float :=
  packed false (z * 2 ^ (53 - Zdigits2 z)) (Zdigits2 z - 53).

(** The number one. *)
Definition SFone : spec_float := S754_finite false 4503599627370496 (-52).

(** A zero, a positive finite number or +infinity. *)
Definition nonneg_number (x : spec_float) : Prop :=
  match x with
  | S754_zero _ | S754_finite false _ _ | S754_infinity false => True
  | _ => False
  end.

(** A zero or a positive finite number. *)
Definition nonneg_finite (x : spec_float) : Prop :=
  match x with
  | S754_zero _ | S754_finite false _ _ => True
  | _ => False
  end.

End Binary64.

(** ** Example data *)

Module Examples.

(** A store holding a details record and nothing else. *)
Definition store_with (key text : string) : Storage :=
  mkStorage {[ key := text ]} false (fun _ _ => true).

Definition empty_store : Storage := mkStorage ∅ false (fun _ _ => true).

Definition fresh_app : AppState :=
  mkApp list_view [] None false defaultCompanyDetails false false.

(** A stored record that configures the password [abc]. *)
Definition with_password : CompanyDetails.partial :=
  CompanyDetails.mkPartial None None None None None None None None None None None None
    (Some "abc").

Definition locked_world : World :=
  mkWorld fresh_app (store_with "companyDetails" "{...}") empty_store.

(** The app showing the login screen for the password [abc]. *)
Definition abc_details : CompanyDetails.t :=
  CompanyDetails.spread defaultCompanyDetails with_password.

Definition abc_world : World :=
  mkWorld (mkApp list_view [] None false abc_details false true)
    (store_with "companyDetails" "{...}") empty_store.

(** Line items and quotes with only the priced fields filled in. *)
Definition item (quantity unitAmount : float) : LineItem.t :=
  LineItem.mk EmptyString EmptyString quantity unitAmount.

Definition quote_of (lineItems : list LineItem.t) (discount taxRate : float) : Quotation.t :=
  Quotation.mk EmptyString EmptyString EmptyString EmptyString EmptyString EmptyString
    EmptyString EmptyString EmptyString EmptyString lineItems discount taxRate EmptyString Draft.

(** A quote with only the identifier and the customer's name filled in. *)
Definition quote_for (id customerName : string) : Quotation.t :=
  Quotation.mk id EmptyString EmptyString customerName EmptyString EmptyString
    EmptyString EmptyString EmptyString EmptyString [] 0 0 EmptyString Draft.

(** The second of November 2026. *)
Definition a_date : JSDate := mkDate 2 10 2026.

(** A quote with only the identifier and the quote number filled in. *)
Definition numbered_quote (id quoteNumber : string) : Quotation.t :=
  Quotation.mk id quoteNumber EmptyString EmptyString EmptyString EmptyString
    EmptyString EmptyString EmptyString EmptyString [] 0 0 EmptyString Draft.

(** A store that cannot be accessed, and one that is full. *)
Definition denied_store : Storage := mkStorage ∅ true (fun _ _ => true).
Definition full_store : Storage := mkStorage ∅ false (fun _ _ => false).

(** The stored record that configures [abc], in a browser whose session store
    cannot be accessed. *)
Definition unreadable_session_world : World :=
  mkWorld fresh_app (store_with "companyDetails" "{...}") denied_store.

(** The form is open and the local store is full. *)
Definition full_world : World :=
  mkWorld (mkApp form_view [] None false defaultCompanyDetails true true)
    full_store empty_store.

(** A serialisation of the password field alone, and its inverse. *)
Definition password_text (d : CompanyDetails.t) : string :=
  match CompanyDetails.password d with
  | Some p => String "P" p
  | None => "N"
  end.


(** Two items whose prices are finite and whose sum overflows. *)
Definition huge_quote (taxRate : float) : Quotation.t :=
  quote_of [item 1 1e308; item 1 1e308] 0 taxRate.

(** The same three items in two orders. *)
Definition three_items : list LineItem.t := [item 1 0.1; item 1 0.2; item 1 0.3].
Definition three_items_reversed : list LineItem.t := [item 1 0.3; item 1 0.2; item 1 0.1].

End Examples.

(* ===================================================================== *)
(** * Part II: binary64 arithmetic *)
(* ===================================================================== *)

(** ** Rounding *)

Module Rounding.

Import Binary64.
Local Open Scope Z_scope.

(** *** Number of binary digits *)

Lemma digits2_pos_bounds m :
  2 ^ (Z.pos (digits2_pos m) - 1) <= Z.pos m < 2 ^ Z.pos (digits2_pos m).
Proof.
  induction m as [m IH | m IH |]; cbn [digits2_pos].
  - rewrite Pos2Z.inj_succ, Z.pow_succ_r by lia.
    replace (Z.succ (Z.pos (digits2_pos m)) - 1) with (Z.succ (Z.pos (digits2_pos m) - 1)) by lia.
    rewrite Z.pow_succ_r by lia. lia.
  - rewrite Pos2Z.inj_succ, Z.pow_succ_r by lia.
    replace (Z.succ (Z.pos (digits2_pos m)) - 1) with (Z.succ (Z.pos (digits2_pos m) - 1)) by lia.
    rewrite Z.pow_succ_r by lia. lia.
  - cbn. lia.
Qed.

Lemma Zdigits2_bounds m : 0 < m -> 2 ^ (Zdigits2 m - 1) <= m < 2 ^ Zdigits2 m.
Proof. destruct m as [| p | p]; [lia | intros _; apply digits2_pos_bounds | lia]. Qed.

Lemma Zdigits2_nonneg m : 0 <= Zdigits2 m.
Proof. destruct m; cbn; lia. Qed.

Lemma Zdigits2_pos m : 0 < m -> 0 < Zdigits2 m.
Proof. destruct m; cbn; lia. Qed.

(** The number of digits is determined by the binade. *)
Lemma Zdigits2_unique m k : 2 ^ (k - 1) <= m < 2 ^ k -> 0 < m -> Zdigits2 m = k.
Proof.
  intros [Hlo Hhi] Hm. pose proof (Zdigits2_bounds m Hm) as [Hlo' Hhi'].
  pose proof (Zdigits2_pos m Hm) as Hd.
  assert (Hk : 0 < k).
  { destruct (Z.lt_trichotomy k 0) as [Hk | [-> | Hk]]; [| cbn in Hhi; lia | assumption].
    rewrite Z.pow_neg_r in Hhi by assumption. lia. }
  destruct (Z.lt_trichotomy (Zdigits2 m) k) as [Hlt | [Heq | Hgt]]; [| assumption |].
  - assert (2 ^ Zdigits2 m <= 2 ^ (k - 1)) by (apply Z.pow_le_mono_r; lia). lia.
  - assert (2 ^ k <= 2 ^ (Zdigits2 m - 1)) by (apply Z.pow_le_mono_r; lia). lia.
Qed.

Lemma Zdigits2_mul_pow m k : 0 < m -> 0 <= k -> Zdigits2 (m * 2 ^ k) = Zdigits2 m + k.
Proof.
  intros Hm Hk. pose proof (Zdigits2_bounds m Hm) as [Hlo Hhi].
  pose proof (Zdigits2_pos m Hm).
  apply Zdigits2_unique; [| nia].
  replace (Zdigits2 m + k - 1) with (Zdigits2 m - 1 + k) by lia.
  rewrite !Z.pow_add_r by lia. nia.
Qed.

Lemma Zdigits2_div_pow m n :
  0 < m -> 0 <= n < Zdigits2 m -> Zdigits2 (m / 2 ^ n) = Zdigits2 m - n.
Proof.
  intros Hm Hn. pose proof (Zdigits2_bounds m Hm) as [Hlo Hhi].
  assert (Hp : 0 < 2 ^ n) by (apply Z.pow_pos_nonneg; lia).
  assert (Hlo' : 2 ^ (Zdigits2 m - n - 1) <= m / 2 ^ n).
  { apply Z.div_le_lower_bound; [assumption |].
    rewrite <- Z.pow_add_r by lia. replace (n + (Zdigits2 m - n - 1)) with (Zdigits2 m - 1) by lia.
    assumption. }
  assert (Hhi' : m / 2 ^ n < 2 ^ (Zdigits2 m - n)).
  { apply Z.div_lt_upper_bound; [assumption |].
    rewrite <- Z.pow_add_r by lia. replace (n + (Zdigits2 m - n)) with (Zdigits2 m) by lia.
    assumption. }
  apply Zdigits2_unique; [split; assumption |].
  assert (0 < 2 ^ (Zdigits2 m - n - 1)) by (apply Z.pow_pos_nonneg; lia). lia.
Qed.

(** *** Shifting a mantissa right and keeping track of what is lost *)

Lemma iter_pos_invariant {A} (f : A -> A) (P : Z -> A -> Prop) :
  (forall k x, 0 <= k -> P k x -> P (k + 1) (f x)) ->
  forall n k x, 0 <= k -> P k x -> P (k + Z.pos n) (SpecFloat.iter_pos f n x).
Proof.
  intros Hstep. induction n as [n IH | n IH |]; intros k x Hk HP; cbn [SpecFloat.iter_pos].
  - replace (k + Z.pos n~1) with (k + 1 + Z.pos n + Z.pos n) by lia.
    apply IH; [lia |]. apply IH; [lia |]. now apply Hstep.
  - replace (k + Z.pos n~0) with (k + Z.pos n + Z.pos n) by lia.
    apply IH; [lia |]. now apply IH.
  - now apply Hstep.
Qed.

Lemma shr_1_located mrs num den :
  located (shr_m mrs) (loc_of_shr_record mrs) num den ->
  located (shr_m (shr_1 mrs)) (loc_of_shr_record (shr_1 mrs)) num (2 * den).
Proof.
  destruct mrs as [[| [p | p |] | p] [|] [|]]; intros H; located_cases.
Qed.

Lemma shr_1_div2 mrs : 0 <= shr_m mrs -> shr_m (shr_1 mrs) = shr_m mrs / 2.
Proof.
  destruct mrs as [[| [p | p |] | p] r s]; cbn [shr_m shr_1]; intros H;
    try reflexivity; try lia.
  - apply (Z.div_unique _ 2 _ 1); lia.
  - apply (Z.div_unique _ 2 _ 0); lia.
Qed.

(** [n] shifts: the mantissa is divided by [2^n] and the location follows. *)
Lemma iter_shr_1_located n mrs num den :
  located (shr_m mrs) (loc_of_shr_record mrs) num den ->
  let mrs' := SpecFloat.iter_pos shr_1 n mrs in
  located (shr_m mrs') (loc_of_shr_record mrs') num (2 ^ Z.pos n * den) /\
  shr_m mrs' = shr_m mrs / 2 ^ Z.pos n.
Proof.
  intros H.
  pose (P := fun k x => located (shr_m x) (loc_of_shr_record x) num (2 ^ k * den) /\
                        shr_m x = shr_m mrs / 2 ^ k).
  assert (HP : P (0 + Z.pos n) (SpecFloat.iter_pos shr_1 n mrs)).
  { apply iter_pos_invariant; [| lia |].
    - intros k x Hk [Hl Hm]. split.
      + rewrite Z.pow_add_r, Z.pow_1_r by lia.
        replace (2 ^ k * 2 * den) with (2 * (2 ^ k * den)) by lia.
        now apply shr_1_located.
      + rewrite shr_1_div2 by (destruct Hl; lia). rewrite Hm.
        rewrite Z.pow_add_r, Z.pow_1_r by lia.
        rewrite Z.div_div by (try apply Z.pow_pos_nonneg; lia). reflexivity.
    - split; [now rewrite Z.pow_0_r, Z.mul_1_l | now rewrite Z.pow_0_r, Z.div_1_r]. }
  exact HP.
Qed.

Lemma shr_located mrs e n num den :
  located (shr_m mrs) (loc_of_shr_record mrs) num den ->
  let mrs' := fst (shr mrs e n) in
  located (shr_m mrs') (loc_of_shr_record mrs') num (2 ^ Z.max 0 n * den) /\
  shr_m mrs' = shr_m mrs / 2 ^ Z.max 0 n /\
  snd (shr mrs e n) = e + Z.max 0 n.
Proof.
  intros H. destruct n as [| n | n]; cbn [shr fst snd].
  - rewrite Z.max_id, Z.pow_0_r, Z.mul_1_l, Z.div_1_r, Z.add_0_r. auto.
  - rewrite Z.max_r by lia. destruct (iter_shr_1_located n mrs num den H). auto.
  - rewrite Z.max_l by lia. rewrite Z.pow_0_r, Z.mul_1_l, Z.div_1_r, Z.add_0_r. auto.
Qed.

Lemma loc_of_record m l :
  shr_m (shr_record_of_loc m l) = m /\
  loc_of_shr_record (shr_record_of_loc m l) = l.
Proof. destruct l as [| []]; split; reflexivity. Qed.

(** Rounding to nearest, ties to even, of a located value: the result is [m]
    or [m + 1], and is within one half of the value. *)
Lemma round_nearest_even_located m l num den :
  located m l num den ->
  let m' := round_nearest_even m l in
  (m' = m \/ m' = m + 1) /\
  - den <= 2 * (m' * den - num) <= den /\
  (l = loc_Exact -> m' = m).
Proof.
  intros H. destruct l as [| []]; cbn [round_nearest_even]; [| destruct (Z.even m) | |];
    (split; [auto | split; [located_cases | first [reflexivity | discriminate]]]).
Qed.

(** *** Rounding a located value to binary64 *)

Lemma fexp64_spec e : fexp64 e = Z.max (e - 53) (-1074).
Proof. reflexivity. Qed.

Lemma shr_fexp_located m e l num den mrs' e' :
  located m l num den ->
  shr_fexp prec emax m e l = (mrs', e') ->
  let n := Z.max 0 (fexp64 (Zdigits2 m + e) - e) in
  located (shr_m mrs') (loc_of_shr_record mrs') num (2 ^ n * den) /\
  shr_m mrs' = m / 2 ^ n /\ e' = e + n.
Proof.
  intros H Hs n. unfold shr_fexp in Hs.
  destruct (loc_of_record m l) as [Hm Hl].
  pose proof (shr_located (shr_record_of_loc m l) e (fexp64 (Zdigits2 m + e) - e) num den) as Hsh.
  rewrite Hm, Hl, Hs in Hsh. exact (Hsh H).
Qed.

Lemma Zdigits2_succ_le m : 0 <= m -> Zdigits2 (m + 1) <= Zdigits2 m + 1.
Proof.
  intros Hm. destruct (Z.eq_dec m 0) as [-> | Hne]; [cbv; discriminate |].
  assert (Hpos : 0 < m) by lia.
  pose proof (Zdigits2_bounds m Hpos) as [_ Hhi].
  pose proof (Zdigits2_bounds (m + 1) ltac:(lia)) as [Hlo' _].
  destruct (Z.le_gt_cases (Zdigits2 (m + 1)) (Zdigits2 m + 1)) as [| Hgt]; [assumption |].
  assert (2 ^ (Zdigits2 m + 1) <= 2 ^ (Zdigits2 (m + 1) - 1))
    by (apply Z.pow_le_mono_r; lia).
  pose proof (Zdigits2_nonneg m).
  rewrite Z.pow_add_r, Z.pow_1_r in H by lia. lia.
Qed.

(** If adding one to [m] adds a digit, the result is a power of two. *)
Lemma Zdigits2_succ_carry m :
  0 < m -> Zdigits2 (m + 1) = Zdigits2 m + 1 -> m + 1 = 2 ^ Zdigits2 m.
Proof.
  intros Hm Hd. pose proof (Zdigits2_bounds m Hm) as [_ Hhi].
  pose proof (Zdigits2_bounds (m + 1) ltac:(lia)) as [Hlo' _].
  rewrite Hd in Hlo'. replace (Zdigits2 m + 1 - 1) with (Zdigits2 m) in Hlo' by lia. lia.
Qed.

Lemma fexp64_le_succ d : fexp64 (d + 1) <= fexp64 d + 1.
Proof. rewrite !fexp64_spec. lia. Qed.

Lemma fexp64_mono d d' : d <= d' -> fexp64 d <= fexp64 d'.
Proof. rewrite !fexp64_spec. lia. Qed.

Lemma located_exact m : 0 <= m -> located m loc_Exact m 1.
Proof. intros H. unfold located. lia. Qed.

(** The first shift leaves a mantissa that the format can hold at [e']. *)
Lemma shifted_fits m e :
  0 <= m ->
  let n := Z.max 0 (fexp64 (Zdigits2 m + e) - e) in
  fexp64 (Zdigits2 (m / 2 ^ n) + (e + n)) <= e + n /\ -1074 <= e + n.
Proof.
  intros Hm n.
  assert (Hn : 0 <= n) by (unfold n; lia).
  assert (He : fexp64 (Zdigits2 m + e) <= e + n) by (unfold n; lia).
  assert (Hmin : -1074 <= e + n) by (rewrite fexp64_spec in He; lia).
  split; [| assumption].
  assert (Hp : 0 < 2 ^ n) by (apply Z.pow_pos_nonneg; lia).
  destruct (Z.eq_dec (m / 2 ^ n) 0) as [-> | Hne].
  - cbn [Zdigits2]. rewrite fexp64_spec. lia.
  - assert (H1 : 0 < m / 2 ^ n) by (pose proof (Z.div_pos m (2 ^ n)); lia).
    assert (Hmpos : 0 < m) by (destruct (Z.eq_dec m 0) as [-> |]; [rewrite Z.div_0_l in Hne; lia | lia]).
    assert (Hlt : n < Zdigits2 m).
    { destruct (Z.lt_ge_cases n (Zdigits2 m)) as [| Hge]; [assumption |].
      pose proof (Zdigits2_bounds m Hmpos) as [_ Hhi].
      assert (2 ^ Zdigits2 m <= 2 ^ n) by (apply Z.pow_le_mono_r; lia).
      rewrite Z.div_small in Hne by lia. lia. }
    rewrite Zdigits2_div_pow by lia.
    replace (Zdigits2 m - n + (e + n)) with (Zdigits2 m + e) by lia. exact He.
Qed.

(** [binary_round_aux] on a located value: it settles on a mantissa [mr] at an
    exponent [e + k], within half a unit of the value at that exponent; an
    exact value whose low bits are zero is kept as it is. *)
Lemma binary_round_aux_correct s m e l num den :
  located m l num den ->
  let n := Z.max 0 (fexp64 (Zdigits2 m + e) - e) in
  exists mr k,
    binary_round_aux prec emax s m e l = packed s mr (e + k) /\
    0 <= mr /\ n <= k <= n + 1 /\
    - (2 ^ k * den) <= 2 * (mr * 2 ^ k * den - num) <= 2 ^ k * den /\
    (l = loc_Exact -> m mod 2 ^ n = 0 -> mr = m / 2 ^ n /\ k = n).
Proof.
  intros Hloc n. unfold binary_round_aux.
  assert (Hm0 : 0 <= m) by (destruct Hloc; assumption).
  assert (Hden : 0 < den) by (destruct Hloc as (_ & ? & _); assumption).
  assert (Hn : 0 <= n) by (unfold n; lia).
  assert (Hpn : 0 < 2 ^ n) by (apply Z.pow_pos_nonneg; lia).
  destruct (shr_fexp prec emax m e l) as [mrs' e'] eqn:H1.
  destruct (shr_fexp_located m e l num den mrs' e' Hloc H1) as (Hl1 & Hm1 & He').
  fold n in Hl1, Hm1, He'.
  set (m1 := shr_m mrs') in *. set (l1 := loc_of_shr_record mrs') in *.
  destruct (round_nearest_even_located m1 l1 num (2 ^ n * den) Hl1) as (Hcase & Hbound & Hexact).
  set (m' := round_nearest_even m1 l1) in *.
  assert (Hm1pos : 0 <= m1) by (destruct Hl1; assumption).
  assert (Hm'pos : 0 <= m') by lia.
  destruct (shr_fexp prec emax m' e' loc_Exact) as [mrs'' e''] eqn:H2.
  destruct (shr_fexp_located m' e' loc_Exact m' 1 mrs'' e'' (located_exact m' Hm'pos) H2)
    as (_ & Hm2 & He'').
  set (n2 := Z.max 0 (fexp64 (Zdigits2 m' + e') - e')) in *.
  destruct (shifted_fits m e Hm0) as [Hfit Hmin]. fold n in Hfit, Hmin.
  rewrite <- Hm1, <- He' in Hfit. rewrite <- He' in Hmin.
  assert (Hpacked : match shr_m mrs'' with
                    | 0 => S754_zero s
                    | Z.pos m0 => if e'' <=? emax - prec then S754_finite s m0 e''
                                  else S754_infinity s
                    | Z.neg _ => S754_nan
                    end = packed s (m' / 2 ^ n2) (e + (n + n2))).
  { unfold packed. rewrite Hm2, He'', He'. now rewrite Z.add_assoc. }
  rewrite Hpacked. clear Hpacked.
  destruct Hcase as [Hsame | Hup].
  - (* the mantissa is kept: no second shift *)
    assert (Hn2 : n2 = 0) by (unfold n2; rewrite Hsame; lia).
    exists m1, n. rewrite Hn2, Z.pow_0_r, Z.div_1_r, Z.add_0_r, Hsame.
    split; [reflexivity |]. split; [assumption |]. split; [lia |].
    split.
    + rewrite Hsame in Hbound. replace (m1 * 2 ^ n * den) with (m1 * (2 ^ n * den)) by lia.
      exact Hbound.
    + intros _ _. split; [exact Hm1 | reflexivity].
  - (* rounded up *)
    assert (Hd' : Zdigits2 m' <= Zdigits2 m1 + 1) by (rewrite Hup; now apply Zdigits2_succ_le).
    assert (Hn2 : n2 = 0 \/ n2 = 1).
    { pose proof (fexp64_mono _ _ (Zplus_le_compat_r _ _ e' Hd')) as Hmono.
      pose proof (fexp64_le_succ (Zdigits2 m1 + e')) as Hs.
      replace (Zdigits2 m1 + 1 + e') with (Zdigits2 m1 + e' + 1) in Hmono by lia.
      unfold n2. lia. }
    assert (Hnotexact : l = loc_Exact -> m mod 2 ^ n = 0 -> False).
    { intros -> Hmod. destruct Hloc as (_ & _ & _ & Hnum).
      assert (Hm : m = 2 ^ n * m1).
      { rewrite Hm1. apply Z.div_exact in Hmod; lia. }
      assert (l1 = loc_Exact).
      { destruct l1 as [| c]; [reflexivity |].
        destruct Hl1 as (_ & _ & _ & Hne & _). exfalso. apply Hne. rewrite Hnum, Hm. lia. }
      specialize (Hexact H). lia. }
    destruct Hn2 as [Hn2 | Hn2].
    + exists m', n. rewrite Hn2, Z.pow_0_r, Z.div_1_r, Z.add_0_r.
      split; [reflexivity |]. split; [assumption |]. split; [lia |].
      split; [| intros; exfalso; auto].
      replace (m' * 2 ^ n * den) with (m' * (2 ^ n * den)) by lia. exact Hbound.
    + (* a carry into a new digit: one more exact shift *)
      assert (Hf : fexp64 (Zdigits2 m' + e') = e' + 1) by (unfold n2 in Hn2; lia).
      assert (Hdig : Zdigits2 m' = Zdigits2 m1 + 1).
      { destruct (Z.eq_dec (Zdigits2 m') (Zdigits2 m1 + 1)) as [| Hne]; [assumption |].
        assert (Hle : Zdigits2 m' + e' <= Zdigits2 m1 + e') by lia.
        apply fexp64_mono in Hle. lia. }
      assert (Hm1ne : 0 < m1).
      { destruct (Z.eq_dec m1 0) as [H0 |]; [| lia].
        rewrite Hup, H0 in Hf. change (Zdigits2 (0 + 1)) with 1 in Hf.
        rewrite fexp64_spec in Hf. lia. }
      rewrite Hup in Hdig. pose proof (Zdigits2_succ_carry m1 Hm1ne Hdig) as Hpow.
      pose proof (Zdigits2_pos m1 Hm1ne) as Hd1.
      assert (Hhalf : m' = 2 * 2 ^ (Zdigits2 m1 - 1)).
      { rewrite Hup, Hpow. rewrite <- Z.pow_succ_r by lia. f_equal. lia. }
      exists (2 ^ (Zdigits2 m1 - 1)), (n + 1). rewrite Hn2.
      split; [| split; [| split; [| split]]].
      * f_equal. rewrite Hhalf, Z.pow_1_r.
        rewrite Z.mul_comm, Z.div_mul; lia.
      * apply Z.pow_nonneg. lia.
      * lia.
      * rewrite Z.pow_add_r, Z.pow_1_r by lia.
        replace (2 ^ (Zdigits2 m1 - 1) * (2 ^ n * 2) * den) with (m' * (2 ^ n * den))
          by (rewrite Hhalf; lia).
        lia.
      * intros; exfalso; auto.
Qed.

(** *** Values that need no rounding *)

(** A mantissa whose bits below the target exponent are zero is only
    shifted. *)
Lemma binary_round_aux_exact s m e :
  0 <= m ->
  let n := Z.max 0 (fexp64 (Zdigits2 m + e) - e) in
  m mod 2 ^ n = 0 ->
  binary_round_aux prec emax s m e loc_Exact = packed s (m / 2 ^ n) (e + n).
Proof.
  intros Hm n Hmod.
  destruct (binary_round_aux_correct s m e loc_Exact m 1 (located_exact m Hm))
    as (mr & k & Hr & _ & _ & _ & Hex).
  destruct (Hex eq_refl Hmod) as [-> ->]. exact Hr.
Qed.

Lemma shl_align_spec mx ex ex' :
  let d := Z.max 0 (ex - ex') in
  Z.pos (fst (shl_align mx ex ex')) = Z.pos mx * 2 ^ d /\
  snd (shl_align mx ex ex') = ex - d.
Proof.
  unfold shl_align. destruct (ex' - ex) as [| p | p] eqn:Hd; cbn [fst snd].
  - replace (Z.max 0 (ex - ex')) with 0 by lia. rewrite Z.pow_0_r. lia.
  - replace (Z.max 0 (ex - ex')) with 0 by lia. rewrite Z.pow_0_r. lia.
  - replace (Z.max 0 (ex - ex')) with (Z.pos p) by lia.
    change (Pos.iter xO mx p) with (shift_pos p mx). rewrite shift_pos_correct.
    change (Z.pow_pos 2 p) with (2 ^ Z.pos p). lia.
Qed.

(** [binary_round] on a value [mx * 2^ex] that is [mc * 2^f] at the exponent
    [f] the format gives it: the result is [mc] at [f]. *)
Lemma binary_round_exact s mx ex mc :
  let f := fexp64 (Z.pos (digits2_pos mx) + ex) in
  (f <= ex -> mc = Z.pos mx * 2 ^ (ex - f)) ->
  (ex < f -> Z.pos mx = mc * 2 ^ (f - ex)) ->
  binary_round prec emax s mx ex = packed s mc f.
Proof.
  intros f Hle Hgt. unfold binary_round.
  destruct (shl_align_spec mx ex f) as [Hm He]. fold f.
  destruct (shl_align mx ex f) as [mz ez]. cbn [fst snd] in Hm, He.
  assert (Hd : Zdigits2 (Z.pos mz) + ez = Z.pos (digits2_pos mx) + ex).
  { rewrite Hm, He. rewrite Zdigits2_mul_pow by lia. cbn [Zdigits2]. lia. }
  assert (Hmod : Z.pos mz mod 2 ^ Z.max 0 (fexp64 (Zdigits2 (Z.pos mz) + ez) - ez) = 0).
  { rewrite Hd. fold f. destruct (Z.le_gt_cases f ex) as [H1 | H1].
    - replace (Z.max 0 (f - ez)) with 0 by lia. now rewrite Z.pow_0_r, Z.mod_1_r.
    - replace (Z.max 0 (ex - f)) with 0 in * by lia.
      rewrite Z.pow_0_r, Z.mul_1_r in Hm. rewrite Z.sub_0_r in He. subst ez.
      replace (Z.max 0 (f - ex)) with (f - ex) by lia. rewrite Hm, (Hgt H1).
      apply Z.mod_mul. apply Z.pow_nonzero; lia. }
  rewrite (binary_round_aux_exact s (Z.pos mz) ez ltac:(lia) Hmod). rewrite Hd. fold f.
  destruct (Z.le_gt_cases f ex) as [H1 | H1].
  - rewrite (Hle H1). replace (Z.max 0 (f - ez)) with 0 by lia.
    rewrite Z.pow_0_r, Z.div_1_r, Z.add_0_r, Hm, He.
    replace (Z.max 0 (ex - f)) with (ex - f) by lia. f_equal. lia.
  - replace (Z.max 0 (ex - f)) with 0 in * by lia.
    rewrite Z.pow_0_r, Z.mul_1_r in Hm. rewrite Z.sub_0_r in He. subst ez.
    replace (Z.max 0 (f - ex)) with (f - ex) by lia. rewrite Hm, (Hgt H1).
    rewrite Z.div_mul by (apply Z.pow_nonzero; lia). f_equal. lia.
Qed.

(** *** Integers below [2^53] *)

Lemma Zdigits2_le_53 z : 0 < z < 2 ^ 53 -> 1 <= Zdigits2 z <= 53.
Proof.
  intros [Hz Hlt]. pose proof (Zdigits2_bounds z Hz) as [Hlo _].
  pose proof (Zdigits2_pos z Hz). split; [lia |].
  destruct (Z.le_gt_cases (Zdigits2 z) 53) as [| Hgt]; [assumption |].
  assert (2 ^ 53 <= 2 ^ (Zdigits2 z - 1)) by (apply Z.pow_le_mono_r; lia). lia.
Qed.

Lemma SFint_pos z :
  0 < z < 2 ^ 53 ->
  SFint z = S754_finite false (Z.to_pos (z * 2 ^ (53 - Zdigits2 z))) (Zdigits2 z - 53).
Proof.
  intros Hz. pose proof (Zdigits2_le_53 z Hz) as Hd. unfold SFint, packed.
  assert (Hp : 0 < z * 2 ^ (53 - Zdigits2 z)).
  { apply Z.mul_pos_pos; [lia | apply Z.pow_pos_nonneg; lia]. }
  destruct (z * 2 ^ (53 - Zdigits2 z)) as [| p | p]; [lia | | lia].
  replace (Zdigits2 z - 53 <=? emax - prec) with true; [reflexivity |].
  symmetry. apply Z.leb_le. change (emax - prec) with 971. lia.
Qed.

Lemma SFint_0 : SFint 0 = S754_zero false.
Proof. reflexivity. Qed.

(** Converting an integer below [2^53] to binary64 is exact. *)
Lemma binary_normalize_int z :
  0 <= z < 2 ^ 53 -> binary_normalize prec emax z 0 false = SFint z.
Proof.
  intros [Hz Hlt]. destruct z as [| p | p]; [reflexivity | | lia].
  pose proof (Zdigits2_le_53 (Z.pos p) ltac:(lia)) as Hd. cbn [Zdigits2] in Hd.
  cbn [binary_normalize]. unfold SFint. cbn [Zdigits2].
  assert (Hf : fexp64 (Z.pos (digits2_pos p) + 0) = Z.pos (digits2_pos p) - 53)
    by (rewrite fexp64_spec; lia).
  rewrite <- Hf.
  apply binary_round_exact; rewrite Hf; intros; [f_equal; f_equal; lia | lia].
Qed.

Lemma Zdigits2_mul_lower a b :
  0 < a -> 0 < b -> Zdigits2 a + Zdigits2 b - 1 <= Zdigits2 (a * b).
Proof.
  intros Ha Hb.
  pose proof (Zdigits2_bounds a Ha) as [Hla _]. pose proof (Zdigits2_bounds b Hb) as [Hlb _].
  pose proof (Zdigits2_bounds (a * b) ltac:(nia)) as [_ Hh].
  pose proof (Zdigits2_pos a Ha). pose proof (Zdigits2_pos b Hb).
  destruct (Z.le_gt_cases (Zdigits2 a + Zdigits2 b - 1) (Zdigits2 (a * b))) as [| Hgt];
    [assumption |].
  assert (Hpow : 2 ^ Zdigits2 (a * b) <= 2 ^ (Zdigits2 a - 1 + (Zdigits2 b - 1))).
  { apply Z.pow_le_mono_r; lia. }
  rewrite Z.pow_add_r in Hpow by lia.
  assert (0 < 2 ^ (Zdigits2 a - 1)) by (apply Z.pow_pos_nonneg; lia).
  assert (0 < 2 ^ (Zdigits2 b - 1)) by (apply Z.pow_pos_nonneg; lia).
  nia.
Qed.

(** Multiplying two integers is exact when the product is below [2^53]. *)
Lemma SFint_mul a b :
  0 <= a < 2 ^ 53 -> 0 <= b < 2 ^ 53 -> a * b < 2 ^ 53 ->
  SF64mul (SFint a) (SFint b) = SFint (a * b).
Proof.
  intros Ha Hb Hab.
  destruct (Z.eq_dec a 0) as [-> | Ha0].
  { rewrite Z.mul_0_l, SFint_0. destruct (Z.eq_dec b 0) as [-> | Hb0]; [reflexivity |].
    rewrite (SFint_pos b) by lia. reflexivity. }
  destruct (Z.eq_dec b 0) as [-> | Hb0].
  { rewrite Z.mul_0_r, SFint_0. rewrite (SFint_pos a) by lia. reflexivity. }
  assert (Ha53 : 0 < a < 2 ^ 53) by lia. assert (Hb53 : 0 < b < 2 ^ 53) by lia.
  assert (Hab53 : 0 < a * b < 2 ^ 53) by nia.
  pose proof (Zdigits2_le_53 a Ha53) as Hda. pose proof (Zdigits2_le_53 b Hb53) as Hdb.
  pose proof (Zdigits2_le_53 (a * b) Hab53) as Hdab.
  pose proof (Zdigits2_mul_lower a b ltac:(lia) ltac:(lia)) as Hlow.
  rewrite (SFint_pos a Ha53), (SFint_pos b Hb53). unfold SF64mul, SFmul. cbn [xorb].
  set (da := Zdigits2 a) in *. set (db := Zdigits2 b) in *. set (D := Zdigits2 (a * b)) in *.
  assert (Hpa : 0 < a * 2 ^ (53 - da)) by (apply Z.mul_pos_pos; [lia | apply Z.pow_pos_nonneg; lia]).
  assert (Hpb : 0 < b * 2 ^ (53 - db)) by (apply Z.mul_pos_pos; [lia | apply Z.pow_pos_nonneg; lia]).
  rewrite Pos2Z.inj_mul, !Z2Pos.id by assumption.
  assert (Hm : a * 2 ^ (53 - da) * (b * 2 ^ (53 - db)) = a * b * 2 ^ (106 - da - db)).
  { replace (106 - da - db) with ((53 - da) + (53 - db)) by lia.
    rewrite Z.pow_add_r by lia. lia. }
  rewrite Hm.
  assert (Hdig : Zdigits2 (a * b * 2 ^ (106 - da - db)) + (da - 53 + (db - 53)) = D).
  { rewrite Zdigits2_mul_pow by lia. fold D. lia. }
  assert (Hn : Z.max 0 (fexp64 (Zdigits2 (a * b * 2 ^ (106 - da - db)) + (da - 53 + (db - 53)))
                        - (da - 53 + (db - 53))) = D + 53 - da - db).
  { rewrite Hdig, fexp64_spec. lia. }
  assert (Hsplit : a * b * 2 ^ (106 - da - db) = a * b * 2 ^ (53 - D) * 2 ^ (D + 53 - da - db)).
  { rewrite <- (Z.mul_assoc (a * b)), <- Z.pow_add_r by lia. do 2 f_equal. lia. }
  rewrite binary_round_aux_exact.
  - rewrite Hn. unfold SFint. fold D. rewrite Hsplit at 1.
    rewrite Z.div_mul by (apply Z.pow_nonzero; lia). f_equal. lia.
  - lia.
  - rewrite Hn, Hsplit. apply Z.mod_mul. apply Z.pow_nonzero; lia.
Qed.

(** Adding two integers is exact when the sum is below [2^53]. *)
Lemma SFint_add a b :
  0 <= a -> 0 <= b -> a + b < 2 ^ 53 ->
  SF64add (SFint a) (SFint b) = SFint (a + b).
Proof.
  intros Ha Hb Hab.
  destruct (Z.eq_dec a 0) as [-> | Ha0].
  { rewrite Z.add_0_l, SFint_0. destruct (Z.eq_dec b 0) as [-> | Hb0]; [reflexivity |].
    rewrite (SFint_pos b) by lia. reflexivity. }
  destruct (Z.eq_dec b 0) as [-> | Hb0].
  { rewrite Z.add_0_r, SFint_0. rewrite (SFint_pos a) by lia. reflexivity. }
  assert (Ha53 : 0 < a < 2 ^ 53) by lia. assert (Hb53 : 0 < b < 2 ^ 53) by lia.
  assert (Hab53 : 0 < a + b < 2 ^ 53) by lia.
  pose proof (Zdigits2_le_53 a Ha53) as Hda. pose proof (Zdigits2_le_53 b Hb53) as Hdb.
  pose proof (Zdigits2_le_53 (a + b) Hab53) as Hdab.
  rewrite (SFint_pos a Ha53), (SFint_pos b Hb53). unfold SF64add, SFadd.
  set (da := Zdigits2 a) in *. set (db := Zdigits2 b) in *. set (D := Zdigits2 (a + b)) in *.
  set (ez := Z.min (da - 53) (db - 53)).
  assert (Hpa : 0 < a * 2 ^ (53 - da)) by (apply Z.mul_pos_pos; [lia | apply Z.pow_pos_nonneg; lia]).
  assert (Hpb : 0 < b * 2 ^ (53 - db)) by (apply Z.mul_pos_pos; [lia | apply Z.pow_pos_nonneg; lia]).
  destruct (shl_align_spec (Z.to_pos (a * 2 ^ (53 - da))) (da - 53) ez) as [Hma _].
  destruct (shl_align_spec (Z.to_pos (b * 2 ^ (53 - db))) (db - 53) ez) as [Hmb _].
  rewrite Z2Pos.id in Hma, Hmb by assumption.
  cbn [cond_Zopp]. rewrite Hma, Hmb.
  replace (Z.max 0 (da - 53 - ez)) with (da - 53 - ez) by lia.
  replace (Z.max 0 (db - 53 - ez)) with (db - 53 - ez) by lia.
  rewrite <- !Z.mul_assoc, <- !Z.pow_add_r by lia.
  replace (53 - da + (da - 53 - ez)) with (- ez) by lia.
  replace (53 - db + (db - 53 - ez)) with (- ez) by lia.
  rewrite <- Z.mul_add_distr_r.
  assert (Hsum : 0 < (a + b) * 2 ^ (- ez)) by (apply Z.mul_pos_pos; [lia | apply Z.pow_pos_nonneg; lia]).
  destruct ((a + b) * 2 ^ (- ez)) as [| p | p] eqn:Hp; [lia | | lia].
  cbn [binary_normalize].
  assert (Hdig : Z.pos (digits2_pos p) + ez = D).
  { change (Z.pos (digits2_pos p)) with (Zdigits2 (Z.pos p)). rewrite <- Hp.
    rewrite Zdigits2_mul_pow by lia. fold D. lia. }
  assert (Hf : fexp64 (Z.pos (digits2_pos p) + ez) = D - 53) by (rewrite Hdig, fexp64_spec; lia).
  unfold SFint. fold D. rewrite <- Hf.
  apply binary_round_exact; rewrite Hf; intros Hcmp; rewrite <- Hp.
  - rewrite <- Z.mul_assoc, <- Z.pow_add_r by lia. do 2 f_equal. lia.
  - rewrite <- Z.mul_assoc, <- Z.pow_add_r by lia. do 2 f_equal. lia.
Qed.

(** A valid binary64 number that is a positive integer below [2^53] is the
    canonical [SFint]. *)
Lemma integer_of_spec_canonical s m e z :
  valid_binary (S754_finite s m e) = true ->
  JS.integer_of_spec (S754_finite s m e) = Some z ->
  0 <= z < 2 ^ 53 ->
  0 < z /\ S754_finite s m e = SFint z.
Proof.
  intros Hv Hi Hz. cbn [SpecFloat.valid_binary] in Hv. unfold bounded, canonical_mantissa in Hv.
  apply andb_true_iff in Hv as [Hc Hb]. apply Z.eqb_eq in Hc. apply Z.leb_le in Hb.
  rewrite fexp64_spec in Hc. change (emax - prec) with 971 in Hb.
  change (Z.pos (digits2_pos m)) with (Zdigits2 (Z.pos m)) in Hc.
  cbn [JS.integer_of_spec] in Hi.
  destruct (Z.leb_spec 0 e) as [He | He].
  - injection Hi as Hi.
    assert (Hpos : 0 < Z.pos m * 2 ^ e)
      by (apply Z.mul_pos_pos; [lia | apply Z.pow_pos_nonneg; lia]).
    destruct s; cbn [cond_Zopp] in Hi; [lia |].
    pose proof (Zdigits2_mul_pow (Z.pos m) e ltac:(lia) He) as Hd. rewrite Hi in Hd.
    pose proof (Zdigits2_le_53 z ltac:(lia)) as Hd53.
    assert (e = 0) by lia. subst e.
    split; [lia |]. rewrite SFint_pos by lia. rewrite Hd.
    replace (53 - (Zdigits2 (Z.pos m) + 0)) with 0 by lia.
    rewrite Z.pow_0_r, Z.mul_1_r, <- Hi, Z.pow_0_r, Z.mul_1_r. cbn [Z.to_pos].
    f_equal. lia.
  - destruct (Z.eqb_spec (Z.pos m mod 2 ^ (- e)) 0) as [Hmod | Hmod]; [| discriminate].
    injection Hi as Hi.
    assert (Hp : 0 < 2 ^ (- e)) by (apply Z.pow_pos_nonneg; lia).
    assert (Hm : Z.pos m = Z.pos m / 2 ^ (- e) * 2 ^ (- e)).
    { apply Z.div_exact in Hmod; lia. }
    assert (Hq : 0 < Z.pos m / 2 ^ (- e)) by nia.
    destruct s; cbn [cond_Zopp] in Hi; [lia |]. rewrite Hi in Hm, Hq.
    pose proof (Zdigits2_mul_pow z (- e) Hq ltac:(lia)) as Hd. rewrite <- Hm in Hd.
    pose proof (Zdigits2_le_53 z ltac:(lia)) as Hd53.
    split; [lia |]. rewrite SFint_pos by lia.
    assert (He' : e = Zdigits2 z - 53) by lia.
    replace (53 - Zdigits2 z) with (- e) by lia. rewrite <- Hm, <- He'. reflexivity.
Qed.

Lemma integer_of_spec_SFint z : 0 <= z < 2 ^ 53 -> JS.integer_of_spec (SFint z) = Some z.
Proof.
  intros Hz. destruct (Z.eq_dec z 0) as [-> | Hne]; [reflexivity |].
  rewrite SFint_pos by lia. pose proof (Zdigits2_le_53 z ltac:(lia)) as Hd.
  cbn [JS.integer_of_spec].
  assert (Hp : 0 < 2 ^ (53 - Zdigits2 z)) by (apply Z.pow_pos_nonneg; lia).
  rewrite Z2Pos.id by nia.
  destruct (Z.leb_spec 0 (Zdigits2 z - 53)) as [He | He].
  - replace (Zdigits2 z - 53) with 0 by lia. replace (53 - Zdigits2 z) with 0 by lia.
    rewrite !Z.pow_0_r, !Z.mul_1_r. reflexivity.
  - replace (- (Zdigits2 z - 53)) with (53 - Zdigits2 z) by lia.
    rewrite Z.mod_mul, Z.div_mul by lia. reflexivity.
Qed.

Lemma integer_of_spec_opp_SFint z :
  0 < z < 2 ^ 53 -> JS.integer_of_spec (SFopp (SFint z)) = Some (- z).
Proof.
  intros Hz. pose proof (integer_of_spec_SFint z ltac:(lia)) as H.
  rewrite SFint_pos in * by lia. cbn [SFopp negb JS.integer_of_spec] in *.
  destruct (0 <=? Zdigits2 z - 53).
  - injection H as H. cbn [cond_Zopp] in *. now rewrite H.
  - destruct (_ =? 0); [| discriminate]. injection H as H. cbn [cond_Zopp] in *. now rewrite H.
Qed.

(** *** Comparison *)

Lemma SFcompare_antisym x y : SFcompare y x = option_map CompOpp (SFcompare x y).
Proof.
  destruct x as [sx | sx | | sx mx ex], y as [sy | sy | | sy my ey];
    try destruct sx; try destruct sy; try reflexivity;
    cbn [SFcompare option_map]; rewrite (Z.compare_antisym ey ex);
    destruct (ey ?= ex) eqn:He; cbn [CompOpp]; try reflexivity;
    rewrite !Pos.compare_cont_spec, (Pos.compare_antisym my mx);
    destruct (my ?= mx)%positive; reflexivity.
Qed.

Lemma SFleb_not_ltb x y : SFleb x y = true -> SFltb y x = false.
Proof.
  unfold SFleb, SFltb. rewrite (SFcompare_antisym x y).
  destruct (SFcompare x y) as [[| |] |]; cbn; congruence.
Qed.

Lemma SFeqb_not_ltb x y : SFeqb x y = true -> SFltb y x = false.
Proof.
  unfold SFeqb, SFltb. rewrite (SFcompare_antisym x y).
  destruct (SFcompare x y) as [[| |] |]; cbn; congruence.
Qed.

(** *** Subtracting a finite number from itself *)

Lemma SFsub_diag x :
  match x with S754_zero _ | S754_finite _ _ _ => True | _ => False end ->
  SF64sub x x = S754_zero false.
Proof.
  destruct x as [[|] | | | s m e]; intros H; try contradiction; try reflexivity.
  unfold SF64sub, SFsub. rewrite Z.sub_diag. reflexivity.
Qed.

(** *** Dividing by one *)

Lemma div_eucl_div_mod a b : Z.div_eucl a b = (a / b, a mod b).
Proof. unfold Z.div, Z.modulo. destruct (Z.div_eucl a b). reflexivity. Qed.

Lemma new_location_0 n : new_location n 0 = loc_Exact.
Proof. unfold new_location. destruct (Z.even n); reflexivity. Qed.

Lemma valid_finite s m e :
  valid_binary (S754_finite s m e) = true ->
  fexp64 (Zdigits2 (Z.pos m) + e) = e /\ e <= 971 /\ -1074 <= e /\ Zdigits2 (Z.pos m) <= 53.
Proof.
  intros Hv. cbn [SpecFloat.valid_binary] in Hv. unfold bounded, canonical_mantissa in Hv.
  apply andb_true_iff in Hv as [Hc Hb]. apply Z.eqb_eq in Hc. apply Z.leb_le in Hb.
  change (emax - prec) with 971 in Hb.
  change (Z.pos (digits2_pos m)) with (Zdigits2 (Z.pos m)) in Hc.
  pose proof Hc as Hc'. rewrite fexp64_spec in Hc'. repeat split; [assumption | lia ..].
Qed.

(** Division by one is exact. *)
Lemma SFdiv_one x : valid_binary x = true -> SF64div x SFone = x.
Proof.
  intros Hv. destruct x as [[|] | [|] | | s m e]; try reflexivity.
  destruct (valid_finite s m e Hv) as (Hc & Hmax & Hmin & Hd53).
  unfold SF64div, SFone, SFdiv, SFdiv_core_binary.
  change (Zdigits2 4503599627370496) with 53.
  set (d := Zdigits2 (Z.pos m)) in *.
  set (f := fexp64 (d + e - (53 + -52))).
  assert (Hf : f = e - 1 \/ f = e).
  { unfold f. rewrite fexp64_spec in *. lia. }
  replace (Z.min f (e - -52)) with f by lia.
  assert (Hs : 0 < e - -52 - f) by lia.
  destruct (e - -52 - f) as [| sh | sh] eqn:Hsh; [lia | | lia].
  rewrite Z.shiftl_mul_pow2 by lia. rewrite div_eucl_div_mod.
  assert (Hq : Z.pos m * 2 ^ Z.pos sh = Z.pos m * 2 ^ (e - f) * 4503599627370496).
  { change 4503599627370496 with (2 ^ 52). rewrite <- Z.mul_assoc, <- Z.pow_add_r by lia.
    do 2 f_equal. lia. }
  rewrite Hq, Z.div_mul, Z.mod_mul by lia. rewrite new_location_0.
  assert (Hdig : Zdigits2 (Z.pos m * 2 ^ (e - f)) + f = d + e).
  { rewrite Zdigits2_mul_pow by lia. fold d. lia. }
  assert (Hn : Z.max 0 (fexp64 (Zdigits2 (Z.pos m * 2 ^ (e - f)) + f) - f) = e - f)
    by (rewrite Hdig, Hc; lia).
  rewrite binary_round_aux_exact.
  - rewrite Hn, Z.div_mul by (apply Z.pow_nonzero; lia).
    replace (f + (e - f)) with e by lia. unfold packed.
    replace (e <=? emax - prec) with true by (symmetry; apply Z.leb_le; change (emax - prec) with 971; lia).
    now rewrite xorb_false_r.
  - apply Z.mul_nonneg_nonneg; [lia | apply Z.pow_nonneg; lia].
  - rewrite Hn. apply Z.mod_mul. apply Z.pow_nonzero; lia.
Qed.

(** *** Adding a non-negative number to one *)

Lemma Zdigits2_lower m j : 0 <= j -> 2 ^ j <= m -> j + 1 <= Zdigits2 m.
Proof.
  intros Hj Hm. assert (Hp : 0 < 2 ^ j) by (apply Z.pow_pos_nonneg; lia).
  pose proof (Zdigits2_bounds m ltac:(lia)) as [_ Hhi].
  destruct (Z.le_gt_cases (j + 1) (Zdigits2 m)) as [| Hgt]; [assumption |].
  pose proof (Zdigits2_nonneg m).
  assert (2 ^ Zdigits2 m <= 2 ^ j) by (apply Z.pow_le_mono_r; lia). lia.
Qed.

(** [1 + y] for [y >= 0] is at least one: if it does not compare above one,
    it is one. *)
Lemma SFadd_one_nonneg y :
  match y with
  | S754_zero _ | S754_finite false _ _ | S754_infinity false => True
  | _ => False
  end ->
  SFltb SFone (SF64add SFone y) = false -> SF64add SFone y = SFone.
Proof.
  destruct y as [sy | [|] | | [|] my ey]; intros Hy; try contradiction; try reflexivity.
  - cbn. discriminate.
  - clear Hy. unfold SF64add, SFone, SFadd.
    set (ez := Z.min (-52) ey).
    destruct (shl_align_spec 4503599627370496 (-52) ez) as [H1 _].
    destruct (shl_align_spec my ey ez) as [H2 _].
    cbn [cond_Zopp]. rewrite H1, H2.
    replace (Z.max 0 (-52 - ez)) with (-52 - ez) by lia.
    replace (Z.max 0 (ey - ez)) with (ey - ez) by lia.
    set (M := 4503599627370496 * 2 ^ (-52 - ez) + Z.pos my * 2 ^ (ey - ez)).
    assert (Hone : 4503599627370496 * 2 ^ (-52 - ez) = 2 ^ (- ez)).
    { change 4503599627370496 with (2 ^ 52). rewrite <- Z.pow_add_r by lia. f_equal. lia. }
    assert (HM : 2 ^ (- ez) <= M).
    { unfold M. rewrite Hone.
      assert (0 < Z.pos my * 2 ^ (ey - ez))
        by (apply Z.mul_pos_pos; [lia | apply Z.pow_pos_nonneg; lia]). lia. }
    assert (Hp0 : 0 < 2 ^ (- ez)) by (apply Z.pow_pos_nonneg; lia).
    destruct M as [| p | p] eqn:HMp; [lia | | lia].
    cbn [binary_normalize]. unfold binary_round.
    set (fD := fexp64 (Z.pos (digits2_pos p) + ez)).
    destruct (shl_align_spec p ez fD) as [Hmz Hez].
    destruct (shl_align p ez fD) as [mz ez']. cbn [fst snd] in Hmz, Hez.
    set (sh := Z.max 0 (ez - fD)) in *.
    assert (Hsh : 0 <= sh) by (unfold sh; lia).
    assert (Hdig : Zdigits2 (Z.pos mz) + ez' = Z.pos (digits2_pos p) + ez).
    { rewrite Hmz, Hez, Zdigits2_mul_pow by lia. cbn [Zdigits2]. lia. }
    assert (HD : 1 <= Z.pos (digits2_pos p) + ez).
    { pose proof (Zdigits2_lower (Z.pos p) (- ez) ltac:(lia) HM) as Hl.
      cbn [Zdigits2] in Hl. lia. }
    assert (HfD : fD = Z.pos (digits2_pos p) + ez - 53) by (unfold fD; rewrite fexp64_spec; lia).
    destruct (binary_round_aux_correct false (Z.pos mz) ez' loc_Exact (Z.pos mz) 1
                (located_exact (Z.pos mz) ltac:(lia))) as (mr & k & Hr & Hmr & Hk & Hbound & _).
    rewrite Hdig in Hk. fold fD in Hk.
    rewrite Hr. clear Hr.
    assert (Hk0 : 0 <= k) by lia.
    assert (Hpk : 0 < 2 ^ k) by (apply Z.pow_pos_nonneg; lia).
    assert (Hez' : ez' <= fD) by (unfold sh in Hez; lia).
    assert (Hkk : fD - ez' <= k <= fD - ez' + 1) by lia.
    assert (Hval : 2 ^ (- ez') <= Z.pos mz).
    { rewrite Hmz, Hez. replace (- (ez - sh)) with (- ez + sh) by lia.
      rewrite Z.pow_add_r by lia. apply Z.mul_le_mono_nonneg_r; [apply Z.pow_nonneg; lia | lia]. }
    assert (Her : -52 <= ez' + k) by lia.
    rewrite !Z.mul_1_r in Hbound.
    set (dz := Zdigits2 (Z.pos mz)) in *.
    pose proof (Zdigits2_bounds (Z.pos mz) ltac:(lia)) as [Hdz _]. fold dz in Hdz.
    assert (Hdz53 : 53 <= dz) by lia.
    intros Hlt. unfold packed in *.
    destruct mr as [| pr | pr]; [| | lia].
    + exfalso. (* a zero mantissa would put the value below half a unit *)
      assert (Hpow : 2 ^ k <= 2 ^ (dz - 52)) by (apply Z.pow_le_mono_r; lia).
      assert (Hsp : 2 ^ (dz - 1) = 2 ^ (dz - 52) * 2 ^ 51).
      { rewrite <- Z.pow_add_r by lia. f_equal. lia. }
      assert (Hb : 0 < 2 ^ (dz - 52)) by (apply Z.pow_pos_nonneg; lia).
      rewrite Z.mul_0_l in Hbound. change (2 ^ 51) with 2251799813685248 in Hsp.
      clear - Hbound Hpow Hsp Hb Hdz. lia.
    + destruct (Z.leb_spec (ez' + k) (emax - prec)) as [Hfin | Hfin]; [| cbn in Hlt; discriminate].
      unfold SFltb, SFcompare in Hlt.
      destruct (Z.compare_spec (-52) (ez' + k)) as [Heq | Hcl | Hcg]; [| discriminate | lia].
      rewrite <- Heq in *.
      rewrite Pos.compare_cont_spec in Hlt. cbn [Pos.switch_Eq] in Hlt.
      destruct (Pos.compare_spec 4503599627370496 pr) as [Hpe | Hpl | Hpg];
        [subst pr; reflexivity | discriminate |].
      exfalso.
      assert (Hsplit : 2 ^ (- ez') = 4503599627370496 * 2 ^ k).
      { replace (- ez') with (52 + k) by (clear - Heq; lia).
        rewrite Z.pow_add_r by (clear - Hk0; lia). reflexivity. }
      assert (Hle : Z.pos pr * 2 ^ k <= 4503599627370495 * 2 ^ k).
      { apply Pos2Z.pos_lt_pos in Hpg.
        apply Z.mul_le_mono_nonneg_r; [clear - Hpk; lia | clear - Hpg; lia]. }
      clear - Hbound Hval Hsplit Hle Hpk. lia.
Qed.

(** *** Division *)

(** The quotient and location computed by [SFdiv_core_binary] place
    [m1 * 2^s / m2] for the shift [s] it chose. *)
Lemma SFdiv_core_located m1 e1 m2 e2 :
  0 < m1 -> 0 < m2 ->
  exists q e' l s,
    SFdiv_core_binary prec emax m1 e1 m2 e2 = (q, e', l) /\
    0 <= s /\ e' = e1 - e2 - s /\
    e' = Z.min (fexp64 (Zdigits2 m1 + e1 - (Zdigits2 m2 + e2))) (e1 - e2) /\
    located q l (m1 * 2 ^ s) m2.
Proof.
  intros H1 H2. unfold SFdiv_core_binary.
  set (e' := Z.min (fexp64 (Zdigits2 m1 + e1 - (Zdigits2 m2 + e2))) (e1 - e2)).
  set (s := e1 - e2 - e').
  assert (Hs : 0 <= s) by (unfold s, e'; lia).
  set (m' := match s with Z.pos _ => Z.shiftl m1 s | 0 => m1 | Z.neg _ => 0 end).
  assert (Hm' : m' = m1 * 2 ^ s).
  { unfold m'. destruct s as [| p | p] eqn:Hp; [rewrite Z.pow_0_r; lia | | lia].
    apply Z.shiftl_mul_pow2. lia. }
  rewrite div_eucl_div_mod.
  exists (m' / m2), e', (new_location m2 (m' mod m2)), s.
  split; [reflexivity |]. split; [assumption |]. split; [unfold s; lia |].
  split; [reflexivity |]. rewrite <- Hm'.
  assert (Hpos : 0 <= m') by (rewrite Hm'; apply Z.mul_nonneg_nonneg; [lia | apply Z.pow_nonneg; lia]).
  pose proof (Z.div_mod m' m2 ltac:(lia)) as Hdm.
  pose proof (Z.mod_pos_bound m' m2 H2) as Hr.
  assert (Hq : 0 <= m' / m2) by (apply Z.div_pos; lia).
  set (q := m' / m2) in *. set (r := m' mod m2) in *.
  assert (Hrem : m' - q * m2 = r) by lia.
  unfold located. split; [assumption |]. split; [assumption |]. split; [lia |].
  unfold new_location, new_location_even, new_location_odd.
  destruct (Z.even m2) eqn:Hev; destruct (r =? 0) eqn:Hr0; cbv iota;
    try (apply Z.eqb_eq in Hr0; lia); apply Z.eqb_neq in Hr0.
  - split; [lia |]. now rewrite Hrem.
  - split; [lia |]. rewrite Hrem.
    assert (Hodd : Z.odd m2 = true) by (rewrite <- Z.negb_even, Hev; reflexivity).
    apply Z.odd_spec in Hodd as [c Hc].
    destruct (Z.compare_spec (2 * r + 1) m2); compare_cases; lia.
Qed.

Lemma packed_nonneg mr er : 0 <= mr -> nonneg_number (packed false mr er).
Proof.
  intros H. unfold packed. destruct mr; [exact I | | lia].
  destruct (_ <=? _); exact I.
Qed.

Lemma SFdiv_pos_nonneg mx ex my ey :
  nonneg_number (SF64div (S754_finite false mx ex) (S754_finite false my ey)).
Proof.
  unfold SF64div, SFdiv.
  destruct (SFdiv_core_located (Z.pos mx) ex (Z.pos my) ey ltac:(lia) ltac:(lia))
    as (q & e' & l & s & -> & _ & _ & _ & Hloc).
  destruct (binary_round_aux_correct (xorb false false) q e' l _ _ Hloc)
    as (mr & k & -> & Hmr & _).
  now apply packed_nonneg.
Qed.

Lemma SFdiv_inf_finite my ey :
  SF64div (S754_infinity false) (S754_finite false my ey) = S754_infinity false.
Proof. reflexivity. Qed.

(** *** [Math.round] *)

(** [nearest_integer] is [floor (x + 1/2)]: [z - 1/2 <= x < z + 1/2], scaled
    by [2^(1-e)]. *)
Lemma nearest_integer_spec s m e :
  e < 0 ->
  let z := JS.nearest_integer s m e in
  2 ^ (- e) * (2 * z - 1) <= 2 * cond_Zopp s (Z.pos m) < 2 ^ (- e) * (2 * z + 1).
Proof.
  intros He z. subst z. unfold JS.nearest_integer.
  set (M := cond_Zopp s (Z.pos m)). set (P := 2 ^ (- e)).
  assert (HP : 0 < P) by (apply Z.pow_pos_nonneg; lia).
  replace (2 ^ (1 - e)) with (2 * P)
    by (unfold P; rewrite <- Z.pow_succ_r by lia; f_equal; lia).
  pose proof (Z.div_mod (2 * M + P) (2 * P) ltac:(lia)) as Hdm.
  pose proof (Z.mod_pos_bound (2 * M + P) (2 * P) ltac:(lia)) as Hr.
  set (q := (2 * M + P) / (2 * P)) in *. lia.
Qed.

Lemma nearest_integer_bound s m e :
  e < 0 -> Z.pos m < 2 ^ 53 -> - 2 ^ 52 <= JS.nearest_integer s m e <= 2 ^ 52.
Proof.
  intros He Hm. pose proof (nearest_integer_spec s m e He) as Hz. cbv zeta in Hz.
  set (z := JS.nearest_integer s m e) in *. set (P := 2 ^ (- e)) in *.
  assert (HP : 2 <= P).
  { unfold P. change 2 with (2 ^ 1) at 1. apply Z.pow_le_mono_r; lia. }
  assert (HM : - 2 ^ 53 < cond_Zopp s (Z.pos m) < 2 ^ 53) by (destruct s; cbn [cond_Zopp]; lia).
  set (M := cond_Zopp s (Z.pos m)) in *. change (2 ^ 53) with 9007199254740992 in *.
  change (2 ^ 52) with 4503599627370496. clearbody M P z. clear - Hz HP HM. nia.
Qed.

(** *** Relative error of a rounding to a normal number *)

Lemma packed_finite s mr er s' m' e' :
  packed s mr er = S754_finite s' m' e' -> s' = s /\ mr = Z.pos m' /\ e' = er.
Proof.
  unfold packed. destruct mr as [| p | p]; try discriminate.
  destruct (er <=? emax - prec); [| discriminate]. intros [= -> -> ->]. auto.
Qed.

(** When [binary_round_aux] returns a normal number (53 digits), the result
    is within [2^-53] of the located value, relative to the result. *)
Lemma round_normal_rel s m e l num den s' mr er :
  located m l num den ->
  binary_round_aux prec emax s m e l = S754_finite s' mr er ->
  Zdigits2 (Z.pos mr) = 53 ->
  exists k, 0 <= k /\ er = e + k /\ s' = s /\
    2 ^ 53 * Z.abs (Z.pos mr * 2 ^ k * den - num) <= Z.pos mr * 2 ^ k * den.
Proof.
  intros Hloc Hr Hd.
  destruct (binary_round_aux_correct s m e l num den Hloc) as (mr0 & k & Hp & _ & Hk & Hb & _).
  rewrite Hp in Hr. apply packed_finite in Hr as (-> & -> & ->).
  exists k. split; [lia |]. split; [reflexivity |]. split; [reflexivity |].
  assert (Hden : 0 < den) by (destruct Hloc as (_ & ? & _); assumption).
  assert (Hk0 : 0 <= k) by lia.
  assert (Hpk : 0 < 2 ^ k) by (apply Z.pow_pos_nonneg; lia).
  pose proof (Zdigits2_bounds (Z.pos mr) ltac:(lia)) as [Hlo _].
  rewrite Hd in Hlo. change (2 ^ (53 - 1)) with 4503599627370496 in Hlo.
  change (2 ^ 53) with 9007199254740992.
  assert (Hkd : 0 < 2 ^ k * den) by (apply Z.mul_pos_pos; assumption).
  replace (Z.pos mr * 2 ^ k * den) with (Z.pos mr * (2 ^ k * den)) in * by lia.
  set (U := 2 ^ k * den) in *.
  assert (HX : 4503599627370496 * U <= Z.pos mr * U) by (apply Z.mul_le_mono_nonneg_r; lia).
  clearbody U. clear - Hb HX Hkd. lia.
Qed.

(** Multiplication by one is exact. *)
Lemma SFmul_one x : valid_binary x = true -> SF64mul x SFone = x.
Proof.
  intros Hv. destruct x as [[|] | [|] | | s m e]; try reflexivity.
  destruct (valid_finite s m e Hv) as (Hc & Hmax & Hmin & Hd53).
  unfold SF64mul, SFone, SFmul. rewrite Pos2Z.inj_mul, xorb_false_r.
  change (Z.pos 4503599627370496) with (2 ^ 52).
  assert (Hdig : Zdigits2 (Z.pos m * 2 ^ 52) + (e + -52) = Zdigits2 (Z.pos m) + e).
  { rewrite Zdigits2_mul_pow by lia. lia. }
  assert (Hn : Z.max 0 (fexp64 (Zdigits2 (Z.pos m * 2 ^ 52) + (e + -52)) - (e + -52)) = 52)
    by (rewrite Hdig, Hc; lia).
  rewrite binary_round_aux_exact.
  - rewrite Hn, Z.div_mul by (apply Z.pow_nonzero; lia).
    replace (e + -52 + 52) with e by lia. unfold packed.
    replace (e <=? emax - prec) with true
      by (symmetry; apply Z.leb_le; change (emax - prec) with 971; lia).
    reflexivity.
  - apply Z.mul_nonneg_nonneg; [lia | apply Z.pow_nonneg; lia].
  - rewrite Hn. apply Z.mod_mul. apply Z.pow_nonzero; lia.
Qed.

(** Dividing by a positive number and multiplying back, when both results
    are normal numbers: the product is within [2^-51] of the dividend,
    relative to the dividend.  Both values are scaled to a common exponent
    [c]. *)
Lemma div_then_mul_close sG mG eG md ed ss ms es sp mp ep :
  SF64div (S754_finite sG mG eG) (S754_finite false md ed) = S754_finite ss ms es ->
  Zdigits2 (Z.pos ms) = 53 ->
  SF64mul (S754_finite ss ms es) (S754_finite false md ed) = S754_finite sp mp ep ->
  Zdigits2 (Z.pos mp) = 53 ->
  sp = sG /\
  exists c, c <= ep /\ c <= eG /\
    2 ^ 51 * Z.abs (Z.pos mp * 2 ^ (ep - c) - Z.pos mG * 2 ^ (eG - c))
    <= Z.pos mG * 2 ^ (eG - c).
Proof.
  intros Hdiv Hds Hmul Hdp. unfold SF64div, SFdiv in Hdiv.
  destruct (SFdiv_core_located (Z.pos mG) eG (Z.pos md) ed ltac:(lia) ltac:(lia))
    as (q & e' & l & sh & Hcore & Hsh & He' & _ & Hloc).
  rewrite Hcore in Hdiv.
  destruct (round_normal_rel _ _ _ _ _ _ _ _ _ Hloc Hdiv Hds) as (k1 & Hk1 & Hes & Hss & Hb1).
  unfold SF64mul, SFmul in Hmul.
  destruct (round_normal_rel _ _ _ _ _ _ _ _ _ (located_exact (Z.pos (ms * md)) ltac:(lia))
              Hmul Hdp) as (k2 & Hk2 & Hep & Hsp & Hb2).
  rewrite xorb_false_r in Hss, Hsp. split; [congruence |].
  exists (e' + ed). split; [lia |]. split; [lia |].
  replace (ep - (e' + ed)) with (k1 + k2) by lia.
  replace (eG - (e' + ed)) with sh by lia.
  rewrite Z.mul_1_r, Pos2Z.inj_mul in Hb2.
  assert (Hp1 : 0 < 2 ^ k1) by (apply Z.pow_pos_nonneg; lia).
  assert (Hb2' : 2 ^ 53 * Z.abs (Z.pos mp * 2 ^ (k1 + k2) - Z.pos ms * Z.pos md * 2 ^ k1)
                 <= Z.pos mp * 2 ^ (k1 + k2)).
  { rewrite Z.pow_add_r by lia.
    replace (Z.pos mp * (2 ^ k1 * 2 ^ k2) - Z.pos ms * Z.pos md * 2 ^ k1)
      with ((Z.pos mp * 2 ^ k2 - Z.pos ms * Z.pos md) * 2 ^ k1) by lia.
    rewrite Z.abs_mul, (Z.abs_eq (2 ^ k1)) by lia.
    replace (Z.pos mp * (2 ^ k1 * 2 ^ k2)) with (Z.pos mp * 2 ^ k2 * 2 ^ k1) by lia.
    rewrite Z.mul_assoc. apply Z.mul_le_mono_nonneg_r; [lia | assumption]. }
  replace (Z.pos ms * 2 ^ k1 * Z.pos md) with (Z.pos ms * Z.pos md * 2 ^ k1) in Hb1 by lia.
  set (P := Z.pos mp * 2 ^ (k1 + k2)) in *.
  set (A := Z.pos ms * Z.pos md * 2 ^ k1) in *.
  set (B := Z.pos mG * 2 ^ sh) in *.
  change (2 ^ 53) with 9007199254740992 in *. change (2 ^ 51) with 2251799813685248.
  clearbody P A B. clear - Hb1 Hb2'. lia.
Qed.
(** *** Exact values *)

Lemma Qpow2_pos e : (0 < 2 ^ e)%Q.
Proof. apply Qpower_0_lt. reflexivity. Qed.

(** The value of a finite number, with the mantissa scaled to the exponent [c]. *)
Lemma scaled_value s m e c :
  c <= e ->
  (inject_Z (cond_Zopp s (Z.pos m)) * 2 ^ e ==
   inject_Z (cond_Zopp s 1) * inject_Z (Z.pos m * 2 ^ (e - c)) * 2 ^ c)%Q.
Proof.
  intros Hc. replace e with ((e - c) + c) at 1 by lia.
  rewrite Qpower_plus by discriminate.
  rewrite inject_Z_mult, (Zpower_Qpower 2 (e - c)) by lia.
  change (inject_Z 2) with 2%Q.
  destruct s; cbn [cond_Zopp].
  - change (Z.neg m) with (- Z.pos m). rewrite inject_Z_opp.
    change (inject_Z (- (1))) with (- (1))%Q. ring.
  - change (inject_Z 1) with 1%Q. ring.
Qed.

(** A bound on mantissas at a common exponent is a bound on the values. *)
Lemma close_of_scaled s mp ep mG eG c :
  c <= ep -> c <= eG ->
  2 ^ 51 * Z.abs (Z.pos mp * 2 ^ (ep - c) - Z.pos mG * 2 ^ (eG - c)) <= Z.pos mG * 2 ^ (eG - c) ->
  (Qabs (inject_Z (cond_Zopp s (Z.pos mp)) * 2 ^ ep - inject_Z (cond_Zopp s (Z.pos mG)) * 2 ^ eG)
   <= (1 # 2251799813685248) * Qabs (inject_Z (cond_Zopp s (Z.pos mG)) * 2 ^ eG))%Q.
Proof.
  intros Hp HG Hb.
  rewrite (scaled_value s mp ep c Hp), (scaled_value s mG eG c HG).
  set (a := Z.pos mp * 2 ^ (ep - c)) in *. set (b := Z.pos mG * 2 ^ (eG - c)) in *.
  assert (Hb0 : 0 <= b) by (apply Z.mul_nonneg_nonneg; [lia | apply Z.pow_nonneg; lia]).
  assert (Hs : (Qabs (inject_Z (cond_Zopp s 1)) == 1)%Q) by (destruct s; reflexivity).
  assert (Ht : (Qabs (2 ^ c) == 2 ^ c)%Q) by (apply Qabs_pos, Qlt_le_weak, Qpow2_pos).
  setoid_replace (inject_Z (cond_Zopp s 1) * inject_Z a * 2 ^ c
                  - inject_Z (cond_Zopp s 1) * inject_Z b * 2 ^ c)%Q
    with (inject_Z (cond_Zopp s 1) * inject_Z (a - b) * 2 ^ c)%Q using relation Qeq
    by (unfold Z.sub; rewrite inject_Z_plus, inject_Z_opp; ring).
  rewrite !Qabs_Qmult, Hs, Ht.
  change (Qabs (inject_Z (a - b))) with (inject_Z (Z.abs (a - b))).
  change (Qabs (inject_Z b)) with (inject_Z (Z.abs b)). rewrite (Z.abs_eq b) by assumption.
  rewrite Zle_Qle, inject_Z_mult in Hb.
  change (inject_Z (2 ^ 51)) with (2251799813685248 # 1)%Q in Hb.
  pose proof (Qpow2_pos c) as Hc.
  set (t := (2 ^ c)%Q) in *. set (u := inject_Z (Z.abs (a - b))) in *. set (v := inject_Z b) in *.
  clearbody t u v. clear - Hb Hc.
  setoid_replace (1 * u * t)%Q with (u * t)%Q using relation Qeq by ring.
  setoid_replace ((1 # 2251799813685248) * (1 * v * t))%Q
    with ((1 # 2251799813685248) * v * t)%Q using relation Qeq by ring.
  apply Qmult_le_compat_r; [| apply Qlt_le_weak; assumption].
  lra.
Qed.

(** Every value is within the tolerance of itself. *)
Lemma close_refl (v : Q) : (Qabs (v - v) <= (1 # 2251799813685248) * Qabs v)%Q.
Proof.
  setoid_replace (v - v)%Q with 0%Q using relation Qeq by ring. change (Qabs 0) with 0%Q.
  apply Qmult_le_0_compat; [discriminate | apply Qabs_nonneg].
Qed.

End Rounding.

(** ** Primitive floats, through their specification *)

Module Float64.

Import Binary64 Rounding.
Local Open Scope float_scope.

Lemma Prim2SF_one : Prim2SF 1 = SFone.
Proof. reflexivity. Qed.

Lemma Prim2SF_zero : Prim2SF 0 = S754_zero false.
Proof. reflexivity. Qed.

Lemma div_one x : x / 1 = x.
Proof.
  apply Prim2SF_inj. rewrite FloatAxioms.div_spec, Prim2SF_one.
  apply SFdiv_one, Prim2SF_valid.
Qed.

(** A number above zero is a positive finite number or +infinity. *)
Lemma positive_cases x :
  (0 <? x) = true ->
  (exists m e, Prim2SF x = S754_finite false m e) \/ Prim2SF x = S754_infinity false.
Proof.
  rewrite FloatAxioms.ltb_spec, Prim2SF_zero. unfold SFltb.
  destruct (Prim2SF x) as [s | [|] | | [|] m e]; cbn; try discriminate; eauto.
Qed.

Lemma percent_nonneg R : (0 <? R) = true -> nonneg_number (Prim2SF (R / 100)).
Proof.
  intros H. rewrite FloatAxioms.div_spec.
  change (Prim2SF 100) with (S754_finite false 7036874417766400 (-46)).
  destruct (positive_cases R H) as [(m & e & ->) | ->].
  - apply SFdiv_pos_nonneg.
  - exact I.
Qed.

Lemma one_plus_nonneg y :
  nonneg_number (Prim2SF y) -> (1 <? 1 + y) = false -> 1 + y = 1.
Proof.
  intros Hy Hlt. apply Prim2SF_inj.
  rewrite FloatAxioms.ltb_spec, FloatAxioms.add_spec, Prim2SF_one in Hlt. rewrite FloatAxioms.add_spec, Prim2SF_one.
  now apply SFadd_one_nonneg.
Qed.

Lemma leb_not_ltb x y : (x <=? y) = true -> (y <? x) = false.
Proof. rewrite FloatAxioms.leb_spec, FloatAxioms.ltb_spec. apply SFleb_not_ltb. Qed.

Lemma eqb_not_ltb x y : (x =? y) = true -> (y <? x) = false.
Proof. rewrite FloatAxioms.eqb_spec, FloatAxioms.ltb_spec. apply SFeqb_not_ltb. Qed.

Lemma sub_diag x : JS.isFinite x = true -> x - x = 0.
Proof.
  intros H. apply Prim2SF_inj. rewrite FloatAxioms.sub_spec, Prim2SF_zero.
  apply SFsub_diag. unfold JS.isFinite in H.
  destruct (Prim2SF x); try discriminate; exact I.
Qed.

(** The conversion of an integer of magnitude below [2^53] is exact. *)
Lemma of_integer_value n :
  (- 2 ^ 53 < n < 2 ^ 53)%Z -> JS.integer_value (JS.of_integer n) = Some n.
Proof.
  intros Hn. unfold JS.integer_value, JS.of_integer.
  assert (Hconv : forall z, (0 <= z < 2 ^ 53)%Z -> Prim2SF (of_uint63 (Uint63.of_Z z)) = SFint z).
  { intros z Hz. rewrite FloatAxioms.of_uint63_spec, Uint63.of_Z_spec.
    rewrite Z.mod_small.
    - now apply binary_normalize_int.
    - change wB with (2 ^ 63)%Z. change (2 ^ 63)%Z with 9223372036854775808%Z.
      change (2 ^ 53)%Z with 9007199254740992%Z in Hz. lia. }
  destruct (Z.ltb_spec n 0) as [Hneg | Hpos].
  - rewrite FloatAxioms.opp_spec, Hconv by lia.
    rewrite integer_of_spec_opp_SFint by lia. f_equal. lia.
  - rewrite Hconv by lia. now apply integer_of_spec_SFint.
Qed.

(** [Math.round] of a finite number is the integer closest to it, the larger
    one on a tie. *)
Lemma Math_round_integer x :
  JS.isFinite x = true ->
  exists z, JS.integer_value (JS.Math_round x) = Some z /\ nearest_to x z.
Proof.
  unfold JS.isFinite, JS.Math_round, nearest_to. intros Hfin.
  pose proof (Prim2SF_valid x) as Hv.
  destruct (Prim2SF x) as [s | s | | s m e] eqn:Hx; try discriminate.
  - exists 0%Z. unfold JS.integer_value. rewrite Hx. split; reflexivity.
  - destruct (Z.leb_spec 0 e) as [He | He].
    + unfold JS.integer_value. rewrite Hx. cbn [JS.integer_of_spec].
      replace (0 <=? e)%Z with true by (symmetry; apply Z.leb_le; lia).
      eexists. split; reflexivity.
    + exists (JS.nearest_integer s m e). split; [| now apply nearest_integer_spec].
      destruct (valid_finite s m e Hv) as (_ & _ & _ & Hd).
      assert (Hm : (Z.pos m < 2 ^ 53)%Z).
      { pose proof (Zdigits2_bounds (Z.pos m) ltac:(lia)) as [_ Hhi].
        assert (2 ^ Zdigits2 (Z.pos m) <= 2 ^ 53)%Z by (apply Z.pow_le_mono_r; lia). lia. }
      pose proof (nearest_integer_bound s m e He Hm) as Hb.
      destruct (Z.eqb_spec (JS.nearest_integer s m e) 0) as [-> | Hne].
      * destruct s; reflexivity.
      * apply of_integer_value. change (2 ^ 53)%Z with 9007199254740992%Z.
        change (2 ^ 52)%Z with 4503599627370496%Z in Hb. lia.
Qed.

Lemma mul_one x : x * 1 = x.
Proof.
  apply Prim2SF_inj. rewrite FloatAxioms.mul_spec, Prim2SF_one.
  apply SFmul_one, Prim2SF_valid.
Qed.

(** A number above one is a positive finite number or +infinity. *)
Lemma above_one_cases d :
  (1 <? d) = true ->
  (exists m e, Prim2SF d = S754_finite false m e) \/ Prim2SF d = S754_infinity false.
Proof.
  rewrite FloatAxioms.ltb_spec, Prim2SF_one. unfold SFltb, SFone.
  destruct (Prim2SF d) as [s | [|] | | [|] m e]; cbn [SFcompare]; try discriminate; eauto.
Qed.

Lemma isNormal_spec x :
  isNormal x = true ->
  exists s m e, Prim2SF x = S754_finite s m e /\ Zdigits2 (Z.pos m) = 53%Z.
Proof.
  unfold isNormal. rewrite classify_spec. unfold SF64classify, SFclassify.
  destruct (Prim2SF x) as [[|] | [|] | | [|] m e]; try discriminate;
    destruct (Z.eqb_spec (Z.pos (digits2_pos m)) prec) as [Hd |]; try discriminate;
    intros _; do 3 eexists; (split; [reflexivity | exact Hd]).
Qed.

(** Dividing a normal quotient back: [G / d * d] is within the tolerance of [G]. *)
Lemma div_mul_within_tolerance (G d : float) :
  (1 <? d) = true ->
  isNormal (G / d) = true -> isNormal (G / d * d) = true ->
  within_tolerance (G / d * d) G.
Proof.
  intros Hd Hs Hp.
  destruct (isNormal_spec _ Hs) as (ss & ms & es & Hse & Hsd).
  destruct (isNormal_spec _ Hp) as (sp & mp & ep & Hpe & Hpd).
  rewrite FloatAxioms.mul_spec, Hse in Hpe. rewrite FloatAxioms.div_spec in Hse.
  unfold within_tolerance, exact_value.
  rewrite FloatAxioms.mul_spec, FloatAxioms.div_spec.
  destruct (above_one_cases d Hd) as [(md & ed & Hde) | Hde]; rewrite Hde in *.
  - destruct (Prim2SF G) as [sG | sG | | sG mG eG]; try (destruct sG; discriminate);
      try discriminate.
    rewrite Hse, Hpe. cbn [exact_of_spec].
    destruct (div_then_mul_close _ _ _ _ _ _ _ _ _ _ _ Hse Hsd Hpe Hpd)
      as (-> & c & Hc1 & Hc2 & Hb).
    now apply (close_of_scaled _ _ _ _ _ c).
  - destruct (Prim2SF G) as [sG | sG | | sG mG eG]; try (destruct sG; discriminate);
      discriminate.
Qed.

End Float64.

(** ** Binary64: signs of sums and products *)

Module Signs.

Import Binary64 Rounding Float64.
Local Open Scope Z_scope.

(** [binary_round] returns the sign it is given and a non-negative mantissa,
    which is not zero when the exponent is at least the least one of the
    format (no underflow). *)
Lemma binary_round_packed s mx ex :
  exists mr er,
    binary_round prec emax s mx ex = packed s mr er /\ 0 <= mr /\
    (-1074 <= ex -> 0 < mr).
Proof.
  unfold binary_round.
  pose proof (shl_align_spec mx ex (fexp64 (Z.pos (digits2_pos mx) + ex))) as [Hm He].
  destruct (shl_align mx ex (fexp64 (Z.pos (digits2_pos mx) + ex))) as [mz ez].
  cbn [fst snd] in Hm, He. cbv zeta in Hm, He.
  destruct (binary_round_aux_correct s (Z.pos mz) ez loc_Exact (Z.pos mz) 1
              (located_exact (Z.pos mz) ltac:(lia)))
    as (mr & k & Hp & Hmr & Hk & Hb & Hex).
  exists mr, (ez + k). split; [exact Hp |]. split; [exact Hmr |]. intros Hex0.
  cbv zeta in Hk, Hex.
  assert (Hf : -1074 <= fexp64 (Z.pos (digits2_pos mx) + ex)) by (rewrite fexp64_spec; lia).
  assert (Hez : -1074 <= ez) by lia.
  pose proof (Zdigits2_bounds (Z.pos mz) ltac:(lia)) as [Hlo _].
  pose proof (Zdigits2_pos (Z.pos mz) ltac:(lia)) as Hdz.
  rewrite fexp64_spec in Hk, Hex.
  set (dz := Zdigits2 (Z.pos mz)) in *.
  destruct (Z.le_gt_cases (dz + ez - 53) ez) as [Hsmall | Hbig].
  - replace (Z.max 0 (Z.max (dz + ez - 53) (-1074) - ez)) with 0 in Hex by lia.
    destruct (Hex eq_refl) as [-> _]; [apply Z.mod_1_r |].
    rewrite Z.pow_0_r, Z.div_1_r. lia.
  - replace (Z.max 0 (Z.max (dz + ez - 53) (-1074) - ez)) with (dz - 53) in Hk by lia.
    destruct (Z.eq_dec mr 0) as [-> | Hne]; [exfalso | lia].
    rewrite Z.mul_1_r in Hb. cbn [Z.mul] in Hb.
    assert (Hk1 : 2 ^ k <= 2 ^ (dz - 52)) by (apply Z.pow_le_mono_r; lia).
    assert (Hlt : 2 ^ (dz - 52) < 2 * 2 ^ (dz - 1)).
    { rewrite <- Z.pow_succ_r by lia. apply Z.pow_lt_mono_r; lia. }
    lia.
Qed.

Lemma packed_pos_not_zero s mr er s' : 0 < mr -> packed s mr er <> S754_zero s'.
Proof.
  unfold packed. destruct mr as [| p | p]; [lia | | lia].
  intros _. destruct (er <=? emax - prec); discriminate.
Qed.

(** A sum is negative zero only if its first term is. *)
Lemma SFadd_not_neg_zero x y :
  valid_binary x = true -> valid_binary y = true ->
  x <> S754_zero true -> SF64add x y <> S754_zero true.
Proof.
  intros Hx Hy Hnz. unfold SF64add, SFadd.
  destruct x as [[|] | sx | | sx mx ex]; [congruence | | | discriminate |].
  - destruct y as [[|] | sy | | sy my ey]; discriminate.
  - destruct y as [sy | [|] | | sy my ey]; destruct sx; discriminate.
  - destruct y as [sy | sy | | sy my ey]; try discriminate.
    destruct (valid_finite _ _ _ Hx) as (_ & _ & Hex & _).
    destruct (valid_finite _ _ _ Hy) as (_ & _ & Hey & _).
    cbv zeta. unfold binary_normalize.
    destruct (cond_Zopp sx _ + cond_Zopp sy _) as [| p | p]; [discriminate | |];
      destruct (binary_round_packed false p (Z.min ex ey)) as (mr & er & Hr & _ & Hpos);
      destruct (binary_round_packed true p (Z.min ex ey)) as (mr' & er' & Hr' & _ & Hpos').
    + rewrite Hr. apply packed_pos_not_zero. apply Hpos. lia.
    + rewrite Hr'. apply packed_pos_not_zero. apply Hpos'. lia.
Qed.

Lemma SFadd_nonneg x y :
  nonneg_number x -> nonneg_number y -> nonneg_number (SF64add x y).
Proof.
  unfold SF64add, SFadd.
  destruct x as [sx | [|] | | [|] mx ex]; cbn [nonneg_number]; try contradiction; intros _;
    destruct y as [sy | [|] | | [|] my ey]; cbn [nonneg_number]; try contradiction; intros _;
    try exact I.
  - destruct sx, sy; exact I.
  - cbv zeta. cbn [cond_Zopp]. unfold binary_normalize.
    destruct (Z.pos _ + Z.pos _) as [| p | p] eqn:Hsum; [exact I | | lia].
    destruct (binary_round_packed false p (Z.min ex ey)) as (mr & er & -> & Hmr & _).
    now apply packed_nonneg.
Qed.

Lemma SFmul_nonneg x y :
  nonneg_finite x -> nonneg_finite y -> nonneg_number (SF64mul x y).
Proof.
  unfold SF64mul, SFmul.
  destruct x as [sx | [|] | | [|] mx ex]; cbn [nonneg_finite]; try contradiction; intros _;
    destruct y as [sy | [|] | | [|] my ey]; cbn [nonneg_finite]; try contradiction; intros _;
    try exact I.
  cbn [xorb].
  destruct (binary_round_aux_correct false (Z.pos (mx * my)) (ex + ey) loc_Exact
              (Z.pos (mx * my)) 1 (located_exact (Z.pos (mx * my)) ltac:(lia)))
    as (mr & k & -> & Hmr & _).
  now apply packed_nonneg.
Qed.

End Signs.

(** ** Binary64: differences that need no rounding *)

Module ExactDifference.

Import Binary64 Rounding Float64.
Local Open Scope Z_scope.

Lemma cond_Zopp_mul s a : cond_Zopp s a = cond_Zopp s 1 * a.
Proof. destruct s; cbn [cond_Zopp]; lia. Qed.

Lemma value_signed s p e :
  (inject_Z (cond_Zopp s (Z.pos p)) * 2 ^ e
   == inject_Z (cond_Zopp s 1) * (inject_Z (Z.pos p) * 2 ^ e))%Q.
Proof. rewrite (cond_Zopp_mul s (Z.pos p)), inject_Z_mult. ring. Qed.

(** A mantissa below [2^53] at an exponent of the format is normalised
    without rounding. *)
Lemma binary_normalize_exact M e :
  Z.abs M < 2 ^ 53 -> -1074 <= e <= 971 ->
  exists v, exact_of_spec (binary_normalize prec emax M e false) = Some v /\
            (v == inject_Z M * 2 ^ e)%Q.
Proof.
  intros HM He.
  assert (Hround : forall s p, Z.pos p < 2 ^ 53 ->
            exists v, exact_of_spec (binary_round prec emax s p e) = Some v /\
                      (v == inject_Z (cond_Zopp s (Z.pos p)) * 2 ^ e)%Q).
  { intros s p Hp.
    pose proof (Zdigits2_le_53 (Z.pos p) ltac:(lia)) as Hd. cbn [Zdigits2] in Hd.
    set (f := fexp64 (Z.pos (digits2_pos p) + e)).
    assert (Hf : f <= e /\ -1074 <= f) by (subst f; rewrite fexp64_spec; lia).
    rewrite (binary_round_exact s p e (Z.pos p * 2 ^ (e - f))); fold f; [| reflexivity | lia].
    assert (Hpos : 0 < Z.pos p * 2 ^ (e - f))
      by (apply Z.mul_pos_pos; [lia | apply Z.pow_pos_nonneg; lia]).
    unfold packed. destruct (Z.pos p * 2 ^ (e - f)) as [| q | q] eqn:Hq; [lia | | lia].
    replace (f <=? emax - prec) with true
      by (symmetry; apply Z.leb_le; change (emax - prec) with 971; lia).
    eexists. split; [reflexivity |].
    rewrite (scaled_value s p e f) by lia. rewrite Hq.
    rewrite (cond_Zopp_mul s (Z.pos q)), inject_Z_mult. ring. }
  destruct M as [| p | p]; cbn [binary_normalize].
  - exists 0%Q. split; [reflexivity | ring].
  - apply (Hround false p). lia.
  - apply (Hround true p). lia.
Qed.

(** The difference of two finite numbers is computed without rounding when
    it fits 53 digits at the smaller of the two exponents. *)
Lemma SFsub_exact sx mx ex sy my ey :
  valid_binary (S754_finite sx mx ex) = true ->
  valid_binary (S754_finite sy my ey) = true ->
  let c := Z.min ex ey in
  Z.abs (cond_Zopp sx (Z.pos mx * 2 ^ (ex - c)) - cond_Zopp sy (Z.pos my * 2 ^ (ey - c)))
    < 2 ^ 53 ->
  exists v,
    exact_of_spec (SF64sub (S754_finite sx mx ex) (S754_finite sy my ey)) = Some v /\
    (v == inject_Z (cond_Zopp sx (Z.pos mx * 2 ^ (ex - c))
                    - cond_Zopp sy (Z.pos my * 2 ^ (ey - c))) * 2 ^ c)%Q /\
    (v == inject_Z (cond_Zopp sx (Z.pos mx)) * 2 ^ ex
          - inject_Z (cond_Zopp sy (Z.pos my)) * 2 ^ ey)%Q.
Proof.
  intros Hx Hy c HM.
  destruct (valid_finite _ _ _ Hx) as (_ & Hex1 & Hex2 & _).
  destruct (valid_finite _ _ _ Hy) as (_ & Hey1 & Hey2 & _).
  unfold SF64sub, SFsub. cbv zeta. fold c.
  pose proof (shl_align_spec mx ex c) as [Hax _].
  pose proof (shl_align_spec my ey c) as [Hay _]. cbv zeta in Hax, Hay.
  replace (Z.max 0 (ex - c)) with (ex - c) in Hax by lia.
  replace (Z.max 0 (ey - c)) with (ey - c) in Hay by lia.
  rewrite Hax, Hay.
  destruct (binary_normalize_exact _ c HM ltac:(lia)) as (v & Hv & Hval).
  exists v. split; [exact Hv |]. split; [exact Hval |]. rewrite Hval.
  rewrite (scaled_value sx mx ex c), (scaled_value sy my ey c) by lia.
  unfold Z.sub at 1. rewrite inject_Z_plus, inject_Z_opp.
  rewrite (cond_Zopp_mul sx (Z.pos mx * 2 ^ (ex - c))).
  rewrite (cond_Zopp_mul sy (Z.pos my * 2 ^ (ey - c))).
  rewrite !inject_Z_mult. ring.
Qed.

(** The exact value of a number that is an integer. *)
Lemma integer_exact x z :
  JS.integer_of_spec x = Some z ->
  exists v, exact_of_spec x = Some v /\ (v == inject_Z z)%Q.
Proof.
  destruct x as [s | s | | s m e]; cbn [JS.integer_of_spec exact_of_spec]; try discriminate.
  - intros [= <-]. exists 0%Q. split; reflexivity.
  - destruct (Z.leb_spec 0 e) as [He | He].
    + intros [= <-]. eexists. split; [reflexivity |].
      rewrite (cond_Zopp_mul s (Z.pos m)), (cond_Zopp_mul s (Z.pos m * 2 ^ e)).
      rewrite !inject_Z_mult, (Zpower_Qpower 2 e) by lia. change (inject_Z 2) with 2%Q. ring.
    + destruct (Z.eqb_spec (Z.pos m mod 2 ^ (- e)) 0) as [Hmod | _]; [| discriminate].
      intros [= <-]. eexists. split; [reflexivity |].
      assert (Hp : 0 < 2 ^ (- e)) by (apply Z.pow_pos_nonneg; lia).
      apply Z.div_exact in Hmod; [| lia].
      rewrite (cond_Zopp_mul s (Z.pos m)), (cond_Zopp_mul s (Z.pos m / 2 ^ (- e))).
      rewrite Hmod at 1. rewrite !inject_Z_mult, (Zpower_Qpower 2 (- e)) by lia.
      change (inject_Z 2) with 2%Q.
      assert (Hone : (2 ^ (- e) * 2 ^ e == 1)%Q).
      { rewrite <- Qpower_plus by discriminate. now replace (- e + e) with 0 by lia. }
      rewrite <- Qmult_assoc, <- (Qmult_assoc (2 ^ (- e))), (Qmult_comm (inject_Z _) (2 ^ e)).
      rewrite (Qmult_assoc (2 ^ (- e))), Hone. ring.
Qed.

(** An integer at a common exponent [c]. *)
Lemma integer_scaled s m e z c :
  JS.integer_of_spec (S754_finite s m e) = Some z -> c <= e -> c <= 0 ->
  cond_Zopp s (Z.pos m * 2 ^ (e - c)) = z * 2 ^ (- c) /\ (e < 0 -> z <> 0 /\ 2 ^ (- e) <= Z.pos m).
Proof.
  cbn [JS.integer_of_spec]. intros Hz Hc Hc0.
  destruct (Z.leb_spec 0 e) as [He | He].
  - injection Hz as <-. split; [| lia].
    replace (e - c) with (e + - c) by lia. rewrite Z.pow_add_r by lia.
    rewrite (cond_Zopp_mul s (Z.pos m * _)), (cond_Zopp_mul s (Z.pos m * 2 ^ e)). lia.
  - destruct (Z.eqb_spec (Z.pos m mod 2 ^ (- e)) 0) as [Hmod | _]; [| discriminate].
    injection Hz as <-.
    assert (Hp : 0 < 2 ^ (- e)) by (apply Z.pow_pos_nonneg; lia).
    apply Z.div_exact in Hmod; [| lia].
    set (q := Z.pos m / 2 ^ (- e)) in *.
    assert (Hq : 0 < q) by nia.
    split.
    + rewrite (cond_Zopp_mul s (Z.pos m * _)), (cond_Zopp_mul s q).
      rewrite Hmod. replace (- c) with (- e + (e - c)) by lia.
      rewrite Z.pow_add_r by lia. lia.
    + intros _. split; [destruct s; cbn [cond_Zopp]; lia | nia].
Qed.

End ExactDifference.

(* ===================================================================== *)
(** * Part III: properties of the model *)
(* ===================================================================== *)

(** ** The pricing computation: formulas *)

Module Calculator.

Import Binary64 Rounding Float64.
Local Open Scope float_scope.

Lemma grossTotal_is_reduce quote :
  grossTotal (QuotationForm.pricing quote) = grossTotal_of (Quotation.lineItems quote).
Proof. reflexivity. Qed.

(** The guard [taxDivisor > 1] selects the same value as [taxRate > 0]: when a
    positive rate is too small to move the divisor off one, dividing by the
    divisor changes nothing. *)
Lemma subtotal_by_rate (G R : float) :
  (let taxDivisor := 1 + (if 0 <? R then R / 100 else 0) in
   if 1 <? taxDivisor then G / taxDivisor else G)
  = (if 0 <? R then G / (1 + R / 100) else G).
Proof.
  cbv zeta. destruct (0 <? R) eqn:HR.
  - destruct (1 <? 1 + R / 100) eqn:Hd; [reflexivity |].
    rewrite (one_plus_nonneg _ (percent_nonneg R HR) Hd). symmetry. apply div_one.
  - reflexivity.
Qed.

(** C1 (amended).  For every quote, the calculator computes, in binary64
    arithmetic: the gross total as the sum of [quantity * unitAmount] over the
    line items; the subtotal as [grossTotal / (1 + R/100)] when [R > 0] and
    [grossTotal] otherwise; [totalTax = grossTotal - subtotal]; the grand
    total as [Math.round (grossTotal - D)], which is the integer closest to
    [grossTotal - D] whenever that is finite; and [roundOff = grandTotal - (grossTotal - D)].
    The discount is taken off the gross total and is not clamped: a grand
    total can be negative. *)
Theorem calculator_formulas (quote : Quotation.t) :
  let p := QuotationForm.pricing quote in
  let G := grossTotal p in
  let D := Quotation.discount quote in
  let R := Quotation.taxRate quote in
  G = fold_left (fun acc item => acc + LineItem.quantity item * LineItem.unitAmount item)
        (Quotation.lineItems quote) 0 /\
  subtotal p = (if 0 <? R then G / (1 + R / 100) else G) /\
  totalTax p = G - subtotal p /\
  grandTotal p = JS.Math_round (G - D) /\
  roundOff p = grandTotal p - (G - D) /\
  (JS.isFinite (G - D) = true ->
     JS.isInteger (grandTotal p) = true /\
     exists z, JS.integer_value (grandTotal p) = Some z /\ nearest_to (G - D) z) /\
  QuotationForm.totals quote = mkTotals (subtotal p) (totalTax p) (roundOff p) (grandTotal p) /\
  (exists q : Quotation.t,
     (0 <=? Quotation.discount q) = true /\ (0 <=? Quotation.taxRate q) = true /\
     (grandTotal (QuotationForm.pricing q) <? 0) = true).
Proof.
  intros p G D R.
  split; [reflexivity |]. split; [apply subtotal_by_rate |].
  split; [reflexivity |]. split; [reflexivity |]. split; [reflexivity |].
  split; [| split; [reflexivity |]].
  - intros Hfin. destruct (Math_round_integer (G - D) Hfin) as (z & Hz & Hnear).
    change (grandTotal p) with (JS.Math_round (G - D)). split; [| eauto].
    unfold JS.isInteger. now rewrite Hz.
  - exists (Examples.quote_of [Examples.item 1 100] 500 18). repeat split.
Qed.

(** Four tyres at 2499.50 less a discount of 250: the grand total is the
    integer 9748. *)
Lemma calculator_formulas_witness :
  let q := Examples.quote_of [Examples.item 4 2499.5] 250 28 in
  JS.isFinite (grossTotal (QuotationForm.pricing q) - Quotation.discount q) = true /\
  JS.isInteger (grandTotal (QuotationForm.pricing q)) = true /\
  JS.integer_value (grandTotal (QuotationForm.pricing q)) = Some 9748%Z.
Proof.
  split; [reflexivity |].
  pose proof (calculator_formulas (Examples.quote_of [Examples.item 4 2499.5] 250 28))
    as (_ & _ & _ & _ & _ & H & _).
  split; [exact (proj1 (H eq_refl)) | reflexivity].
Defined.

(** C1, without the finiteness condition: the two prices below are finite,
    their sum overflows, and the grand total is [Infinity], which is no
    integer. *)
Lemma grandTotal_not_integer_on_overflow :
  let q := Examples.huge_quote 18 in
  Forall (fun item => JS.isFinite (LineItem.quantity item) = true /\
                      JS.isFinite (LineItem.unitAmount item) = true)
    (Quotation.lineItems q) /\
  (0 <=? Quotation.discount q) = true /\ (0 <=? Quotation.taxRate q) = true /\
  grandTotal (QuotationForm.pricing q) = infinity /\
  JS.isInteger (grandTotal (QuotationForm.pricing q)) = false.
Proof. split; [repeat constructor | repeat split]. Qed.

End Calculator.

(** ** The pricing computation: backing the tax out *)

Module TaxBackout.

Import Binary64 Rounding Float64.
Local Open Scope float_scope.

Lemma subtotal_without_rate quote :
  (0 <? Quotation.taxRate quote) = false ->
  subtotal (QuotationForm.pricing quote) = grossTotal (QuotationForm.pricing quote).
Proof.
  intros HR. unfold QuotationForm.pricing. cbn [subtotal grossTotal]. rewrite HR. reflexivity.
Qed.

Lemma product_within_tolerance (G R : float) :
  (0 <? R) = true ->
  let s := if 1 <? 1 + R / 100 then G / (1 + R / 100) else G in
  isNormal s = true -> isNormal (s * (1 + R / 100)) = true ->
  within_tolerance (s * (1 + R / 100)) G.
Proof.
  intros HR s. subst s. destruct (1 <? 1 + R / 100) eqn:Hd.
  - now apply div_mul_within_tolerance.
  - rewrite (one_plus_nonneg _ (percent_nonneg R HR) Hd), mul_one. intros HG _.
    destruct (isNormal_spec _ HG) as (sG & mG & eG & HGe & _).
    unfold within_tolerance, exact_value. rewrite HGe. cbn [exact_of_spec].
    apply close_refl.
Qed.

(** A zero total stays zero through the division and the multiplication. *)
Lemma product_of_zero (G R : float) :
  (0 <? R) = true -> (G =? 0) = true -> JS.isFinite (1 + R / 100) = true ->
  let s := if 1 <? 1 + R / 100 then G / (1 + R / 100) else G in
  (s * (1 + R / 100) =? G) = true /\ within_tolerance (s * (1 + R / 100)) G.
Proof.
  intros HR HG Hfin s. subst s.
  assert (Hz : exists sG, Prim2SF G = S754_zero sG).
  { rewrite FloatAxioms.eqb_spec, Prim2SF_zero in HG. unfold SFeqb in HG.
    destruct (Prim2SF G) as [sG | [|] | | [|] m e]; try discriminate. now exists sG. }
  destruct Hz as [sG HG0].
  assert (Hzero : forall x sx, Prim2SF x = S754_zero sx ->
            (x =? G) = true /\ within_tolerance x G).
  { intros x sx Hx. unfold within_tolerance, exact_value.
    rewrite FloatAxioms.eqb_spec, Hx, HG0. split; [reflexivity |]. cbn. discriminate. }
  destruct (1 <? 1 + R / 100) eqn:Hd.
  - unfold JS.isFinite in Hfin.
    destruct (above_one_cases _ Hd) as [(m & e & Hde) | Hde]; rewrite Hde in Hfin;
      [| discriminate].
    apply (Hzero _ (xorb (xorb sG false) false)).
    rewrite FloatAxioms.mul_spec, FloatAxioms.div_spec, HG0, Hde. reflexivity.
  - rewrite (one_plus_nonneg _ (percent_nonneg R HR) Hd), mul_one. now apply (Hzero G sG).
Qed.

(** C5 (amended).  For every quote with gross total [G] and tax rate [R], in
    binary64 arithmetic.  If [R > 0] and neither the subtotal nor
    [subtotal * (1 + R/100)] has overflowed or underflowed (both are normal
    numbers), then [|subtotal * (1 + R/100) - G| <= 2^-51 * |G|]; if [R > 0],
    [G] is zero and the divisor [1 + R/100] is finite, then
    [subtotal * (1 + R/100) == G].  If [R == 0] then the subtotal is [G], and
    the total tax is zero when [G] is finite.  Whenever [R > 0] does not hold
    (so for every [R <= 0]) the subtotal is [G]. *)
Theorem tax_backed_out_for_positive_rate_only (quote : Quotation.t) :
  let p := QuotationForm.pricing quote in
  let G := grossTotal p in
  let R := Quotation.taxRate quote in
  ((0 <? R) = true ->
   (isNormal (subtotal p) = true -> isNormal (subtotal p * (1 + R / 100)) = true ->
    within_tolerance (subtotal p * (1 + R / 100)) G) /\
   ((G =? 0) = true -> JS.isFinite (1 + R / 100) = true ->
    (subtotal p * (1 + R / 100) =? G) = true /\
    within_tolerance (subtotal p * (1 + R / 100)) G)) /\
  ((R =? 0) = true ->
   subtotal p = G /\ (JS.isFinite G = true -> totalTax p = 0)) /\
  ((R <=? 0) = true -> subtotal p = G) /\
  ((0 <? R) = false -> subtotal p = G).
Proof.
  intros p G R. split; [| split; [| split]].
  - intros HR. subst p G. unfold QuotationForm.pricing. cbn [subtotal grossTotal].
    fold R. rewrite HR. split.
    + now apply product_within_tolerance.
    + now apply product_of_zero.
  - intros HR. apply eqb_not_ltb in HR.
    pose proof (subtotal_without_rate quote HR) as Hs. split; [exact Hs |].
    intros HG. change (totalTax p) with (G - subtotal p). fold p in Hs. rewrite Hs.
    now apply sub_diag.
  - intros HR. apply leb_not_ltb in HR. now apply subtotal_without_rate.
  - apply subtotal_without_rate.
Qed.

(** The bound holds on an 18 % quote of two tyres at 2600, where the product
    is not the gross total itself: it is [5200.000000000001]. *)
Lemma tax_backed_out_for_positive_rate_only_witness :
  let q := Examples.quote_of [Examples.item 2 2600] 0 18 in
  let p := QuotationForm.pricing q in
  (0 <? Quotation.taxRate q) = true /\
  isNormal (subtotal p) = true /\ isNormal (subtotal p * (1 + 18 / 100)) = true /\
  (subtotal p * (1 + 18 / 100) =? grossTotal p) = false /\
  within_tolerance (subtotal p * (1 + 18 / 100)) (grossTotal p).
Proof.
  intros q p. repeat (split; [reflexivity |]).
  exact (proj1 (proj1 (tax_backed_out_for_positive_rate_only
                         (Examples.quote_of [Examples.item 2 2600] 0 18)) eq_refl)
           eq_refl eq_refl).
Defined.

(** C5, without the conditions of the amended statement.  Each of the four
    quotes below has finite prices and quantities.

    - A zero rate and a sum that overflows: the gross total is [Infinity] and
      the total tax is [Infinity - Infinity], which is [NaN] and not zero.
    - A rate of 900 % on the smallest normal number: the subtotal underflows
      (it is subnormal), and the product is four units in the last place
      above the total, twice the tolerance.
    - A rate of 50 % on the largest finite number: the subtotal is a normal
      number, and the product overflows to [Infinity].
    - A zero total with the rate [Infinity]: the divisor is [Infinity], the
      subtotal is zero, and the product is [0 * Infinity], which is [NaN]. *)
Lemma tax_backout_fails_out_of_range :
  let overflow := Examples.huge_quote 0 in
  let tiny := Examples.quote_of [Examples.item 1 2.2250738585072014e-308] 0 900 in
  let largest := Examples.quote_of [Examples.item 1 1.7976931348623157e308] 0 50 in
  let nothing := Examples.quote_of [Examples.item 1 0] 0 infinity in
  let product q :=
    subtotal (QuotationForm.pricing q) * (1 + Quotation.taxRate q / 100) in
  let priced q :=
    Forall (fun item => JS.isFinite (LineItem.quantity item) = true /\
                        JS.isFinite (LineItem.unitAmount item) = true)
      (Quotation.lineItems q) in
  (priced overflow /\
   (Quotation.taxRate overflow =? 0) = true /\
   grossTotal (QuotationForm.pricing overflow) = infinity /\
   totalTax (QuotationForm.pricing overflow) = nan /\
   (totalTax (QuotationForm.pricing overflow) =? 0) = false) /\
  (priced tiny /\
   (0 <? Quotation.taxRate tiny) = true /\
   grossTotal (QuotationForm.pricing tiny) = 2.2250738585072014e-308 /\
   isNormal (grossTotal (QuotationForm.pricing tiny)) = true /\
   subtotal (QuotationForm.pricing tiny) = 2.225073858507203e-309 /\
   isNormal (subtotal (QuotationForm.pricing tiny)) = false /\
   product tiny = 2.2250738585072034e-308 /\
   ~ within_tolerance (product tiny) (grossTotal (QuotationForm.pricing tiny))) /\
  (priced largest /\
   (0 <? Quotation.taxRate largest) = true /\
   grossTotal (QuotationForm.pricing largest) = 1.7976931348623157e308 /\
   subtotal (QuotationForm.pricing largest) = 1.1984620899082105e308 /\
   isNormal (subtotal (QuotationForm.pricing largest)) = true /\
   product largest = infinity /\
   ~ within_tolerance (product largest) (grossTotal (QuotationForm.pricing largest))) /\
  (priced nothing /\
   (0 <? Quotation.taxRate nothing) = true /\
   grossTotal (QuotationForm.pricing nothing) = 0 /\
   subtotal (QuotationForm.pricing nothing) = 0 /\
   product nothing = nan /\
   (product nothing =? grossTotal (QuotationForm.pricing nothing)) = false).
Proof.
  intros overflow tiny largest nothing product priced.
  split; [| split; [| split]].
  - split; [repeat constructor | repeat split].
  - split; [repeat constructor |]. repeat (split; [reflexivity |]).
    unfold within_tolerance. vm_compute. intros H. now apply H.
  - split; [repeat constructor |]. repeat (split; [reflexivity |]).
    unfold within_tolerance. vm_compute. auto.
  - split; [repeat constructor | repeat split].
Qed.

End TaxBackout.

(** ** The pricing computation: the three copies *)

Module Pricing.

(** C6.  The computation is a function of the line items, the discount and
    the tax rate alone, and its three copies agree: the preview computes the
    same seven values as the edit form, bit for bit, and the quote card the
    same grand total. *)
Theorem pricing_copies_agree (quote : Quotation.t) :
  QuotationPreview.pricing quote = QuotationForm.pricing quote /\
  QuoteCard.grandTotal quote = grandTotal (QuotationForm.pricing quote) /\
  QuotationForm.totals quote =
    mkTotals (subtotal (QuotationPreview.pricing quote))
             (totalTax (QuotationPreview.pricing quote))
             (roundOff (QuotationPreview.pricing quote))
             (QuoteCard.grandTotal quote) /\
  (forall quote' : Quotation.t,
     Quotation.lineItems quote' = Quotation.lineItems quote ->
     Quotation.discount quote' = Quotation.discount quote ->
     Quotation.taxRate quote' = Quotation.taxRate quote ->
     QuotationForm.pricing quote' = QuotationForm.pricing quote /\
     QuotationPreview.pricing quote' = QuotationPreview.pricing quote /\
     QuoteCard.pricing quote' = QuoteCard.pricing quote).
Proof.
  split; [reflexivity |]. split; [reflexivity |]. split; [reflexivity |].
  intros quote' Hl Hd Ht.
  unfold QuotationForm.pricing, QuotationPreview.pricing, QuoteCard.pricing.
  rewrite Hl, Hd, Ht. auto.
Qed.

End Pricing.

(** ** The gross total and the order of the line items *)

Module GrossTotal.

Import Binary64 Rounding Float64.
Local Open Scope Z_scope.

Lemma grossTotal_of_nil : grossTotal_of [] = 0%float.
Proof. reflexivity. Qed.

(** The sum is accumulated from left to right. *)
Lemma grossTotal_of_snoc items item :
  grossTotal_of (items ++ [item]) =
  (grossTotal_of items + LineItem.quantity item * LineItem.unitAmount item)%float.
Proof. unfold grossTotal_of. now rewrite fold_left_app. Qed.

(** A non-negative integer value of a finite number is positive, and the
    number is. *)
Lemma integer_of_spec_finite_pos s m e z :
  JS.integer_of_spec (S754_finite s m e) = Some z -> 0 <= z -> 0 < z /\ s = false.
Proof.
  cbn [JS.integer_of_spec]. intros Hi Hz.
  destruct (Z.leb_spec 0 e) as [He | He].
  - injection Hi as <-.
    assert (0 < Z.pos m * 2 ^ e) by (apply Z.mul_pos_pos; [lia | apply Z.pow_pos_nonneg; lia]).
    destruct s; cbn [cond_Zopp] in *; [lia | auto].
  - destruct (Z.eqb_spec (Z.pos m mod 2 ^ (- e)) 0) as [Hmod | Hmod]; [| discriminate].
    injection Hi as <-.
    assert (Hp : 0 < 2 ^ (- e)) by (apply Z.pow_pos_nonneg; lia).
    assert (Hm : Z.pos m = Z.pos m / 2 ^ (- e) * 2 ^ (- e)) by (apply Z.div_exact in Hmod; lia).
    assert (0 < Z.pos m / 2 ^ (- e)) by nia.
    destruct s; cbn [cond_Zopp] in *; [lia | auto].
Qed.

(** What a non-negative whole number looks like in binary64. *)
Lemma whole_number_cases x z :
  JS.integer_value x = Some z -> 0 <= z ->
  (z = 0 /\ exists s, Prim2SF x = S754_zero s) \/
  (0 < z /\ exists m e, Prim2SF x = S754_finite false m e /\
                        (z < 2 ^ 53 -> S754_finite false m e = SFint z)).
Proof.
  unfold JS.integer_value. intros Hi Hz. pose proof (Prim2SF_valid x) as Hv.
  destruct (Prim2SF x) as [s | s | | s m e]; try discriminate.
  - left. injection Hi as <-. eauto.
  - right. destruct (integer_of_spec_finite_pos s m e z Hi Hz) as [Hpos ->].
    split; [assumption |]. exists m, e. split; [reflexivity |].
    intros Hlt. now apply (integer_of_spec_canonical false m e z Hv Hi).
Qed.

(** The product of a whole quantity and a whole unit amount is exact when it
    is below [2^53]: it is the product, or a zero of either sign. *)
Lemma whole_amount_exact item a :
  whole_amount item = Some a -> a < 2 ^ 53 ->
  0 <= a /\
  (Prim2SF (LineItem.quantity item * LineItem.unitAmount item) = SFint a \/
   (a = 0 /\ exists s,
      Prim2SF (LineItem.quantity item * LineItem.unitAmount item) = S754_zero s)).
Proof.
  unfold whole_amount. intros Ha Hlt.
  destruct (JS.integer_value (LineItem.quantity item)) as [q |] eqn:Hq; [| discriminate].
  destruct (JS.integer_value (LineItem.unitAmount item)) as [u |] eqn:Hu; [| discriminate].
  destruct (Z.leb_spec 0 q) as [Hq0 | ?]; [| discriminate].
  destruct (Z.leb_spec 0 u) as [Hu0 | ?]; [| discriminate].
  cbn [andb] in Ha. injection Ha as <-. split; [nia |].
  rewrite FloatAxioms.mul_spec.
  destruct (whole_number_cases _ q Hq Hq0) as [[-> [sq ->]] | (Hqp & mq & eq & -> & Hcq)];
    destruct (whole_number_cases _ u Hu Hu0) as [[-> [su ->]] | (Hup & mu & eu & -> & Hcu)].
  - right. split; [reflexivity | eexists; reflexivity].
  - right. split; [reflexivity | eexists; reflexivity].
  - right. split; [lia | eexists; reflexivity].
  - left. rewrite Hcq by nia. rewrite Hcu by nia. apply SFint_mul; nia.
Qed.

Lemma whole_total_nonneg items t : whole_total items = Some t -> 0 <= t.
Proof.
  revert t. induction items as [| item rest IH]; cbn [whole_total]; intros t Ht.
  - injection Ht as <-. lia.
  - destruct (whole_amount item) as [a |] eqn:Ha; [| discriminate].
    destruct (whole_total rest) as [t' |]; [| discriminate]. injection Ht as <-.
    specialize (IH t' eq_refl). unfold whole_amount in Ha.
    destruct (JS.integer_value _) as [q |]; [| discriminate].
    destruct (JS.integer_value _) as [u |]; [| discriminate].
    destruct (Z.leb_spec 0 q); [| discriminate]. destruct (Z.leb_spec 0 u); [| discriminate].
    cbn [andb] in Ha. injection Ha as <-. nia.
Qed.

Lemma SFint_add_zero A s : 0 <= A < 2 ^ 53 -> SF64add (SFint A) (S754_zero s) = SFint A.
Proof.
  intros HA. destruct (Z.eq_dec A 0) as [-> | Hne].
  - destruct s; reflexivity.
  - rewrite SFint_pos by lia. reflexivity.
Qed.

(** Accumulating whole amounts is exact while the running total stays below
    [2^53]. *)
Lemma fold_whole_exact items : forall acc A t,
  Prim2SF acc = SFint A -> 0 <= A ->
  whole_total items = Some t -> A + t < 2 ^ 53 ->
  Prim2SF (fold_left
             (fun acc item => (acc + LineItem.quantity item * LineItem.unitAmount item)%float)
             items acc) = SFint (A + t).
Proof.
  induction items as [| item rest IH]; cbn [whole_total fold_left]; intros acc A t Hacc HA Ht Hlt.
  - injection Ht as <-. now rewrite Z.add_0_r.
  - destruct (whole_amount item) as [a |] eqn:Ha; [| discriminate].
    destruct (whole_total rest) as [t' |] eqn:Ht'; [| discriminate]. injection Ht as <-.
    pose proof (whole_total_nonneg rest t' Ht') as Ht0.
    assert (Ha53 : a < 2 ^ 53).
    { unfold whole_amount in Ha.
      destruct (JS.integer_value _); [| discriminate].
      destruct (JS.integer_value _); [| discriminate].
      destruct (Z.leb_spec 0 z); [| discriminate]. destruct (Z.leb_spec 0 z0); [| discriminate].
      cbn [andb] in Ha. injection Ha as <-. lia. }
    destruct (whole_amount_exact item a Ha Ha53) as [Ha0 Hprod].
    replace (A + (a + t')) with (A + a + t') by lia.
    apply IH; [| lia | reflexivity | lia].
    rewrite FloatAxioms.add_spec, Hacc.
    destruct Hprod as [-> | [-> [s ->]]].
    + apply SFint_add; lia.
    + rewrite Z.add_0_r. apply SFint_add_zero. lia.
Qed.

Lemma whole_total_perm items items' :
  Permutation items items' -> whole_total items = whole_total items'.
Proof.
  induction 1 as [| x l l' _ IH | x y l | l l' l'' _ IH1 _ IH2]; cbn [whole_total].
  - reflexivity.
  - now rewrite IH.
  - destruct (whole_amount x), (whole_amount y), (whole_total l); try reflexivity.
    f_equal. lia.
  - congruence.
Qed.

(** C7 (amended).  The gross total is the binary64 sum, accumulated from
    zero in list order, of [quantity * unitAmount].  When every quantity and
    unit amount is a non-negative whole number and the exact total is below
    [2^53], no addition rounds: the gross total is the exact total, and it is
    the same for every permutation of the line items. *)
Theorem grossTotal_order_independent_when_exact (quote quote' : Quotation.t) (total : Z) :
  whole_total (Quotation.lineItems quote) = Some total ->
  total < 2 ^ 53 ->
  Permutation (Quotation.lineItems quote) (Quotation.lineItems quote') ->
  JS.integer_value (grossTotal (QuotationForm.pricing quote)) = Some total /\
  grossTotal (QuotationForm.pricing quote') = grossTotal (QuotationForm.pricing quote) /\
  grossTotal_of [] = 0%float /\
  (forall items item,
     grossTotal_of (items ++ [item]) =
     (grossTotal_of items + LineItem.quantity item * LineItem.unitAmount item)%float).
Proof.
  intros Ht Hlt Hperm.
  pose proof (whole_total_nonneg _ _ Ht) as H0.
  assert (Hexact : forall q, whole_total (Quotation.lineItems q) = Some total ->
                     Prim2SF (grossTotal (QuotationForm.pricing q)) = SFint total).
  { intros q Hq. change (grossTotal (QuotationForm.pricing q))
      with (grossTotal_of (Quotation.lineItems q)). unfold grossTotal_of.
    rewrite (fold_whole_exact _ 0%float 0 total); [reflexivity | reflexivity | lia | assumption | lia]. }
  split; [| split; [| split; [reflexivity | apply grossTotal_of_snoc]]].
  - unfold JS.integer_value. rewrite (Hexact quote Ht). apply integer_of_spec_SFint. lia.
  - apply Prim2SF_inj. rewrite (Hexact quote Ht).
    apply Hexact. rewrite <- (whole_total_perm _ _ Hperm). assumption.
Qed.

(** Two tyres at 100 and three at 250 come to 950 in either order. *)
Lemma grossTotal_order_independent_when_exact_witness :
  let q := Examples.quote_of [Examples.item 2 100; Examples.item 3 250] 0 18 in
  let q' := Examples.quote_of [Examples.item 3 250; Examples.item 2 100] 0 18 in
  whole_total (Quotation.lineItems q) = Some 950 /\
  950 < 2 ^ 53 /\
  JS.integer_value (grossTotal (QuotationForm.pricing q)) = Some 950 /\
  grossTotal (QuotationForm.pricing q') = grossTotal (QuotationForm.pricing q).
Proof.
  split; [reflexivity |]. split; [reflexivity |].
  pose proof (grossTotal_order_independent_when_exact
                (Examples.quote_of [Examples.item 2 100; Examples.item 3 250] 0 18)
                (Examples.quote_of [Examples.item 3 250; Examples.item 2 100] 0 18)
                950 eq_refl eq_refl (perm_swap _ _ [])) as (H1 & H2 & _).
  split; [exact H1 | exact H2].
Defined.

(** C7, without the exactness condition: the same three unit prices of 0.1,
    0.2 and 0.3 add up to different gross totals in two orders. *)
Lemma grossTotal_depends_on_order :
  Permutation Examples.three_items Examples.three_items_reversed /\
  Forall (fun item => (0 <=? LineItem.quantity item)%float = true /\
                      (0 <=? LineItem.unitAmount item)%float = true) Examples.three_items /\
  grossTotal (QuotationForm.pricing (Examples.quote_of Examples.three_items 0 0))
  <> grossTotal (QuotationForm.pricing (Examples.quote_of Examples.three_items_reversed 0 0)).
Proof.
  split; [| split].
  - exact (Permutation_rev Examples.three_items).
  - repeat constructor.
  - intros H. apply (f_equal Prim2SF) in H. vm_compute in H. discriminate.
Qed.

End GrossTotal.

(** ** The quote-number generator *)

Module QuoteNumber.

Local Open Scope N_scope.

(** *** Strings *)

Lemma app_cons c s t : String.append (String c s) t = String c (String.append s t).
Proof. reflexivity. Qed.

Lemma app_assoc s t u :
  String.append (String.append s t) u = String.append s (String.append t u).
Proof. induction s as [| c s IH]; [reflexivity |]. rewrite !app_cons, IH. reflexivity. Qed.

Lemma app_length s t :
  String.length (String.append s t) = (String.length s + String.length t)%nat.
Proof. induction s as [| c s IH]; [reflexivity |]. rewrite app_cons. cbn. now rewrite IH. Qed.

Lemma substring_all s : String.substring 0 (String.length s) s = s.
Proof. induction s as [| c s IH]; [reflexivity |]. cbn. now rewrite IH. Qed.

Lemma substring_skip s t n :
  String.substring (String.length s) n (String.append s t) = String.substring 0 n t.
Proof. induction s as [| c s IH]; [reflexivity |]. rewrite app_cons. cbn. exact IH. Qed.

(** [slice(-k)] keeps a suffix of [k] characters. *)
Lemma slice_suffix s t :
  t <> EmptyString ->
  JS.slice (String.append s t) (- Z.of_nat (String.length t)) = t.
Proof.
  intros Ht. unfold JS.slice. rewrite app_length.
  destruct (String.length t) as [| k] eqn:Hk; [destruct t; [congruence | discriminate] |].
  replace (- Z.of_nat (S k) <? 0)%Z with true by (symmetry; apply Z.ltb_lt; lia).
  rewrite Z.max_l by lia.
  replace (Z.to_nat (_ + _)) with (String.length s) by lia.
  replace (Z.to_nat (_ - _)) with (String.length t) by lia.
  rewrite substring_skip, substring_all. reflexivity.
Qed.

Lemma startsWith_iff s p : JS.startsWith s p = true <-> exists rest, s = String.append p rest.
Proof.
  unfold JS.startsWith. revert s. induction p as [| c p IH]; intros s.
  - cbn. split; [exists s; reflexivity | destruct s; reflexivity].
  - destruct s as [| d s]; cbn.
    + split; [discriminate | intros [rest H]; discriminate].
    + destruct (Ascii.ascii_dec c d) as [-> | Hne].
      * rewrite IH. split; intros [rest H]; exists rest.
        -- rewrite app_cons. now f_equal.
        -- rewrite app_cons in H. now injection H.
      * split; [discriminate |]. intros [rest H]. rewrite app_cons in H. congruence.
Qed.

(** *** Decimal digits *)

Lemma digits_of_acc fuel : forall n acc,
  JS.digits_of fuel n acc = String.append (JS.digits_of fuel n EmptyString) acc.
Proof.
  induction fuel as [| f IH]; intros n acc; cbn; [reflexivity |].
  destruct (n / 10 =? 0); [reflexivity |].
  rewrite IH. rewrite (IH _ (String _ EmptyString)).
  rewrite app_assoc. reflexivity.
Qed.

Lemma digits_of_fuel f1 : forall f2 n acc,
  n < 10 ^ N.of_nat (S f1) -> n < 10 ^ N.of_nat (S f2) ->
  JS.digits_of (S f1) n acc = JS.digits_of (S f2) n acc.
Proof.
  induction f1 as [| f1 IH]; intros f2 n acc H1 H2.
  - cbn in H1. cbn. assert (n / 10 = 0) as -> by (apply N.div_small; lia). reflexivity.
  - cbn [JS.digits_of]. destruct (N.eqb_spec (n / 10) 0) as [| Hne]; [reflexivity |].
    assert (Hdiv : forall k, n < 10 ^ N.of_nat (S k) -> n / 10 < 10 ^ N.of_nat k).
    { intros k Hk. apply N.Div0.div_lt_upper_bound.
      rewrite Nat2N.inj_succ, N.pow_succ_r' in Hk. exact Hk. }
    destruct f2 as [| f2].
    + cbn in H2. assert (n / 10 = 0) by (apply N.div_small; lia). contradiction.
    + apply IH; apply Hdiv; assumption.
Qed.

Lemma lt_pow10_log2 n : n < 10 ^ N.of_nat (S (N.to_nat (N.log2 n))).
Proof.
  rewrite Nat2N.inj_succ, N2Nat.id.
  destruct (N.eq_dec n 0) as [-> | Hn]; [reflexivity |].
  apply N.lt_le_trans with (2 ^ N.succ (N.log2 n)).
  - apply N.log2_spec. lia.
  - apply N.pow_le_mono_l. lia.
Qed.

Lemma toString_small n : n < 10 -> JS.toString n = String (JS.digit n) EmptyString.
Proof.
  intros H. unfold JS.toString. cbn [JS.digits_of].
  rewrite N.div_small, N.mod_small by assumption. reflexivity.
Qed.

Lemma toString_step n :
  10 <= n ->
  JS.toString n = String.append (JS.toString (n / 10)) (String (JS.digit (n mod 10)) EmptyString).
Proof.
  intros H. unfold JS.toString at 1. cbn [JS.digits_of].
  destruct (N.eqb_spec (n / 10) 0) as [H0 | _].
  - apply N.div_small_iff in H0; lia.
  - rewrite digits_of_acc. f_equal.
    pose proof (lt_pow10_log2 n) as Hn. pose proof (lt_pow10_log2 (n / 10)) as Hd.
    assert (Hdiv : n / 10 < 10 ^ N.of_nat (N.to_nat (N.log2 n))).
    { apply N.Div0.div_lt_upper_bound.
      rewrite Nat2N.inj_succ, N.pow_succ_r' in Hn. exact Hn. }
    destruct (N.to_nat (N.log2 n)) as [| f] eqn:Hf.
    + cbn in Hdiv. assert (1 <= n / 10) by (apply N.div_le_lower_bound; lia). lia.
    + unfold JS.toString. apply digits_of_fuel; assumption.
Qed.

Lemma cycle_zeros k : JS.cycle k "0" "0" = decimal k 0.
Proof.
  assert (H : forall k, JS.cycle k "0" EmptyString = JS.cycle k "0" "0"
                        /\ JS.cycle k "0" "0" = decimal k 0).
  { clear k. induction k as [| k [IH1 IH2]]; [split; reflexivity |].
    split; [cbn; now rewrite IH1 |].
    cbn [JS.cycle]. rewrite IH1, IH2. clear.
    induction k as [| k IH]; [reflexivity |].
    cbn [decimal]. change (0 / 10) with 0. change (0 mod 10) with 0.
    rewrite <- app_cons. rewrite IH. reflexivity. }
  apply H.
Qed.

Lemma padStart_snoc s c k :
  JS.padStart (String.append s (String c EmptyString)) (S k) "0" =
  String.append (JS.padStart s k "0") (String c EmptyString).
Proof.
  unfold JS.padStart. rewrite app_length. cbn [String.length].
  replace (String.length s + 1)%nat with (S (String.length s)) by lia.
  cbn [Nat.leb Nat.sub].
  destruct (k <=? String.length s)%nat; [reflexivity |].
  rewrite app_assoc. reflexivity.
Qed.

(** Padding the decimal digits of [n] to [k] places gives its [k]-digit
    decimal numeral. *)
Lemma padStart_decimal k : forall n,
  n < 10 ^ N.of_nat (S k) ->
  JS.padStart (JS.toString n) (S k) "0" = decimal (S k) n.
Proof.
  induction k as [| k IH]; intros n Hn.
  - cbn in Hn. rewrite toString_small by assumption.
    unfold JS.padStart. cbn [String.length Nat.leb decimal].
    rewrite N.mod_small by assumption. reflexivity.
  - destruct (N.lt_ge_cases n 10) as [Hs | Hb].
    + rewrite toString_small by assumption.
      unfold JS.padStart. cbn [String.length Nat.leb Nat.sub].
      rewrite cycle_zeros. cbn [decimal].
      rewrite (N.div_small n 10), (N.mod_small n 10) by assumption.
      change (0 / 10) with 0. change (0 mod 10) with 0. reflexivity.
    + rewrite toString_step by assumption. rewrite padStart_snoc.
      rewrite IH; [reflexivity |].
      apply N.Div0.div_lt_upper_bound.
      rewrite Nat2N.inj_succ, N.pow_succ_r' in Hn. exact Hn.
Qed.

Lemma last_two_digits n :
  (n mod 100) / 10 mod 10 = (n / 10) mod 10 /\ (n mod 100) mod 10 = n mod 10.
Proof.
  change 100 with (10 * 10). rewrite N.Div0.mod_mul_r.
  rewrite (N.mul_comm 10 ((n / 10) mod 10)).
  rewrite N.div_add, N.Div0.mod_add, N.Div0.mod_mod by lia.
  rewrite (N.div_small (n mod 10) 10) by (apply N.mod_lt; lia).
  rewrite N.add_0_l, N.Div0.mod_mod. split; reflexivity.
Qed.

(** The last two characters of the digits of [n] are its last two digits. *)
Lemma slice_last_two n : 10 <= n -> JS.slice (JS.toString n) (-2) = decimal 2 (n mod 100).
Proof.
  intros H. rewrite toString_step by assumption.
  assert (Hd : exists s, JS.toString (n / 10) =
                 String.append s (String (JS.digit ((n / 10) mod 10)) EmptyString)).
  { destruct (N.lt_ge_cases (n / 10) 10) as [Hs | Hb].
    - exists EmptyString. rewrite toString_small, N.mod_small by assumption. reflexivity.
    - eexists. apply toString_step. assumption. }
  destruct Hd as [s ->]. rewrite app_assoc.
  change (-2)%Z with (- Z.of_nat (String.length
     (String.append (String (JS.digit ((n / 10) mod 10)) EmptyString)
                    (String (JS.digit (n mod 10)) EmptyString))))%Z.
  rewrite slice_suffix by discriminate. cbn [decimal].
  change (String.append EmptyString ?x) with x.
  destruct (last_two_digits n) as [-> ->]. reflexivity.
Qed.

(** C2.  The generator builds the prefix [QT-DDMMYY] from the date (day,
    month and the last two digits of the year, two decimal digits each),
    counts the existing quotes whose quote number starts with that prefix,
    and returns [QT-DDMMYY-NNNN] where [NNNN] is the count plus one,
    zero-padded to four digits: [0001] when no quote number has the prefix,
    [0002] when exactly one has. *)
Theorem generateQuoteNumber_format (existingQuotes : list Quotation.t) (date : JSDate) :
  let prefix := datePrefix date in
  let count :=
    length (List.filter (fun q => JS.startsWith (Quotation.quoteNumber q) prefix)
              existingQuotes) in
  let serial := N.of_nat count + 1 in
  let number := generateQuoteNumber existingQuotes date in
  number = String.append prefix (String.append "-" (JS.padStart (JS.toString serial) 4 "0")) /\
  (valid_date date ->
     prefix = String.append "QT-"
                (String.append (decimal 2 (getDate date))
                   (String.append (decimal 2 (getMonth date + 1))
                      (decimal 2 (getFullYear date mod 100))))) /\
  (serial < 10000 -> JS.padStart (JS.toString serial) 4 "0" = decimal 4 serial) /\
  ((forall q, q ∈ existingQuotes ->
      ~ exists rest, Quotation.quoteNumber q = String.append prefix rest) ->
     number = String.append prefix "-0001") /\
  (count = 1%nat -> number = String.append prefix "-0002").
Proof.
  intros prefix count serial number.
  split; [reflexivity |]. split; [| split; [| split]].
  - intros ((Hd1 & Hd2) & Hm & Hy). subst prefix. unfold datePrefix.
    rewrite (padStart_decimal 1) by (cbn; lia).
    rewrite (padStart_decimal 1) by (cbn; lia).
    rewrite slice_last_two by assumption. reflexivity.
  - intros Hs. apply (padStart_decimal 3). exact Hs.
  - intros Hnone. assert (Hc : count = 0%nat).
    { subst count. clear -Hnone. induction existingQuotes as [| q l IH]; [reflexivity |].
      cbn. destruct (JS.startsWith (Quotation.quoteNumber q) prefix) eqn:Hq.
      - exfalso. apply (Hnone q); [constructor |]. now apply startsWith_iff.
      - apply IH. intros q' Hq'. apply Hnone. now constructor. }
    subst number. unfold generateQuoteNumber. fold prefix. fold count. rewrite Hc. reflexivity.
  - intros Hc. subst number. unfold generateQuoteNumber. fold prefix. fold count.
    rewrite Hc. reflexivity.
Qed.

(** The first quote of the second of November 2026, and the next one. *)
Lemma generateQuoteNumber_format_witness :
  generateQuoteNumber [] Examples.a_date = "QT-021126-0001" /\
  generateQuoteNumber
    [Quotation.mk "a" "QT-021126-0001" EmptyString EmptyString EmptyString EmptyString
       EmptyString EmptyString EmptyString EmptyString [] 0 0 EmptyString Draft]
    Examples.a_date = "QT-021126-0002".
Proof.
  split.
  - pose proof (generateQuoteNumber_format [] Examples.a_date) as (_ & _ & _ & H & _).
    rewrite H; [reflexivity |]. intros q Hq. inversion Hq.
  - pose proof (generateQuoteNumber_format
                  [Quotation.mk "a" "QT-021126-0001" EmptyString EmptyString EmptyString
                     EmptyString EmptyString EmptyString EmptyString EmptyString [] 0 0
                     EmptyString Draft]
                  Examples.a_date) as (_ & _ & _ & _ & H).
    rewrite H; reflexivity.
Defined.

End QuoteNumber.

(** ** Session gate: start-up *)

Module GateStartup.
Section WithJSON.

Variable JSON_parse_quotes : string -> option (list Quotation.t).
Variable JSON_parse_details : string -> option CompanyDetails.partial.

Abbreviation loadQuotes := (App.loadQuotes JSON_parse_quotes).
Abbreviation loadDetails := (App.loadDetails JSON_parse_details).
Abbreviation useEffect_try := (App.useEffect_try JSON_parse_quotes JSON_parse_details).
Abbreviation useEffect := (App.useEffect JSON_parse_quotes JSON_parse_details).
Abbreviation load_fails := (App.load_fails JSON_parse_quotes JSON_parse_details).

Lemma truthy_nonempty text : text <> EmptyString -> JS.truthy (Some text) = true.
Proof. intros H. destruct text; [congruence | reflexivity]. Qed.

(** Loading the quotes touches neither store. *)
Lemma loadQuotes_stores w r w' :
  loadQuotes w = (r, w') ->
  localStorage w' = localStorage w /\ sessionStorage w' = sessionStorage w.
Proof.
  unfold App.loadQuotes, bind, getItem, the_store.
  destruct (denied (localStorage w)); [intros [= <- <-]; auto |].
  destruct (items (localStorage w) !! "tyreQuotes") as [t |]; [| intros [= <- <-]; auto].
  destruct (JS.truthy (Some t)); [| intros [= <- <-]; auto].
  unfold App.parse. destruct (JSON_parse_quotes t); cbn; intros [= <- <-]; auto.
Qed.

Lemma loadQuotes_throws w :
  denied (localStorage w) = true \/ App.unparseable JSON_parse_quotes "tyreQuotes" w ->
  exists w1, loadQuotes w = (Thrown, w1).
Proof.
  unfold App.loadQuotes, bind, getItem, the_store.
  intros [-> | (text & -> & Hne & Hp)]; [eauto |].
  destruct (denied (localStorage w)); [eauto |].
  rewrite (truthy_nonempty _ Hne). unfold App.parse. rewrite Hp. cbn. eauto.
Qed.

(** Loading the details changes nothing: it only computes the record. *)
Lemma loadDetails_world w r w' : loadDetails w = (r, w') -> w' = w.
Proof.
  unfold App.loadDetails, bind, getItem, the_store, ret.
  destruct (denied (localStorage w)); [congruence |].
  destruct (items (localStorage w) !! "companyDetails") as [t |]; [| congruence].
  destruct (JS.truthy (Some t)); [| congruence].
  unfold App.parse, ret, throw. destruct (JSON_parse_details t); congruence.
Qed.

Lemma loadDetails_throws w :
  denied (localStorage w) = true \/ App.unparseable JSON_parse_details "companyDetails" w ->
  exists w1, loadDetails w = (Thrown, w1).
Proof.
  unfold App.loadDetails, bind, getItem, the_store.
  intros [-> | (text & -> & Hne & Hp)]; [eauto |].
  destruct (denied (localStorage w)); [eauto |].
  rewrite (truthy_nonempty _ Hne). unfold App.parse. rewrite Hp. cbn. eauto.
Qed.

(** The authentication logic, when it completes. *)
Lemma authenticate_returns details w w' :
  App.authenticate details w = (Returned tt, w') ->
  companyDetails (app w') = companyDetails (app w) /\
  isAuthenticated (app w') =
    (if JS.truthy (CompanyDetails.password details)
     then match items (sessionStorage w) !! "isAuthenticated" with
          | Some v => String.eqb v "true"
          | None => false
          end
     else true).
Proof.
  unfold App.authenticate.
  destruct (JS.truthy (CompanyDetails.password details)); cbn.
  - unfold bind, getItem, the_store.
    destruct (denied (sessionStorage w)); [discriminate |].
    destruct (items (sessionStorage w) !! "isAuthenticated") as [v |].
    + destruct (String.eqb v "true"); intros [= <-]; auto.
    + intros [= <-]; auto.
  - intros [= <-]; auto.
Qed.

Lemma useEffect_try_returns w w1 :
  useEffect_try w = (Returned tt, w1) ->
  isAuthenticated (app w1) =
    (if JS.truthy (CompanyDetails.password (companyDetails (app w1)))
     then match items (sessionStorage w) !! "isAuthenticated" with
          | Some v => String.eqb v "true"
          | None => false
          end
     else true).
Proof.
  unfold App.useEffect_try, bind at 1.
  destruct (loadQuotes w) as [[[] |] wq] eqn:Hq; [| discriminate].
  apply loadQuotes_stores in Hq as [_ Hss].
  unfold bind at 1.
  destruct (loadDetails wq) as [[details |] wd] eqn:Hd; [| discriminate].
  apply loadDetails_world in Hd as ->.
  unfold bind at 1. cbn. intros H.
  apply authenticate_returns in H as [Hc Ha]. cbn in Hc, Ha.
  rewrite Hc, Ha, Hss. reflexivity.
Qed.

(** Whatever the [try] block did before it threw, the [catch] and [finally]
    blocks fix the four cells below. *)
Lemma useEffect_after_throw w w1 :
  useEffect_try w = (Thrown, w1) ->
  let a := app (snd (useEffect w)) in
  quotes a = [] /\ companyDetails a = defaultCompanyDetails /\
  isAuthenticated a = true /\ isAppReady a = true.
Proof.
  intros H. unfold App.useEffect, try_catch_finally, try_catch.
  rewrite H. cbn. auto.
Qed.

Lemma load_fails_throws w : load_fails w -> exists w1, useEffect_try w = (Thrown, w1).
Proof.
  intros H. unfold App.useEffect_try, bind at 1.
  destruct (loadQuotes w) as [[[] |] wq] eqn:Hq; [| eauto].
  apply loadQuotes_stores in Hq as Hst. destruct Hst as [Hls _].
  unfold bind at 1.
  destruct (loadDetails_throws wq) as [w1 ->]; [| eauto].
  destruct H as [Hd | [Hu | (text & Ht & Hne & Hp)]].
  - left. congruence.
  - destruct (loadQuotes_throws w (or_intror Hu)) as [w2 Hw2]. congruence.
  - right. exists text. rewrite Hls. auto.
Qed.

(** C10.  If reading or parsing the persisted data throws during start-up,
    the app falls back to the empty quote collection and the default company
    details and sets the authentication state to [true]: the session gate
    starts unlocked, whatever the unreadable record held (a password
    included), and the app is marked ready. *)
Theorem startup_fails_open (w : World) :
  load_fails w ->
  let a := app (snd (useEffect w)) in
  quotes a = [] /\ companyDetails a = defaultCompanyDetails /\
  isAuthenticated a = true /\ isAppReady a = true.
Proof.
  intros H. destruct (load_fails_throws w H) as [w1 Hw1].
  exact (useEffect_after_throw w w1 Hw1).
Qed.

Lemma loadQuotes_returns w :
  denied (localStorage w) = false -> App.quotes_parse JSON_parse_quotes w ->
  exists wq, loadQuotes w = (Returned tt, wq) /\
             localStorage wq = localStorage w /\ sessionStorage wq = sessionStorage w.
Proof.
  intros Hd Hq.
  assert (H : exists wq, loadQuotes w = (Returned tt, wq)).
  { unfold App.loadQuotes, bind, getItem, the_store. rewrite Hd.
    destruct (items (localStorage w) !! "tyreQuotes") as [text |] eqn:Ht; [| eexists; reflexivity].
    destruct text as [| c text]; [eexists; reflexivity |].
    cbn [JS.truthy String.eqb negb]. unfold App.parse.
    destruct (JSON_parse_quotes (String c text)) as [qs |] eqn:Hp.
    - eexists. reflexivity.
    - now destruct (Hq _ Ht). }
  destruct H as [wq H]. exists wq. split; [exact H |]. now apply (loadQuotes_stores w _ _ H).
Qed.

Lemma loadDetails_returns w details :
  denied (localStorage w) = false -> App.stored_details JSON_parse_details w details ->
  loadDetails w = (Returned details, w).
Proof.
  intros Hd. unfold App.stored_details, App.loadDetails, bind, getItem, the_store. rewrite Hd.
  destruct (items (localStorage w) !! "companyDetails") as [text |]; [| now intros ->].
  destruct text as [| c text]; [now intros -> |].
  cbn [JS.truthy String.eqb negb]. intros (parsed & Hp & ->).
  unfold App.parse. rewrite Hp. reflexivity.
Qed.

(** The [try] block up to the authentication logic, when the local store can
    be read and what it holds parses. *)
Lemma useEffect_try_loaded w details :
  denied (localStorage w) = false -> App.quotes_parse JSON_parse_quotes w ->
  App.stored_details JSON_parse_details w details ->
  exists w2, useEffect_try w = App.authenticate details w2 /\
             companyDetails (app w2) = details /\ sessionStorage w2 = sessionStorage w.
Proof.
  intros Hd Hq Hs.
  destruct (loadQuotes_returns w Hd Hq) as (wq & Hload & Hls & Hss).
  assert (Hdet : loadDetails wq = (Returned details, wq)).
  { apply loadDetails_returns; [congruence |].
    unfold App.stored_details in *. now rewrite Hls. }
  eexists. split.
  - unfold App.useEffect_try, bind at 1. rewrite Hload.
    unfold bind at 1. rewrite Hdet. unfold bind at 1. cbn. reflexivity.
  - split; [reflexivity | exact Hss].
Qed.

Lemma no_password_falsy details :
  App.no_password details -> JS.truthy (CompanyDetails.password details) = false.
Proof. now intros [-> | ->]. Qed.

Lemma password_configured_truthy details :
  App.password_configured details -> JS.truthy (CompanyDetails.password details) = true.
Proof. intros (secret & -> & Hne). now apply truthy_nonempty. Qed.

(** C4 (amended).  At start-up, when the local store can be read and what it
    holds parses, let [details] be the company details it gives.  If they
    configure no password, the gate starts unlocked, whatever the session
    store holds and whether it can be read or not.  If they configure a
    password and the session store can be read, the gate starts unlocked
    exactly when the session marker is present, and locked otherwise.  If
    they configure a password and the session store cannot be read, the gate
    starts unlocked and the loaded details are replaced by the defaults.  In
    every case the app is marked ready. *)
Theorem startup_gate_state (w : World) (details : CompanyDetails.t) :
  denied (localStorage w) = false ->
  App.quotes_parse JSON_parse_quotes w ->
  App.stored_details JSON_parse_details w details ->
  let a := app (snd (useEffect w)) in
  (App.no_password details ->
   isAuthenticated a = true /\ companyDetails a = details) /\
  (App.password_configured details -> denied (sessionStorage w) = false ->
   (isAuthenticated a = true <-> App.marker_present w) /\
   (isAuthenticated a = false <-> ~ App.marker_present w) /\
   companyDetails a = details) /\
  (App.password_configured details -> denied (sessionStorage w) = true ->
   isAuthenticated a = true /\ companyDetails a = defaultCompanyDetails) /\
  isAppReady a = true.
Proof.
  intros Hd Hq Hs.
  destruct (useEffect_try_loaded w details Hd Hq Hs) as (w2 & Htry & Hc & Hss).
  unfold App.useEffect, try_catch_finally, try_catch. rewrite Htry.
  unfold App.authenticate. cbv zeta.
  split; [| split; [| split]].
  - intros Hno. rewrite (no_password_falsy _ Hno). cbn. auto.
  - intros Hpw Hsd. rewrite (password_configured_truthy _ Hpw). cbn.
    unfold bind, getItem, the_store. rewrite Hss, Hsd. unfold App.marker_present.
    destruct (items (sessionStorage w) !! "isAuthenticated") as [v |]; cbn.
    + destruct (String.eqb_spec v "true") as [-> | Hne]; cbn.
      * repeat split; auto; try discriminate. intros H. now destruct H.
      * repeat split; auto; try discriminate; congruence.
    + repeat split; auto; discriminate.
  - intros Hpw Hsd. rewrite (password_configured_truthy _ Hpw). cbn.
    unfold bind, getItem, the_store. rewrite Hss, Hsd. cbn. auto.
  - destruct (JS.truthy (CompanyDetails.password details)); cbn; [| reflexivity].
    unfold bind, getItem, the_store.
    destruct (denied (sessionStorage w2)); cbn; [reflexivity |].
    destruct (items (sessionStorage w2) !! "isAuthenticated") as [v |]; cbn;
      [destruct (String.eqb v "true") |]; reflexivity.
Qed.

End WithJSON.
End GateStartup.

Module GateStartupExamples.

(** A stored record that configures the password [abc], a session store
    that can be read and holds no marker: the gate starts locked. *)
Lemma startup_gate_state_witness :
  let pq := fun _ : string => Some ([] : list Quotation.t) in
  let pd := fun _ : string => Some Examples.with_password in
  denied (localStorage Examples.locked_world) = false /\
  App.quotes_parse pq Examples.locked_world /\
  App.stored_details pd Examples.locked_world Examples.abc_details /\
  App.password_configured Examples.abc_details /\
  denied (sessionStorage Examples.locked_world) = false /\
  ~ App.marker_present Examples.locked_world /\
  isAuthenticated (app (snd (App.useEffect pq pd Examples.locked_world))) = false.
Proof.
  intros pq pd.
  assert (Hq : App.quotes_parse pq Examples.locked_world) by (intros text _ _; discriminate).
  assert (Hs : App.stored_details pd Examples.locked_world Examples.abc_details)
    by (exists Examples.with_password; split; reflexivity).
  assert (Hp : App.password_configured Examples.abc_details)
    by (exists "abc"; split; [reflexivity | discriminate]).
  assert (Hm : ~ App.marker_present Examples.locked_world) by (intros H; discriminate H).
  repeat (split; [first [reflexivity | assumption] |]).
  pose proof (GateStartup.startup_gate_state pq pd Examples.locked_world Examples.abc_details
                eq_refl Hq Hs) as (_ & H & _).
  destruct (H Hp eq_refl) as (_ & Hlocked & _). now apply Hlocked.
Defined.

(** C4, without the condition on the session store: the stored record
    configures the password [abc] and parses, the session store holds no
    marker and cannot be read ([getItem] throws), and the gate starts
    unlocked. *)
Lemma unlocked_with_password_and_no_marker :
  let pq := fun _ : string => Some ([] : list Quotation.t) in
  let pd := fun _ : string => Some Examples.with_password in
  let w := Examples.unreadable_session_world in
  App.loadDetails pd w = (Returned Examples.abc_details, w) /\
  CompanyDetails.password Examples.abc_details = Some "abc" /\
  items (sessionStorage w) !! "isAuthenticated" = None /\
  denied (sessionStorage w) = true /\
  isAuthenticated (app (snd (App.useEffect pq pd w))) = true /\
  isAuthenticated (app (snd (App.mount pq pd w))) = true.
Proof. repeat split. Qed.

(** A stored record that does not parse: the gate starts unlocked. *)
Lemma startup_fails_open_witness :
  let pq := fun _ : string => Some ([] : list Quotation.t) in
  let pd := fun _ : string => (None : option CompanyDetails.partial) in
  App.load_fails pq pd Examples.locked_world /\
  isAuthenticated (app (snd (App.useEffect pq pd Examples.locked_world))) = true.
Proof.
  assert (H : App.load_fails (fun _ => Some []) (fun _ => None) Examples.locked_world).
  { right; right. exists "{...}". repeat split; [discriminate]. }
  split; [exact H |].
  exact (proj1 (proj2 (proj2
    (GateStartup.startup_fails_open (fun _ => Some []) (fun _ => None) Examples.locked_world H)))).
Defined.

End GateStartupExamples.

(** ** Session gate: submitting a password *)

Module GateLogin.

Lemma handleLoginSuccess_ok w :
  App.marker_writable w ->
  exists w', App.handleLoginSuccess w = (Returned tt, w') /\
             isAuthenticated (app w') = true /\ App.marker_present w'.
Proof.
  intros [Hd Ha]. unfold App.handleLoginSuccess, bind, setItem, the_store.
  rewrite Hd, Ha. cbn. eexists. split; [reflexivity |]. split; [reflexivity |].
  unfold App.marker_present. cbn. apply lookup_insert_eq.
Qed.

Lemma strict_equal_iff input secret :
  LoginScreen.strict_equal input (Some secret) = true <-> input = secret.
Proof. apply String.eqb_eq. Qed.



End GateLogin.

(** ** The quote store: save and delete *)

Module QuoteStore.
Section WithJSON.

Variable JSON_stringify_quotes : list Quotation.t -> string.

Abbreviation saveQuotesToLocalStorage := (App.saveQuotesToLocalStorage JSON_stringify_quotes).
Abbreviation handleSaveQuote := (App.handleSaveQuote JSON_stringify_quotes).
Abbreviation handleDeleteQuote := (App.handleDeleteQuote JSON_stringify_quotes).

Lemma saveQuotesToLocalStorage_ok w qs :
  App.persistable JSON_stringify_quotes w qs ->
  saveQuotesToLocalStorage qs w =
    (Returned tt,
     mkWorld
       (mkApp (view (app w)) qs (selectedQuote (app w)) (isSettingsOpen (app w))
          (companyDetails (app w)) (isAuthenticated (app w)) (isAppReady (app w)))
       (mkStorage (<["tyreQuotes" := JSON_stringify_quotes qs]> (items (localStorage w)))
          (denied (localStorage w)) (accepts (localStorage w)))
       (sessionStorage w)).
Proof.
  intros [Hd Ha].
  unfold App.saveQuotesToLocalStorage, try_catch, bind, setItem, the_store, with_items.
  rewrite Hd, Ha. reflexivity.
Qed.

Lemma findIndex_none {A} (p : A -> bool) l :
  (forall x, x ∈ l -> p x = false) -> findIndex p l = (-1)%Z.
Proof.
  induction l as [| x l IH]; intros H; [reflexivity |]. cbn.
  rewrite (H x) by constructor.
  rewrite IH by (intros y Hy; apply H; now constructor). reflexivity.
Qed.

Lemma findIndex_ge {A} (p : A -> bool) l : (-1 <= findIndex p l)%Z.
Proof.
  induction l as [| x l IH]; cbn; [lia |].
  destruct (p x); [lia |]. destruct (Z.ltb_spec (findIndex p l) 0); lia.
Qed.

(** [findIndex] returns the first index of a satisfying element. *)
Lemma findIndex_first {A} (p : A -> bool) l :
  (exists x, x ∈ l /\ p x = true) ->
  exists i x, findIndex p l = Z.of_nat i /\ l !! i = Some x /\ p x = true /\
              forall j y, (j < i)%nat -> l !! j = Some y -> p y = false.
Proof.
  induction l as [| a l IH]; intros (x & Hx & Hp).
  - inversion Hx.
  - cbn. destruct (p a) eqn:Ha.
    + exists 0%nat, a. repeat split; auto. intros j y Hj. lia.
    + assert (Hl : exists x, x ∈ l /\ p x = true).
      { inversion Hx; subst; [congruence | eauto]. }
      destruct (IH Hl) as (i & y & Hi & Hy & Hpy & Hbefore).
      exists (S i), y. rewrite Hi.
      destruct (Z.ltb_spec (Z.of_nat i) 0); [lia |].
      repeat split; auto; [lia |].
      intros [| j] z Hj Hz; cbn in Hz; [congruence |].
      apply (Hbefore j z); [lia | assumption].
Qed.

(** C8.  Saving a quote whose identifier occurs in the collection replaces
    the first record with that identifier in place: the length and every other
    position are unchanged.  Saving a quote whose identifier does not occur
    appends it at the end, and then exactly one record of the collection has
    that identifier: the quote itself, with all its field values.  When the
    store takes the write, that collection is the one persisted and kept in
    memory. *)
Theorem save_replaces_or_appends (quotes0 : list Quotation.t) (quote : Quotation.t) :
  let same := fun q => String.eqb (Quotation.id q) (Quotation.id quote) in
  let updated := App.updatedQuotes_on_save quotes0 quote in
  ((exists q, q ∈ quotes0 /\ same q = true) ->
     exists i old,
       quotes0 !! i = Some old /\ same old = true /\
       (forall j q, (j < i)%nat -> quotes0 !! j = Some q -> same q = false) /\
       updated !! i = Some quote /\
       (forall j, j <> i -> updated !! j = quotes0 !! j) /\
       length updated = length quotes0) /\
  ((forall q, q ∈ quotes0 -> same q = false) ->
     updated = quotes0 ++ [quote] /\ List.filter same updated = [quote]) /\
  (forall w, quotes (app w) = quotes0 -> App.persistable JSON_stringify_quotes w updated ->
     let w' := snd (handleSaveQuote quote w) in
     quotes (app w') = updated /\
     items (localStorage w') !! "tyreQuotes" = Some (JSON_stringify_quotes updated)).
Proof.
  intros same updated. split; [| split].
  - intros Hex. destruct (findIndex_first same quotes0 Hex) as (i & old & Hi & Hold & Hs & Hb).
    exists i, old. subst updated. unfold App.updatedQuotes_on_save.
    fold same. rewrite Hi. destruct (Z.ltb_spec (-1) (Z.of_nat i)); [| lia].
    rewrite Nat2Z.id.
    repeat split; auto.
    + apply list_lookup_insert_eq. eapply lookup_lt_Some; eauto.
    + intros j Hj. apply list_lookup_insert_ne. congruence.
    + apply length_insert.
  - intros Hno. subst updated. unfold App.updatedQuotes_on_save. fold same.
    rewrite (findIndex_none same quotes0 Hno). cbn. split; [reflexivity |].
    rewrite List.filter_app. cbn.
    assert (Hq : same quote = true) by (unfold same; apply String.eqb_refl).
    rewrite Hq.
    assert (Hnil : List.filter same quotes0 = []).
    { clear -Hno. induction quotes0 as [| a l IH]; [reflexivity |]. cbn.
      rewrite (Hno a) by constructor. apply IH. intros q Hq. apply Hno. now constructor. }
    rewrite Hnil. reflexivity.
  - intros w Hw Hp. unfold App.handleSaveQuote. rewrite Hw. fold updated.
    unfold bind. rewrite (saveQuotesToLocalStorage_ok w updated Hp).
    split; [reflexivity | apply lookup_insert_eq].
Qed.

Lemma filter_sublist {A} (p : A -> bool) (l : list A) : sublist (List.filter p l) l.
Proof.
  induction l as [| a l IH]; cbn; [constructor |].
  destruct (p a); [now apply sublist_skip | now apply sublist_cons].
Qed.

Lemma filter_split_length {A} (p : A -> bool) (l : list A) :
  (length (List.filter (fun x => negb (p x)) l) + length (List.filter p l) = length l)%nat.
Proof.
  induction l as [| a l IH]; cbn; [reflexivity |].
  destruct (p a); cbn; lia.
Qed.

(** With unique identifiers, exactly one record has a given identifier that
    occurs. *)
Lemma unique_id_once (l : list Quotation.t) (id : string) :
  List.NoDup (map Quotation.id l) -> id ∈ map Quotation.id l ->
  length (List.filter (fun q => String.eqb (Quotation.id q) id) l) = 1%nat.
Proof.
  induction l as [| a l IH]; cbn; intros Hnd Hin; [inversion Hin |].
  apply List.NoDup_cons_iff in Hnd as [Hnotin Hnd].
  destruct (String.eqb_spec (Quotation.id a) id) as [Heq | Hne].
  - cbn. f_equal.
    assert (Hnone : forall q, q ∈ l -> String.eqb (Quotation.id q) id = false).
    { intros q Hq. apply String.eqb_neq. intros Hc. apply Hnotin.
      rewrite Heq, <- Hc. apply List.in_map. now apply list_elem_of_In. }
    clear -Hnone. induction l as [| b l IH]; [reflexivity |]. cbn.
    rewrite (Hnone b) by constructor. apply IH. intros q Hq. apply Hnone. now constructor.
  - apply IH; [assumption |]. inversion Hin; subst; [congruence | assumption].
Qed.

(** C9.  Deleting by a quote identifier, once confirmed, removes exactly the
    records with that identifier: the result keeps every record with another
    identifier and no record with the given one, in the original order (it
    is a sub-list of the collection, shorter by the number of records with
    that identifier); when identifiers are unique and the identifier is that
    of a record, exactly one record is removed.  Without confirmation nothing
    changes. *)
Theorem delete_removes_exactly (quotes0 : list Quotation.t) (id : string) :
  let updated := App.updatedQuotes_on_delete quotes0 id in
  (forall q, q ∈ updated <-> q ∈ quotes0 /\ Quotation.id q <> id) /\
  sublist updated quotes0 /\
  (length updated
     + length (List.filter (fun q => String.eqb (Quotation.id q) id) quotes0)
   = length quotes0)%nat /\
  (List.NoDup (map Quotation.id quotes0) -> id ∈ map Quotation.id quotes0 ->
     (length updated + 1 = length quotes0)%nat) /\
  (forall w, handleDeleteQuote false id w = (Returned tt, w)) /\
  (forall w, quotes (app w) = quotes0 -> App.persistable JSON_stringify_quotes w updated ->
     quotes (app (snd (handleDeleteQuote true id w))) = updated).
Proof.
  intros updated. subst updated. unfold App.updatedQuotes_on_delete.
  set (same := fun q => String.eqb (Quotation.id q) id).
  split; [| split; [| split; [| split; [| split]]]].
  - intros q. rewrite !list_elem_of_In, List.filter_In, negb_true_iff.
    unfold same. rewrite String.eqb_neq. reflexivity.
  - apply filter_sublist.
  - apply (filter_split_length same).
  - intros Hnd Hin.
    pose proof (filter_split_length same quotes0) as H.
    unfold same in H at 2. rewrite (unique_id_once quotes0 id Hnd Hin) in H. exact H.
  - reflexivity.
  - intros w Hw Hp. unfold App.handleDeleteQuote. rewrite Hw.
    unfold App.updatedQuotes_on_delete.
    rewrite (saveQuotesToLocalStorage_ok w _ Hp). reflexivity.
Qed.

End WithJSON.
End QuoteStore.

Module QuoteStoreExamples.

(** Saving a quote with a fresh identifier appends it; saving one with the
    identifier of the second record replaces that record. *)
Lemma save_replaces_or_appends_witness :
  let a := Examples.quote_for "a" "Asha" in
  let b := Examples.quote_for "b" "Bala" in
  let b' := Examples.quote_for "b" "Balan" in
  let c := Examples.quote_for "c" "Chitra" in
  App.updatedQuotes_on_save [a; b] c = [a; b; c] /\
  App.updatedQuotes_on_save [a; b] b' !! 1%nat = Some b' /\
  length (App.updatedQuotes_on_save [a; b] b') = 2%nat.
Proof.
  intros a b b' c. split.
  - pose proof (QuoteStore.save_replaces_or_appends (fun _ => EmptyString) [a; b] c)
      as (_ & H & _).
    apply H. intros q Hq. apply elem_of_cons in Hq as [-> | Hq]; [reflexivity |].
    apply elem_of_cons in Hq as [-> | Hq]; [reflexivity | inversion Hq].
  - pose proof (QuoteStore.save_replaces_or_appends (fun _ => EmptyString) [a; b] b')
      as (H & _).
    destruct H as (i & old & Hi & Hsame & Hfirst & Hat & _ & Hlen).
    + exists b. split; [| reflexivity]. apply elem_of_cons. right. apply elem_of_cons. now left.
    + split; [| exact Hlen].
      destruct i as [| [| i]].
      * injection Hi as <-. discriminate Hsame.
      * exact Hat.
      * destruct i; discriminate Hi.
Defined.

(** Deleting the identifier of the second of three records removes one record. *)
Lemma delete_removes_exactly_witness :
  let a := Examples.quote_for "a" "Asha" in
  let b := Examples.quote_for "b" "Bala" in
  let c := Examples.quote_for "c" "Chitra" in
  (length (App.updatedQuotes_on_delete [a; b; c] "b") + 1 = 3)%nat /\
  b ∉ App.updatedQuotes_on_delete [a; b; c] "b".
Proof.
  intros a b c.
  pose proof (QuoteStore.delete_removes_exactly (fun _ => EmptyString) [a; b; c] "b")
    as (Hmem & _ & _ & Hone & _).
  split.
  - apply Hone.
    + repeat constructor; cbn; intuition discriminate.
    + apply elem_of_cons. right. apply elem_of_cons. now left.
  - intros Hb. apply Hmem in Hb as [_ Hb]. now apply Hb.
Defined.

End QuoteStoreExamples.

(** ** The quote store: how saves, deletes and edits compose *)

Module StoreLaws.

Abbreviation same_id id := (fun q => String.eqb (Quotation.id q) id).

(** [handleSaveQuote] replaces the first record with the identifier, or
    appends: the collection it builds, by recursion on the collection. *)
Lemma save_nil quote : App.updatedQuotes_on_save [] quote = [quote].
Proof. reflexivity. Qed.

Lemma save_cons a qs quote :
  App.updatedQuotes_on_save (a :: qs) quote =
  if String.eqb (Quotation.id a) (Quotation.id quote) then quote :: qs
  else a :: App.updatedQuotes_on_save qs quote.
Proof.
  unfold App.updatedQuotes_on_save. cbn [findIndex].
  destruct (String.eqb (Quotation.id a) (Quotation.id quote)); [reflexivity |].
  pose proof (QuoteStore.findIndex_ge (same_id (Quotation.id quote)) qs) as Hge.
  destruct (Z.ltb_spec (findIndex (same_id (Quotation.id quote)) qs) 0) as [Hneg | Hpos].
  - replace (findIndex (same_id (Quotation.id quote)) qs) with (-1)%Z by lia. reflexivity.
  - replace (-1 <? findIndex (same_id (Quotation.id quote)) qs + 1)%Z with true
      by (symmetry; apply Z.ltb_lt; lia).
    replace (-1 <? findIndex (same_id (Quotation.id quote)) qs)%Z with true
      by (symmetry; apply Z.ltb_lt; lia).
    rewrite Z2Nat.inj_add by lia. rewrite Nat.add_1_r. reflexivity.
Qed.

Lemma delete_cons a qs id :
  App.updatedQuotes_on_delete (a :: qs) id =
  if String.eqb (Quotation.id a) id then App.updatedQuotes_on_delete qs id
  else a :: App.updatedQuotes_on_delete qs id.
Proof.
  unfold App.updatedQuotes_on_delete. cbn [List.filter].
  destruct (String.eqb (Quotation.id a) id); reflexivity.
Qed.

Lemma save_ids qs quote :
  map Quotation.id (App.updatedQuotes_on_save qs quote) =
  if existsb (same_id (Quotation.id quote)) qs then map Quotation.id qs
  else map Quotation.id qs ++ [Quotation.id quote].
Proof.
  induction qs as [| a qs IH]; [reflexivity |].
  rewrite save_cons. cbn [existsb map].
  destruct (String.eqb_spec (Quotation.id a) (Quotation.id quote)) as [Heq | Hne]; cbn.
  - now rewrite Heq.
  - rewrite IH. now destruct (existsb _ qs).
Qed.

Lemma existsb_same_id id qs :
  existsb (same_id id) qs = true <-> id ∈ map Quotation.id qs.
Proof.
  rewrite existsb_exists, list_elem_of_In, in_map_iff. split.
  - intros (q & Hin & Heq). apply String.eqb_eq in Heq. eauto.
  - intros (q & <- & Hin). exists q. split; [assumption | apply String.eqb_refl].
Qed.

(** X1.  Saving is idempotent, and it keeps the identifiers of the collection
    distinct: saving the same quote a second time changes nothing, and a
    collection without duplicate identifiers has none after a save. *)
Theorem save_idempotent_keeps_ids_unique (qs : list Quotation.t) (quote : Quotation.t) :
  App.updatedQuotes_on_save (App.updatedQuotes_on_save qs quote) quote
    = App.updatedQuotes_on_save qs quote /\
  (List.NoDup (map Quotation.id qs) ->
   List.NoDup (map Quotation.id (App.updatedQuotes_on_save qs quote))).
Proof.
  split.
  - induction qs as [| a qs IH].
    + rewrite save_nil, save_cons, String.eqb_refl. reflexivity.
    + rewrite save_cons.
      destruct (String.eqb (Quotation.id a) (Quotation.id quote)) eqn:Ha.
      * rewrite save_cons, String.eqb_refl. reflexivity.
      * rewrite save_cons, Ha, IH. reflexivity.
  - intros Hnd. rewrite save_ids.
    destruct (existsb (same_id (Quotation.id quote)) qs) eqn:Hex; [assumption |].
    apply NoDup_ListNoDup, NoDup_app. apply NoDup_ListNoDup in Hnd.
    split; [assumption |]. split; [| apply NoDup_singleton].
    intros x Hx Hx'. apply list_elem_of_singleton in Hx'. subst x.
    apply existsb_same_id in Hx. congruence.
Qed.

(** X2.  Deleting the identifier of a quote that was just saved gives the
    collection without that identifier; for a quote that was appended (its
    identifier was new) this is the collection before the save. *)
Theorem delete_undoes_save (qs : list Quotation.t) (quote : Quotation.t) :
  App.updatedQuotes_on_delete (App.updatedQuotes_on_save qs quote) (Quotation.id quote)
    = App.updatedQuotes_on_delete qs (Quotation.id quote) /\
  (Quotation.id quote ∉ map Quotation.id qs ->
   App.updatedQuotes_on_delete (App.updatedQuotes_on_save qs quote) (Quotation.id quote) = qs).
Proof.
  assert (Hgen : App.updatedQuotes_on_delete (App.updatedQuotes_on_save qs quote)
                   (Quotation.id quote)
                 = App.updatedQuotes_on_delete qs (Quotation.id quote)).
  { induction qs as [| a qs IH].
    - rewrite save_nil, delete_cons, String.eqb_refl. reflexivity.
    - rewrite save_cons, (delete_cons a).
      destruct (String.eqb (Quotation.id a) (Quotation.id quote)) eqn:Ha.
      + rewrite delete_cons, String.eqb_refl. reflexivity.
      + rewrite delete_cons, Ha, IH. reflexivity. }
  split; [exact Hgen |]. intros Hfresh. rewrite Hgen. clear Hgen.
  induction qs as [| a qs IH]; [reflexivity |].
  rewrite delete_cons. cbn [map] in Hfresh. apply not_elem_of_cons in Hfresh as [Hne Hfresh].
  destruct (String.eqb_spec (Quotation.id a) (Quotation.id quote)) as [Heq | _];
    [congruence |]. now rewrite IH.
Qed.

Lemma find_first (id : string) (qs : list Quotation.t) :
  match List.find (same_id id) qs with
  | Some q =>
      exists i, qs !! i = Some q /\ Quotation.id q = id /\
                forall j q', (j < i)%nat -> qs !! j = Some q' -> Quotation.id q' <> id
  | None => id ∉ map Quotation.id qs
  end.
Proof.
  induction qs as [| a qs IH]; cbn [List.find map].
  - apply not_elem_of_nil.
  - destruct (String.eqb_spec (Quotation.id a) id) as [Heq | Hne].
    + exists 0%nat. repeat split; [assumption |]. intros j q' Hj. lia.
    + destruct (List.find (same_id id) qs) as [q |].
      * destruct IH as (i & Hi & Hid & Hfirst). exists (S i). repeat split; [assumption.. |].
        intros [| j] q' Hj Hq'; [cbn in Hq'; congruence |].
        apply (Hfirst j); [lia | assumption].
      * apply not_elem_of_cons. split; [congruence | assumption].
Qed.

Lemma save_found (id : string) (qs : list Quotation.t) (q : Quotation.t) :
  List.find (same_id id) qs = Some q -> App.updatedQuotes_on_save qs q = qs.
Proof.
  induction qs as [| a qs IH]; cbn [List.find]; [discriminate |].
  destruct (String.eqb_spec (Quotation.id a) id) as [Heq | Hne].
  - intros [= ->]. rewrite save_cons, String.eqb_refl. reflexivity.
  - intros Hf. rewrite save_cons.
    destruct (find_some _ _ Hf) as [_ Hid]. apply String.eqb_eq in Hid. rewrite Hid.
    destruct (String.eqb_spec (Quotation.id a) id); [contradiction |].
    now rewrite IH.
Qed.

Lemma handleEditQuote_selects (id : string) (w : World) :
  id ∈ map Quotation.id (quotes (app w)) ->
  exists i q, quotes (app w) !! i = Some q /\ Quotation.id q = id /\
              selectedQuote (app (snd (App.handleEditQuote id w))) = Some q.
Proof.
  intros Hin. unfold App.handleEditQuote.
  pose proof (find_first id (quotes (app w))) as Hfind.
  destruct (List.find (same_id id) (quotes (app w))) as [q |]; [| contradiction].
  destruct Hfind as (i & Hi & Hid & _). now exists i, q.
Qed.

(** X3.  Editing an identifier that no quote carries changes nothing.
    Otherwise the first quote with the identifier is selected and the form is
    shown, the collection and the stores are untouched, and saving the
    selected quote back unchanged leaves the collection as it is. *)
Theorem edit_selects_first (id : string) (w : World) :
  let r := App.handleEditQuote id w in
  let qs := quotes (app w) in
  (id ∉ map Quotation.id qs -> r = (Returned tt, w)) /\
  (id ∈ map Quotation.id qs ->
   exists i q,
     qs !! i = Some q /\ Quotation.id q = id /\
     (forall j q', (j < i)%nat -> qs !! j = Some q' -> Quotation.id q' <> id) /\
     fst r = Returned tt /\
     selectedQuote (app (snd r)) = Some q /\ view (app (snd r)) = form_view /\
     quotes (app (snd r)) = qs /\
     localStorage (snd r) = localStorage w /\ sessionStorage (snd r) = sessionStorage w /\
     App.updatedQuotes_on_save qs q = qs).
Proof.
  intros r qs. subst r. unfold App.handleEditQuote. fold qs.
  pose proof (find_first id qs) as Hfind. pose proof (save_found id qs) as Hsave.
  destruct (List.find (same_id id) qs) as [q |].
  - split; [intros Hnot; exfalso; destruct Hfind as (i & Hi & Hid & _); apply Hnot |].
    + rewrite list_elem_of_In, in_map_iff. exists q. split; [assumption |].
      apply list_elem_of_In. now apply (list_elem_of_lookup_2 _ i).
    + intros _. destruct Hfind as (i & Hi & Hid & Hfirst).
      exists i, q. repeat split; try assumption. now apply Hsave.
  - split; [reflexivity | contradiction].
Qed.

Section WithJSON.

Variable JSON_stringify_quotes : list Quotation.t -> string.

Abbreviation handleSaveQuote := (App.handleSaveQuote JSON_stringify_quotes).
Abbreviation handleDeleteQuote := (App.handleDeleteQuote JSON_stringify_quotes).
Abbreviation saveQuotesToLocalStorage := (App.saveQuotesToLocalStorage JSON_stringify_quotes).
Abbreviation in_sync := (App.in_sync JSON_stringify_quotes).

Lemma saveQuotesToLocalStorage_refused w qs :
  App.not_persistable JSON_stringify_quotes w qs ->
  saveQuotesToLocalStorage qs w = (Returned tt, w).
Proof.
  intros H. unfold App.saveQuotesToLocalStorage, try_catch, bind, setItem, the_store, ret.
  destruct H as [H | H]; rewrite H; [reflexivity |].
  destruct (denied (localStorage w)); reflexivity.
Qed.

Lemma persistable_or_not w qs :
  App.persistable JSON_stringify_quotes w qs \/ App.not_persistable JSON_stringify_quotes w qs.
Proof.
  unfold App.persistable, App.not_persistable.
  destruct (denied (localStorage w)); [right; now left |].
  destruct (accepts (localStorage w) "tyreQuotes" (JSON_stringify_quotes qs));
    [left | right]; auto.
Qed.

(** X4.  When the local store refuses the write, saving a quote keeps the
    collection in memory and both stores as they were, reports nothing, and
    still closes the form: the list is shown and no quote is selected. *)
Theorem refused_save_drops_the_quote (quote : Quotation.t) (w : World) :
  App.not_persistable JSON_stringify_quotes w
    (App.updatedQuotes_on_save (quotes (app w)) quote) ->
  let r := handleSaveQuote quote w in
  fst r = Returned tt /\
  quotes (app (snd r)) = quotes (app w) /\
  localStorage (snd r) = localStorage w /\ sessionStorage (snd r) = sessionStorage w /\
  view (app (snd r)) = list_view /\ selectedQuote (app (snd r)) = None.
Proof.
  intros H r. subst r. unfold App.handleSaveQuote, bind.
  rewrite (saveQuotesToLocalStorage_refused _ _ H). repeat split.
Qed.

(** X5.  None of the five handlers of [App] that work on the collection
    puts the stored text out of step with it: if the stored text is the
    serialised collection in memory when the handler starts, it is when the
    handler returns, for a save, a delete (confirmed or not) and the three
    moves between the list and the form, whether the local store takes the
    write or refuses it.  (The handlers of the form are not among them: a
    line edited in place changes the collection in memory and not the
    stored text, see [SharedLaws].) *)
Theorem handlers_keep_store_in_sync (w : World) :
  in_sync w ->
  (forall quote, in_sync (snd (handleSaveQuote quote w))) /\
  (forall confirmed id, in_sync (snd (handleDeleteQuote confirmed id w))) /\
  (forall id, in_sync (snd (App.handleEditQuote id w))) /\
  in_sync (snd (App.handleCreateNew w)) /\
  in_sync (snd (App.handleViewList w)).
Proof.
  intros Hsync.
  assert (Hsave : forall qs, in_sync (snd (saveQuotesToLocalStorage qs w))).
  { intros qs. destruct (persistable_or_not w qs) as [H | H].
    - rewrite (QuoteStore.saveQuotesToLocalStorage_ok _ _ _ H). unfold App.in_sync. cbn.
      apply lookup_insert_eq.
    - now rewrite (saveQuotesToLocalStorage_refused _ _ H). }
  split; [| split; [| split; [| split]]].
  - intros quote. specialize (Hsave (App.updatedQuotes_on_save (quotes (app w)) quote)).
    unfold App.handleSaveQuote, bind.
    destruct (saveQuotesToLocalStorage _ w) as [[[] |] w']; exact Hsave.
  - intros [|] id; unfold App.handleDeleteQuote; [apply Hsave | exact Hsync].
  - intros id. unfold App.handleEditQuote.
    destruct (List.find _ _); exact Hsync.
  - exact Hsync.
  - exact Hsync.
Qed.

(** X6.  Saving or deleting a quote never touches the session store, the
    stored company details or any other key of the local store, nor the
    company details, the authentication state or the settings dialog. *)
Theorem quote_handlers_frame (w : World) (quote : Quotation.t) (confirmed : bool) (id : string) :
  let touched w' :=
    sessionStorage w' = sessionStorage w /\
    (forall key, key <> "tyreQuotes" ->
       items (localStorage w') !! key = items (localStorage w) !! key) /\
    companyDetails (app w') = companyDetails (app w) /\
    isAuthenticated (app w') = isAuthenticated (app w) /\
    isAppReady (app w') = isAppReady (app w) /\
    isSettingsOpen (app w') = isSettingsOpen (app w) in
  touched (snd (handleSaveQuote quote w)) /\ touched (snd (handleDeleteQuote confirmed id w)).
Proof.
  intros touched.
  assert (Hsave : forall qs, touched (snd (saveQuotesToLocalStorage qs w))).
  { intros qs. destruct (persistable_or_not w qs) as [H | H].
    - rewrite (QuoteStore.saveQuotesToLocalStorage_ok _ _ _ H). repeat split.
      intros key Hkey. cbn. now apply lookup_insert_ne.
    - rewrite (saveQuotesToLocalStorage_refused _ _ H). repeat split. }
  split.
  - specialize (Hsave (App.updatedQuotes_on_save (quotes (app w)) quote)).
    unfold App.handleSaveQuote, bind.
    destruct (saveQuotesToLocalStorage _ w) as [[[] |] w']; exact Hsave.
  - destruct confirmed; unfold App.handleDeleteQuote; [apply Hsave | repeat split].
Qed.

End WithJSON.

(** A full local store refuses the quote; the form closes all the same. *)
Lemma refused_save_drops_the_quote_witness :
  let stringify := fun qs : list Quotation.t => String.concat "," (map Quotation.id qs) in
  let quote := Examples.quote_for "a" "Asha" in
  App.not_persistable stringify Examples.full_world
    (App.updatedQuotes_on_save (quotes (app Examples.full_world)) quote) /\
  quotes (app (snd (App.handleSaveQuote stringify quote Examples.full_world))) = [] /\
  view (app (snd (App.handleSaveQuote stringify quote Examples.full_world))) = list_view.
Proof.
  intros stringify quote.
  assert (H : App.not_persistable stringify Examples.full_world
                (App.updatedQuotes_on_save (quotes (app Examples.full_world)) quote))
    by (right; reflexivity).
  split; [exact H |].
  pose proof (refused_save_drops_the_quote stringify quote Examples.full_world H)
    as (_ & Hq & _ & _ & Hv & _).
  split; [exact Hq | exact Hv].
Defined.

(** An empty collection stored as the empty text stays in step with the
    state when a quote is saved. *)
Lemma handlers_keep_store_in_sync_witness :
  let stringify := fun qs : list Quotation.t => String.concat "," (map Quotation.id qs) in
  let w := mkWorld Examples.fresh_app (Examples.store_with "tyreQuotes" EmptyString)
             Examples.empty_store in
  App.in_sync stringify w /\
  App.in_sync stringify (snd (App.handleSaveQuote stringify (Examples.quote_for "a" "Asha") w)).
Proof.
  intros stringify w.
  assert (H : App.in_sync stringify w) by reflexivity.
  split; [exact H |].
  exact (proj1 (handlers_keep_store_in_sync stringify w H) (Examples.quote_for "a" "Asha")).
Defined.

End StoreLaws.

(** ** Session gate: reloads, logout, repeated attempts *)

Module SessionLaws.
Section WithJSON.

Variable JSON_parse_quotes : string -> option (list Quotation.t).
Variable JSON_parse_details : string -> option CompanyDetails.partial.

Abbreviation loadQuotes := (App.loadQuotes JSON_parse_quotes).
Abbreviation loadDetails := (App.loadDetails JSON_parse_details).
Abbreviation useEffect_try := (App.useEffect_try JSON_parse_quotes JSON_parse_details).
Abbreviation useEffect := (App.useEffect JSON_parse_quotes JSON_parse_details).
Abbreviation mount := (App.mount JSON_parse_quotes JSON_parse_details).

Abbreviation untouched := App.untouched.

Lemma untouched_refl w : untouched w w.
Proof. repeat split. Qed.

Lemma untouched_trans w1 w2 w3 : untouched w1 w2 -> untouched w2 w3 -> untouched w1 w3.
Proof. unfold App.untouched. intuition congruence. Qed.

Lemma loadQuotes_untouched w r w' : loadQuotes w = (r, w') -> untouched w w'.
Proof.
  unfold App.loadQuotes, bind, getItem, the_store.
  destruct (denied (localStorage w)); [intros [= <- <-]; apply untouched_refl |].
  destruct (items (localStorage w) !! "tyreQuotes") as [t |];
    [| intros [= <- <-]; apply untouched_refl].
  destruct (JS.truthy (Some t)); [| intros [= <- <-]; apply untouched_refl].
  unfold App.parse. destruct (JSON_parse_quotes t); cbn; intros [= <- <-]; repeat split.
Qed.

Lemma authenticate_untouched details w r w' :
  App.authenticate details w = (r, w') -> untouched w w'.
Proof.
  unfold App.authenticate.
  destruct (JS.truthy (CompanyDetails.password details)); cbn.
  - unfold bind, getItem, the_store.
    destruct (denied (sessionStorage w)); [intros [= <- <-]; apply untouched_refl |].
    destruct (items (sessionStorage w) !! "isAuthenticated") as [v |].
    + destruct (String.eqb v "true"); intros [= <- <-]; repeat split.
    + intros [= <- <-]; repeat split.
  - intros [= <- <-]; repeat split.
Qed.

Lemma useEffect_try_untouched w r w' : useEffect_try w = (r, w') -> untouched w w'.
Proof.
  unfold App.useEffect_try, bind at 1.
  destruct (loadQuotes w) as [[[] |] wq] eqn:Hq;
    [| intros [= <- <-]; now apply (loadQuotes_untouched w Thrown)].
  apply loadQuotes_untouched in Hq. unfold bind at 1.
  destruct (loadDetails wq) as [[details |] wd] eqn:Hd.
  - apply GateStartup.loadDetails_world in Hd as ->. unfold bind at 1. cbn.
    intros H. apply authenticate_untouched in H.
    eapply untouched_trans; [exact Hq |]. eapply untouched_trans; [| exact H]. repeat split.
  - apply GateStartup.loadDetails_world in Hd as ->. now intros [= <- <-].
Qed.

(** The [finally] block runs on both paths. *)
Lemma useEffect_ready (w : World) : isAppReady (app (snd (useEffect w))) = true.
Proof.
  unfold App.useEffect, try_catch_finally, try_catch.
  now destruct (useEffect_try w) as [[[] |] w1].
Qed.

(** X7.  The start-up effect only reads: whatever the two stores hold or
    refuse, it never throws, it leaves both stores and the navigation state
    (the view, the selected quote, the settings dialog) as they were, and it
    always marks the app ready. *)
Theorem startup_only_reads (w : World) :
  let r := useEffect w in
  fst r = Returned tt /\
  localStorage (snd r) = localStorage w /\ sessionStorage (snd r) = sessionStorage w /\
  view (app (snd r)) = view (app w) /\ selectedQuote (app (snd r)) = selectedQuote (app w) /\
  isSettingsOpen (app (snd r)) = isSettingsOpen (app w) /\
  isAppReady (app (snd r)) = true.
Proof.
  intros r. subst r. unfold App.useEffect, try_catch_finally, try_catch.
  destruct (useEffect_try w) as [[[] |] w1] eqn:Htry;
    apply useEffect_try_untouched in Htry as (Hl & Hs & Hv & Hq & Ho); cbn;
    rewrite Hl, Hs, Hv, Hq, Ho; repeat split.
Qed.

(** X8.  If the session store cannot be read while the loaded details hold a
    password, the start-up fails open as well: the gate starts unlocked on
    the default company details, and the quotes that had just been loaded
    are replaced by the empty collection. *)
Theorem unreadable_session_store_fails_open (w wq : World) (details : CompanyDetails.t) :
  loadQuotes w = (Returned tt, wq) ->
  loadDetails wq = (Returned details, wq) ->
  JS.truthy (CompanyDetails.password details) = true ->
  denied (sessionStorage w) = true ->
  let a := app (snd (useEffect w)) in
  quotes a = [] /\ companyDetails a = defaultCompanyDetails /\
  isAuthenticated a = true /\ isAppReady a = true.
Proof.
  intros Hq Hd Hp Hs. eapply GateStartup.useEffect_after_throw.
  unfold App.useEffect_try, bind at 1. rewrite Hq. unfold bind at 1. rewrite Hd.
  unfold bind at 1. cbn. unfold App.authenticate. rewrite Hp. cbn.
  unfold bind, getItem, the_store.
  apply loadQuotes_untouched in Hq as (_ & Hss & _). cbn. rewrite Hss, Hs. reflexivity.
Qed.

Lemma falsy_cases (v : option string) :
  JS.truthy v = false -> v = None \/ v = Some EmptyString.
Proof.
  destruct v as [[| c t] |]; cbn; [auto | discriminate | auto].
Qed.

Lemma loadQuotes_nothing_stored w :
  denied (localStorage w) = false ->
  JS.truthy (items (localStorage w) !! "tyreQuotes") = false ->
  loadQuotes w = (Returned tt, w).
Proof.
  intros Hd Hq. unfold App.loadQuotes, bind, getItem, the_store. rewrite Hd.
  destruct (falsy_cases _ Hq) as [-> | ->]; reflexivity.
Qed.

Lemma loadDetails_nothing_stored w :
  denied (localStorage w) = false ->
  JS.truthy (items (localStorage w) !! "companyDetails") = false ->
  loadDetails w = (Returned defaultCompanyDetails, w).
Proof.
  intros Hd Hc. unfold App.loadDetails, bind, getItem, the_store. rewrite Hd.
  destruct (falsy_cases _ Hc) as [-> | ->]; reflexivity.
Qed.

(** X9.  On a first visit (the local store readable, and under each of the
    two keys nothing or the empty text) the page comes up unlocked, on the
    application screen, with no quotes and the default company details,
    whatever the session store holds or refuses. *)
Theorem first_visit_starts_unlocked (w : World) :
  denied (localStorage w) = false ->
  JS.truthy (items (localStorage w) !! "tyreQuotes") = false ->
  JS.truthy (items (localStorage w) !! "companyDetails") = false ->
  let r := mount w in
  fst r = Returned tt /\
  app (snd r) = mkApp list_view [] None false defaultCompanyDetails true true /\
  App.render (app (snd r)) = App.main_screen.
Proof.
  intros Hd Hq Hc r. subst r.
  assert (Htry : useEffect_try (mkWorld App.initialState (localStorage w) (sessionStorage w))
                 = (Returned tt,
                    mkWorld (mkApp list_view [] None false defaultCompanyDetails true false)
                      (localStorage w) (sessionStorage w))).
  { unfold App.useEffect_try. unfold bind at 1.
    rewrite loadQuotes_nothing_stored by assumption.
    unfold bind at 1. rewrite loadDetails_nothing_stored by assumption. reflexivity. }
  unfold App.mount, App.useEffect, try_catch_finally, try_catch. rewrite Htry.
  repeat split.
Qed.

Lemma mount_after_return w w1 :
  useEffect_try (mkWorld App.initialState (localStorage w) (sessionStorage w))
    = (Returned tt, w1) ->
  isAuthenticated (app (snd (mount w))) =
    (if JS.truthy (CompanyDetails.password (companyDetails (app w1)))
     then match items (sessionStorage w) !! "isAuthenticated" with
          | Some v => String.eqb v "true"
          | None => false
          end
     else true) /\
  companyDetails (app (snd (mount w))) = companyDetails (app w1).
Proof.
  intros H. pose proof (GateStartup.useEffect_try_returns _ _ _ _ H) as Ha.
  unfold App.mount, App.useEffect, try_catch_finally, try_catch. rewrite H. cbn.
  split; [exact Ha | reflexivity].
Qed.

Lemma mount_after_throw w w1 :
  useEffect_try (mkWorld App.initialState (localStorage w) (sessionStorage w))
    = (Thrown, w1) ->
  isAuthenticated (app (snd (mount w))) = true.
Proof.
  intros H. unfold App.mount.
  now destruct (GateStartup.useEffect_after_throw _ _ _ _ H) as (_ & _ & ? & _).
Qed.

(** X10.  A login outlasts a reload: once the session marker is in the
    session store, every reload of the page ends with the gate unlocked and
    the app marked ready, whatever the local store holds and whether it can
    be read or not.  A login writes that marker when the session store takes
    the write. *)
Theorem login_outlasts_reload (w : World) :
  (App.marker_present w ->
   isAuthenticated (app (snd (mount w))) = true /\
   isAppReady (app (snd (mount w))) = true) /\
  (App.marker_writable w ->
   let w' := snd (App.handleLoginSuccess w) in
   App.marker_present w' /\ isAuthenticated (app w') = true /\
   isAuthenticated (app (snd (mount w'))) = true).
Proof.
  assert (Hmark : forall w0, App.marker_present w0 ->
            isAuthenticated (app (snd (mount w0))) = true).
  { intros w0 Hm.
    destruct (useEffect_try (mkWorld App.initialState (localStorage w0) (sessionStorage w0)))
      as [[[] |] w1] eqn:Htry.
    - destruct (mount_after_return w0 w1 Htry) as [-> _].
      unfold App.marker_present in Hm. rewrite Hm.
      now destruct (JS.truthy _).
    - now apply (mount_after_throw w0 w1). }
  split.
  - intros Hm. split; [now apply Hmark | apply useEffect_ready].
  - intros Hw w'. subst w'.
    destruct (GateLogin.handleLoginSuccess_ok w Hw) as (w' & -> & Ha & Hm).
    split; [exact Hm |]. split; [exact Ha | now apply Hmark].
Qed.

(** X11.  A declined logout changes nothing.  A confirmed logout, when the
    session store can be written, removes the marker and locks the gate
    without touching the local store; the next reload then comes up locked
    whenever the stored details load with a password. *)
Theorem logout_locks_until_next_login (w : World) :
  App.handleLogout false w = (Returned tt, w) /\
  (denied (sessionStorage w) = false ->
   let w' := snd (App.handleLogout true w) in
   fst (App.handleLogout true w) = Returned tt /\
   ~ App.marker_present w' /\ isAuthenticated (app w') = false /\
   localStorage w' = localStorage w /\
   forall w1,
     useEffect_try (mkWorld App.initialState (localStorage w') (sessionStorage w'))
       = (Returned tt, w1) ->
     JS.truthy (CompanyDetails.password (companyDetails (app w1))) = true ->
     isAuthenticated (app (snd (mount w'))) = false /\
     App.render (app (snd (mount w'))) = App.login_screen).
Proof.
  split; [reflexivity |]. intros Hd w'. subst w'.
  unfold App.handleLogout, bind, removeItem, the_store. rewrite Hd. cbn.
  assert (Hno : ~ App.marker_present
                  (mkWorld
                     (mkApp (view (app w)) (quotes (app w)) (selectedQuote (app w))
                        (isSettingsOpen (app w)) (companyDetails (app w)) false
                        (isAppReady (app w)))
                     (localStorage w)
                     (mkStorage (delete "isAuthenticated" (items (sessionStorage w)))
                        (denied (sessionStorage w)) (accepts (sessionStorage w))))).
  { unfold App.marker_present. cbn. rewrite lookup_delete_eq. discriminate. }
  split; [reflexivity |]. split; [exact Hno |]. split; [reflexivity |].
  split; [reflexivity |]. intros w1 Htry Hp.
  destruct (mount_after_return _ w1 Htry) as [Ha _]. cbn in Ha.
  rewrite Hp, lookup_delete_eq in Ha.
  split; [exact Ha |].
  pose proof (useEffect_ready
                (mkWorld App.initialState (localStorage w)
                   (mkStorage (delete "isAuthenticated" (items (sessionStorage w)))
                      (denied (sessionStorage w)) (accepts (sessionStorage w)))))
    as Hready.
  unfold App.render. unfold App.mount. cbn. rewrite Hready.
  unfold App.mount in Ha. cbn in Ha. rewrite Ha. reflexivity.
Qed.

End WithJSON.

Lemma attempt_wrong (stored : option string) (input : string) (s : LoginScreen.state)
    (w : World) :
  CompanyDetails.password (companyDetails (app w)) = stored ->
  LoginScreen.strict_equal input stored = false ->
  App.attempt input s w =
    (Returned (LoginScreen.mk EmptyString "Incorrect password. Please try again."), w).
Proof.
  intros Hs Hne. unfold App.attempt, App.submitPassword, LoginScreen.handleSubmit.
  rewrite Hs. cbn. rewrite Hne. reflexivity.
Qed.

(** X12.  Failed attempts are not counted.  After any run of inputs none of
    which is the stored password, nothing has changed outside the login
    form, and the right password still unlocks the gate.  With no password
    stored, no input at all unlocks it. *)
Theorem failed_attempts_are_not_counted (inputs : list string) (s : LoginScreen.state)
    (w : World) :
  Forall (fun input =>
            LoginScreen.strict_equal input
              (CompanyDetails.password (companyDetails (app w))) = false) inputs ->
  (exists s', App.attempts inputs s w = (Returned s', w)) /\
  (forall secret,
     CompanyDetails.password (companyDetails (app w)) = Some secret ->
     App.marker_writable w ->
     let r := (let* s' := App.attempts inputs s in App.attempt secret s')%eff w in
     isAuthenticated (app (snd r)) = true /\ App.marker_present (snd r)) /\
  (CompanyDetails.password (companyDetails (app w)) = None ->
   forall input, snd (App.attempt input s w) = w).
Proof.
  intros Hall.
  assert (Hrun : forall s0, exists s', App.attempts inputs s0 w = (Returned s', w)).
  { induction Hall as [| input inputs Hin _ IH]; intros s0; [now exists s0 |].
    cbn [App.attempts]. unfold bind. rewrite (attempt_wrong _ _ _ _ eq_refl Hin). apply IH. }
  split; [apply Hrun |]. split.
  - intros secret Hs Hw r.
    destruct (GateLogin.handleLoginSuccess_ok w Hw) as (w' & Hok & Ha & Hm).
    assert (Hr : exists st, r = (Returned st, w')).
    { subst r. unfold bind at 1. destruct (Hrun s) as [s' ->].
      unfold App.attempt, App.submitPassword, LoginScreen.handleSubmit. rewrite Hs. cbn.
      rewrite String.eqb_refl. unfold bind. rewrite Hok. eexists. reflexivity. }
    destruct Hr as [st ->]. auto.
  - intros Hnone input. now rewrite (attempt_wrong None input s w Hnone eq_refl).
Qed.

(** A stored password and a session store that cannot be read: the page comes
    up unlocked. *)
Lemma unreadable_session_store_fails_open_witness :
  let parse_quotes := fun _ : string => Some ([] : list Quotation.t) in
  let parse_details := fun _ : string => Some Examples.with_password in
  let w := mkWorld Examples.fresh_app (Examples.store_with "companyDetails" "{...}")
             Examples.denied_store in
  denied (sessionStorage w) = true /\
  isAuthenticated (app (snd (App.useEffect parse_quotes parse_details w))) = true /\
  companyDetails (app (snd (App.useEffect parse_quotes parse_details w)))
    = defaultCompanyDetails.
Proof.
  intros parse_quotes parse_details w. split; [reflexivity |].
  pose proof (unreadable_session_store_fails_open parse_quotes parse_details w w
                Examples.abc_details eq_refl eq_refl eq_refl eq_refl) as (_ & Hc & Ha & _).
  split; [exact Ha | exact Hc].
Defined.

(** Two empty stores. *)
Lemma first_visit_starts_unlocked_witness :
  let parse_quotes := fun _ : string => (None : option (list Quotation.t)) in
  let parse_details := fun _ : string => (None : option CompanyDetails.partial) in
  let w := mkWorld Examples.fresh_app Examples.empty_store Examples.empty_store in
  denied (localStorage w) = false /\
  App.render (app (snd (App.mount parse_quotes parse_details w))) = App.main_screen.
Proof.
  intros parse_quotes parse_details w. split; [reflexivity |].
  exact (proj2 (proj2 (first_visit_starts_unlocked parse_quotes parse_details w
                         eq_refl eq_refl eq_refl))).
Defined.

(** Three wrong guesses at the password [abc], then the password. *)
Lemma failed_attempts_are_not_counted_witness :
  let guesses := ["ABC"; "abd"; EmptyString] in
  let start := LoginScreen.mk EmptyString EmptyString in
  snd (App.attempts guesses start Examples.abc_world) = Examples.abc_world /\
  isAuthenticated
    (app (snd ((let* s' := App.attempts guesses start in App.attempt "abc" s')%eff
                 Examples.abc_world))) = true.
Proof.
  intros guesses start.
  assert (H : Forall (fun input =>
                        LoginScreen.strict_equal input
                          (CompanyDetails.password (companyDetails (app Examples.abc_world)))
                        = false) guesses)
    by (repeat constructor).
  pose proof (failed_attempts_are_not_counted guesses start Examples.abc_world H)
    as ((s' & Hrun) & Hthen & _).
  split; [now rewrite Hrun |].
  assert (Hw : App.marker_writable Examples.abc_world) by (split; reflexivity).
  exact (proj1 (Hthen "abc" eq_refl Hw)).
Defined.

End SessionLaws.

(** ** Company settings *)

Module SettingsLaws.
Section WithJSON.

Variable JSON_parse_quotes : string -> option (list Quotation.t).
Variable JSON_parse_details : string -> option CompanyDetails.partial.
Variable JSON_stringify_details : CompanyDetails.t -> string.

Abbreviation handleSaveSettings := (App.handleSaveSettings JSON_stringify_details).
Abbreviation mount := (App.mount JSON_parse_quotes JSON_parse_details).
Abbreviation loadQuotes := (App.loadQuotes JSON_parse_quotes).
Abbreviation loadDetails := (App.loadDetails JSON_parse_details).
Abbreviation useEffect_try := (App.useEffect_try JSON_parse_quotes JSON_parse_details).

(** The details with an empty or missing password removed. *)
Lemma handleSaveSettings_ok details w :
  App.details_writable w ->
  exists saved,
    (saved = if JS.truthy (CompanyDetails.password details) then details
             else CompanyDetails.mk
                    (CompanyDetails.name details) (CompanyDetails.address details)
                    (CompanyDetails.phone details) (CompanyDetails.email details)
                    (CompanyDetails.bankName details) (CompanyDetails.accountHolder details)
                    (CompanyDetails.accountNumber details) (CompanyDetails.ifscCode details)
                    (CompanyDetails.upiId details) (CompanyDetails.upiQrCode details)
                    (CompanyDetails.defaultNotes details)
                    (CompanyDetails.defaultTaxRate details) None) /\
    handleSaveSettings details w =
      (Returned tt,
       mkWorld
         (mkApp (view (app w)) (quotes (app w)) (selectedQuote (app w)) false saved
            (isAuthenticated (app w)) (isAppReady (app w)))
         (mkStorage (<["companyDetails" := JSON_stringify_details saved]>
                       (items (localStorage w)))
            (denied (localStorage w)) (accepts (localStorage w)))
         (sessionStorage w)).
Proof.
  intros [Hd Ha]. eexists. split; [reflexivity |].
  unfold App.handleSaveSettings, try_catch, bind, setItem, the_store, with_items.
  rewrite Hd, Ha. destruct (JS.truthy (CompanyDetails.password details)); reflexivity.
Qed.

(** X13.  Saving the settings never stores an empty password: a password
    that is missing or empty is removed from the details before they are
    stored and put in the state, every other field is kept, and the dialog
    closes.  The authentication state, the session store and the quotes are
    not touched.  If the local store refuses the write, nothing changes and
    the dialog stays open. *)
Theorem saved_settings_hold_no_empty_password (details : CompanyDetails.t) (w : World) :
  let r := handleSaveSettings details w in
  let saved := companyDetails (app (snd r)) in
  fst r = Returned tt /\
  (App.details_writable w ->
   saved =
     (if JS.truthy (CompanyDetails.password details) then details
      else CompanyDetails.mk
             (CompanyDetails.name details) (CompanyDetails.address details)
             (CompanyDetails.phone details) (CompanyDetails.email details)
             (CompanyDetails.bankName details) (CompanyDetails.accountHolder details)
             (CompanyDetails.accountNumber details) (CompanyDetails.ifscCode details)
             (CompanyDetails.upiId details) (CompanyDetails.upiQrCode details)
             (CompanyDetails.defaultNotes details)
             (CompanyDetails.defaultTaxRate details) None) /\
   JS.truthy (CompanyDetails.password saved) = JS.truthy (CompanyDetails.password details) /\
   items (localStorage (snd r)) !! "companyDetails" = Some (JSON_stringify_details saved) /\
   isSettingsOpen (app (snd r)) = false /\
   isAuthenticated (app (snd r)) = isAuthenticated (app w) /\
   quotes (app (snd r)) = quotes (app w) /\
   sessionStorage (snd r) = sessionStorage w /\
   items (localStorage (snd r)) !! "tyreQuotes" = items (localStorage w) !! "tyreQuotes") /\
  (denied (localStorage w) = true -> snd r = w).
Proof.
  intros r saved. split; [| split].
  - subst r. unfold App.handleSaveSettings, try_catch, bind, setItem, the_store.
    destruct (_ || _); reflexivity.
  - intros Hw. destruct (handleSaveSettings_ok details w Hw) as (sv & Hsv & Hrun).
    subst saved r. rewrite Hrun. cbn [snd app companyDetails localStorage items
      isSettingsOpen isAuthenticated quotes sessionStorage].
    split; [exact Hsv |]. split; [| split; [apply lookup_insert_eq | repeat split]].
    + subst sv. destruct (JS.truthy (CompanyDetails.password details)) eqn:Hp;
        [exact Hp | reflexivity].
    + now apply lookup_insert_ne.
  - intros Hd. subst r. unfold App.handleSaveSettings, try_catch, bind, setItem, the_store.
    rewrite Hd. reflexivity.
Qed.

Section RoundTrip.

(** What the next theorem needs of [JSON]: the text of a record is not empty,
    and parsing it gives back the password field as it was written, present
    or absent. *)
Hypothesis stringify_nonempty : forall d, JSON_stringify_details d <> EmptyString.
Hypothesis password_round_trip :
  forall d, exists p,
    JSON_parse_details (JSON_stringify_details d) = Some p /\
    CompanyDetails.p_password p = CompanyDetails.password d.



End RoundTrip.

(** X15.  What a blank field of the settings dialog means.  Clearing the
    password input and saving removes the password, while any other text
    becomes the password.  Clearing the default tax rate and saving makes
    new quotes start at 18 percent, while a rate that is typed in, zero
    included, is the rate new quotes start with. *)
Theorem blank_settings_fields (parseFloat : string -> float) (value : string)
    (current : CompanyDetails.t) (w : World) :
  App.details_writable w ->
  let saved_after edit :=
    companyDetails (app (snd (SettingsModal.handleSubmit handleSaveSettings (edit current) w))) in
  CompanyDetails.password (saved_after (SettingsModal.handleChange SettingsModal.password value))
    = (if String.eqb value EmptyString then None else Some value) /\
  (forall uuid1 uuid2 today now quotes,
     Quotation.taxRate
       (FormState.initialQuote None uuid1 uuid2 today now quotes
          (saved_after (SettingsModal.handleNumericChange parseFloat value)))
     = (if String.eqb value EmptyString then 18%float else parseFloat value)).
Proof.
  intros Hw saved_after. subst saved_after. cbv beta. unfold SettingsModal.handleSubmit. split.
  - destruct (handleSaveSettings_ok
                (SettingsModal.handleChange SettingsModal.password value current) w Hw)
      as (saved & Hsaved & ->).
    cbn [snd app companyDetails]. subst saved. cbn.
    destruct value; reflexivity.
  - intros uuid1 uuid2 today now quotes.
    destruct (handleSaveSettings_ok
                (SettingsModal.handleNumericChange parseFloat value current) w Hw)
      as (saved & Hsaved & ->).
    cbn [snd app companyDetails]. subst saved. cbn.
    destruct (JS.truthy (CompanyDetails.password current)); cbn;
      destruct (String.eqb value EmptyString); reflexivity.
Qed.

End WithJSON.


(** The password input and the default tax rate are cleared. *)
Lemma blank_settings_fields_witness :
  let stringify := Examples.password_text in
  let w := mkWorld (mkApp list_view [] None true Examples.abc_details true true)
             Examples.empty_store Examples.empty_store in
  App.details_writable w /\
  CompanyDetails.password
    (companyDetails
       (app (snd (SettingsModal.handleSubmit (App.handleSaveSettings stringify)
                    (SettingsModal.handleChange SettingsModal.password EmptyString
                       Examples.abc_details) w)))) = None.
Proof.
  intros stringify w.
  assert (Hw : App.details_writable w) by (split; [reflexivity | intros text; reflexivity]).
  split; [exact Hw |].
  exact (proj1 (blank_settings_fields stringify (fun _ => 0%float) EmptyString
                  Examples.abc_details w Hw)).
Defined.

End SettingsLaws.

(** ** The edit form *)

Module FormLaws.

Lemma with_lineItems_same quote : FormState.with_lineItems quote (Quotation.lineItems quote) = quote.
Proof. now destruct quote. Qed.

Lemma filter_index_skip {A} (index i0 : nat) (l : list A) :
  (index < i0)%nat ->
  FormState.filter_index (fun i => negb (i =? index)%nat) i0 l = l.
Proof.
  revert i0. induction l as [| x l IH]; intros i0 Hlt; cbn; [reflexivity |].
  destruct (Nat.eqb_spec i0 index) as [-> | _]; [lia |]. cbn. f_equal. apply IH. lia.
Qed.

Lemma filter_index_remove {A} (index i0 : nat) (l : list A) :
  (i0 <= index)%nat ->
  FormState.filter_index (fun i => negb (i =? index)%nat) i0 l
  = take (index - i0) l ++ drop (S (index - i0)) l.
Proof.
  revert i0. induction l as [| x l IH]; intros i0 Hle; cbn [FormState.filter_index].
  - now rewrite take_nil, drop_nil.
  - destruct (Nat.eqb_spec i0 index) as [-> | Hne]; cbn [negb].
    + rewrite Nat.sub_diag. cbn. apply filter_index_skip. lia.
    + rewrite (IH (S i0)) by lia.
      replace (index - i0)%nat with (S (index - S i0)) by lia. reflexivity.
Qed.

(** X16.  Removing a line never empties the form: with one line (or none)
    nothing happens.  With two or more lines exactly the line at the index is
    removed, the others keep their order, and an index beyond the last line
    removes nothing.  No other field of the quote changes. *)
Theorem remove_keeps_a_line (index : nat) (quote : Quotation.t) :
  let items := Quotation.lineItems quote in
  let quote' := FormState.removeLineItem index quote in
  let items' := Quotation.lineItems quote' in
  quote' = FormState.with_lineItems quote items' /\
  ((length items <= 1)%nat -> quote' = quote) /\
  ((length items <= index)%nat -> quote' = quote) /\
  ((2 <= length items)%nat -> (index < length items)%nat ->
   items' = take index items ++ drop (S index) items /\
   (length items' + 1 = length items)%nat) /\
  ((1 <= length items)%nat -> (1 <= length items')%nat).
Proof.
  intros items quote' items'. subst items' quote'. unfold FormState.removeLineItem. fold items.
  assert (Hrem : FormState.filter_index (fun i => negb (i =? index)%nat) 0 items
                 = take index items ++ drop (S index) items).
  { rewrite filter_index_remove by lia. now rewrite Nat.sub_0_r. }
  rewrite Hrem.
  destruct (Nat.leb_spec (length items) 1) as [Hone | Hmany].
  - fold items. split; [now rewrite with_lineItems_same |]. repeat split; try lia.
  - assert (Hlen : (index < length items)%nat ->
                   (length (take index items ++ drop (S index) items) + 1 = length items)%nat).
    { intros Hi. rewrite length_app, length_take, length_drop. lia. }
    split; [now destruct quote |]. split; [lia |]. split; [| split].
    + intros Hout. rewrite take_ge, drop_ge, app_nil_r by lia. apply with_lineItems_same.
    + intros _ Hi. split; [now destruct quote | now apply Hlen].
    + intros _. cbn [Quotation.lineItems FormState.with_lineItems].
      destruct (Nat.lt_ge_cases index (length items)) as [Hi | Hout].
      * specialize (Hlen Hi). lia.
      * rewrite take_ge, drop_ge, app_nil_r by lia. lia.
Qed.

Lemma removeLineItem_shape (index : nat) (quote : Quotation.t) :
  let quote' := FormState.removeLineItem index quote in
  quote' = FormState.with_lineItems quote (Quotation.lineItems quote') /\
  ((1 <= length (Quotation.lineItems quote))%nat ->
   (1 <= length (Quotation.lineItems quote'))%nat).
Proof.
  cbv zeta. unfold FormState.removeLineItem.
  destruct (Nat.leb_spec (length (Quotation.lineItems quote)) 1) as [Hone | Hmany].
  - split; [now rewrite with_lineItems_same | auto].
  - split; [now destruct quote |]. intros _.
    cbn [Quotation.lineItems FormState.with_lineItems].
    rewrite filter_index_remove by lia.
    rewrite Nat.sub_0_r, length_app, length_take, length_drop. lia.
Qed.

Lemma step_identity (Number : string -> float) (quote : Quotation.t) (a : FormState.action) :
  let quote' := FormState.step Number quote a in
  Quotation.id quote' = Quotation.id quote /\
  Quotation.quoteNumber quote' = Quotation.quoteNumber quote /\
  Quotation.discount quote' = Quotation.discount quote /\
  Quotation.taxRate quote' = Quotation.taxRate quote /\
  (Quotation.lineItems quote <> [] -> Quotation.lineItems quote' <> []).
Proof.
  destruct a as [c | index field value | uuid | index]; cbn [FormState.step].
  - repeat split. auto.
  - unfold FormState.handleLineItemChange.
    destruct (Quotation.lineItems quote !! index) as [item |] eqn:Hi; [| repeat split; auto].
    repeat split. cbn. intros _ Hnil.
    apply (f_equal length) in Hnil. rewrite length_insert in Hnil.
    apply lookup_lt_Some in Hi. cbn in Hnil. lia.
  - repeat split. cbn. intros _ Hnil. now apply app_eq_nil in Hnil as [_ ?].
  - pose proof (removeLineItem_shape index quote) as (Heq & Hne).
    cbv zeta in Heq, Hne. rewrite Heq. repeat split.
    cbn [Quotation.lineItems FormState.with_lineItems]. intros Hq Hnil.
    rewrite Hnil in Hne. destruct (Quotation.lineItems quote); [congruence |].
    cbn in Hne. lia.
Qed.

Lemma steps_identity (Number : string -> float) (actions : list FormState.action)
    (quote : Quotation.t) :
  let quote' := fold_left (FormState.step Number) actions quote in
  Quotation.id quote' = Quotation.id quote /\
  Quotation.quoteNumber quote' = Quotation.quoteNumber quote /\
  (Quotation.lineItems quote <> [] -> Quotation.lineItems quote' <> []).
Proof.
  revert quote. induction actions as [| a actions IH]; intros quote; cbn; [auto |].
  destruct (step_identity Number quote a) as (Hid & Hnum & _ & _ & Hne).
  destruct (IH (FormState.step Number quote a)) as (Hid' & Hnum' & Hne').
  cbv zeta in *. repeat split; [congruence | congruence | auto].
Qed.

(** X17.  Whatever the operator does to the lines and the text inputs of the
    form, the quote keeps its identifier and its quote number, and a form
    that has a line keeps at least one.  So a quote that was opened from the
    collection is written back over itself when the form is submitted: the
    collection keeps its length and its identifiers. *)
Theorem edited_quote_replaces_itself (Number : string -> float)
    (actions : list FormState.action) (id : string) (w : World)
    (uuid1 uuid2 today : string) (now : JSDate) :
  id ∈ map Quotation.id (quotes (app w)) ->
  let qs := quotes (app w) in
  let opened :=
    FormState.initialQuote (selectedQuote (app (snd (App.handleEditQuote id w))))
      uuid1 uuid2 today now qs (companyDetails (app w)) in
  let edited := fold_left (FormState.step Number) actions opened in
  opened ∈ qs /\ Quotation.id opened = id /\
  Quotation.id edited = id /\ Quotation.quoteNumber edited = Quotation.quoteNumber opened /\
  (Quotation.lineItems opened <> [] -> Quotation.lineItems edited <> []) /\
  map Quotation.id (App.updatedQuotes_on_save qs edited) = map Quotation.id qs /\
  length (App.updatedQuotes_on_save qs edited) = length qs.
Proof.
  intros Hin qs opened edited.
  destruct (StoreLaws.handleEditQuote_selects id w Hin) as (i & q & Hi & Hid & Hsel).
  assert (Hopened : opened = q) by (subst opened; now rewrite Hsel).
  destruct (steps_identity Number actions opened) as (Hid' & Hnum' & Hne').
  fold edited in Hid', Hnum', Hne'.
  assert (Hids : map Quotation.id (App.updatedQuotes_on_save qs edited) = map Quotation.id qs).
  { rewrite StoreLaws.save_ids.
    replace (existsb _ qs) with true; [reflexivity |].
    symmetry. apply StoreLaws.existsb_same_id. rewrite Hid', Hopened, Hid. exact Hin. }
  split; [rewrite Hopened; now apply (list_elem_of_lookup_2 _ i) |].
  split; [now rewrite Hopened |]. split; [now rewrite Hid', Hopened |].
  split; [exact Hnum' |]. split; [exact Hne' |]. split; [exact Hids |].
  apply (f_equal length) in Hids. now rewrite !length_map in Hids.
Qed.

(** The second of two quotes is opened, a line is added and named, the first
    line is removed, and the form is submitted. *)
Lemma edited_quote_replaces_itself_witness :
  let w := mkWorld
             (mkApp list_view [Examples.quote_for "a" "Asha"; Examples.quote_for "b" "Bala"]
                None false defaultCompanyDetails true true)
             Examples.empty_store Examples.empty_store in
  let actions :=
    [FormState.add_item "u"; FormState.add_item "v";
     FormState.change_item 1 FormState.item_description "Tyre";
     FormState.remove_item 0] in
  let edited := fold_left (FormState.step (fun _ => 1%float)) actions
                  (Examples.quote_for "b" "Bala") in
  "b" ∈ map Quotation.id (quotes (app w)) /\
  length (Quotation.lineItems edited) = 1%nat /\
  map Quotation.id (App.updatedQuotes_on_save (quotes (app w)) edited) = ["a"; "b"].
Proof.
  intros w actions edited.
  assert (Hin : "b" ∈ map Quotation.id (quotes (app w))) by (repeat constructor).
  split; [exact Hin |]. split; [reflexivity |].
  pose proof (edited_quote_replaces_itself (fun _ => 1%float) actions "b" w
                EmptyString EmptyString EmptyString Examples.a_date Hin)
    as (_ & _ & _ & _ & _ & Hids & _).
  exact Hids.
Defined.

End FormLaws.

(** ** The pricing computation: zero lines, new lines, signs *)

Module PricingEdges.

Import Binary64 Rounding Float64 Signs.
Local Open Scope float_scope.

Lemma add_zero_r x : Prim2SF x <> S754_zero true -> x + 0 = x.
Proof.
  intros Hnz. apply Prim2SF_inj. rewrite FloatAxioms.add_spec, Prim2SF_zero.
  unfold SF64add, SFadd.
  destruct (Prim2SF x) as [[|] | sx | | sx mx ex]; [congruence | reflexivity.. ].
Qed.

Lemma fold_not_neg_zero (items : list LineItem.t) (acc : float) :
  Prim2SF acc <> S754_zero true ->
  Prim2SF (fold_left (fun acc item => acc + LineItem.quantity item * LineItem.unitAmount item)
             items acc) <> S754_zero true.
Proof.
  revert acc. induction items as [| item items IH]; intros acc Hacc; [exact Hacc |].
  cbn [fold_left]. apply IH. rewrite FloatAxioms.add_spec.
  apply SFadd_not_neg_zero; [apply Prim2SF_valid | apply Prim2SF_valid | exact Hacc].
Qed.

(** The gross total is never negative zero. *)
Lemma grossTotal_not_neg_zero (items : list LineItem.t) :
  Prim2SF (grossTotal_of items) <> S754_zero true.
Proof. apply fold_not_neg_zero. discriminate. Qed.

Lemma zero_div d : (1 <? d) = true -> 0 / d = 0.
Proof.
  intros Hd. apply Prim2SF_inj. rewrite FloatAxioms.div_spec, Prim2SF_zero.
  destruct (above_one_cases d Hd) as [(m & e & ->) | ->]; reflexivity.
Qed.

(** With a zero gross total the subtotal and the tax are zero, whatever the
    tax rate is. *)
Lemma zero_gross (quote : Quotation.t) :
  grossTotal (QuotationForm.pricing quote) = 0 ->
  subtotal (QuotationForm.pricing quote) = 0 /\ totalTax (QuotationForm.pricing quote) = 0.
Proof.
  unfold QuotationForm.pricing. cbn [grossTotal subtotal totalTax]. intros ->.
  destruct (1 <? _) eqn:Hd; [rewrite (zero_div _ Hd) |]; split; reflexivity.
Qed.

(** X18.  A line that was just added counts for nothing: adding a line
    leaves every total of the form exactly as it was, and the form has one
    line more. *)
Theorem added_line_changes_no_total (uuid : string) (quote : Quotation.t) :
  let quote' := FormState.addLineItem uuid quote in
  QuotationForm.pricing quote' = QuotationForm.pricing quote /\
  QuotationForm.totals quote' = QuotationForm.totals quote /\
  length (Quotation.lineItems quote') = S (length (Quotation.lineItems quote)) /\
  last (Quotation.lineItems quote') = Some (LineItem.mk uuid EmptyString 1 0).
Proof.
  intros quote'.
  assert (Hg : grossTotal_of (Quotation.lineItems quote')
               = grossTotal_of (Quotation.lineItems quote)).
  { subst quote'. cbn [FormState.addLineItem FormState.with_lineItems Quotation.lineItems].
    rewrite GrossTotal.grossTotal_of_snoc. cbn [LineItem.quantity LineItem.unitAmount].
    change (1 * 0) with 0. apply add_zero_r, grossTotal_not_neg_zero. }
  assert (Hp : QuotationForm.pricing quote' = QuotationForm.pricing quote).
  { unfold QuotationForm.pricing. fold (grossTotal_of (Quotation.lineItems quote')).
    fold (grossTotal_of (Quotation.lineItems quote)). rewrite Hg. reflexivity. }
  split; [exact Hp |]. split; [unfold QuotationForm.totals; now rewrite Hp |].
  subst quote'. cbn [FormState.addLineItem FormState.with_lineItems Quotation.lineItems].
  split; [rewrite length_app; cbn; lia | apply last_snoc].
Qed.

(** X19.  A new quote starts with one line and with every total at zero,
    whatever default tax rate is configured.  Its tax rate is the configured
    default, zero included, and 18 when none is configured; its notes are the
    configured default notes, or the standard text when those are missing or
    empty.  A quote that is opened for editing is shown as it is. *)
Theorem new_quote_defaults (uuid1 uuid2 today : string) (now : JSDate)
    (quotes : list Quotation.t) (companyDetails : CompanyDetails.t) :
  let quote := FormState.initialQuote None uuid1 uuid2 today now quotes companyDetails in
  length (Quotation.lineItems quote) = 1%nat /\
  QuotationForm.pricing quote
    = mkPricing (taxDivisor (QuotationForm.pricing quote)) 0 0 0 0 0 0 /\
  QuotationForm.totals quote = mkTotals 0 0 0 0 /\
  Quotation.quoteNumber quote = generateQuoteNumber quotes now /\
  (forall rate, CompanyDetails.defaultTaxRate companyDetails = Some rate ->
     Quotation.taxRate quote = rate) /\
  (CompanyDetails.defaultTaxRate companyDetails = None -> Quotation.taxRate quote = 18) /\
  (forall text, CompanyDetails.defaultNotes companyDetails = Some text ->
     text <> EmptyString -> Quotation.notes quote = text) /\
  (CompanyDetails.defaultNotes companyDetails = None \/
   CompanyDetails.defaultNotes companyDetails = Some EmptyString ->
   Quotation.notes quote = FormState.standardNotes) /\
  (forall data,
     FormState.initialQuote (Some data) uuid1 uuid2 today now quotes companyDetails = data).
Proof.
  intros quote.
  assert (Hg : grossTotal (QuotationForm.pricing quote) = 0) by reflexivity.
  destruct (zero_gross quote Hg) as [Hs Ht].
  assert (Hp : QuotationForm.pricing quote
               = mkPricing (taxDivisor (QuotationForm.pricing quote)) 0 0 0 0 0 0).
  { change (QuotationForm.pricing quote)
      with (mkPricing (taxDivisor (QuotationForm.pricing quote)) 0
              (subtotal (QuotationForm.pricing quote))
              (totalTax (QuotationForm.pricing quote)) 0 0 0) at 1.
    now rewrite Hs, Ht. }
  split; [reflexivity |]. split; [exact Hp |].
  split; [unfold QuotationForm.totals; rewrite Hp; reflexivity |].
  split; [reflexivity |].
  subst quote. cbn [FormState.initialQuote Quotation.taxRate Quotation.notes].
  split; [now intros rate -> |]. split; [now intros -> |].
  split; [intros text -> Hne; now rewrite (GateStartup.truthy_nonempty _ Hne) |].
  split; [intros [-> | ->]; reflexivity | reflexivity].
Qed.

Lemma nonneg_finite_of x :
  JS.isFinite x = true -> (0 <=? x) = true -> nonneg_finite (Prim2SF x).
Proof.
  unfold JS.isFinite. rewrite FloatAxioms.leb_spec, Prim2SF_zero. unfold SFleb.
  destruct (Prim2SF x) as [s | s | | [|] m e]; cbn; try discriminate; auto.
Qed.

Lemma nonneg_leb x : nonneg_number (Prim2SF x) -> (0 <=? x) = true.
Proof.
  rewrite FloatAxioms.leb_spec, Prim2SF_zero. unfold SFleb.
  destruct (Prim2SF x) as [s | [|] | | [|] m e]; cbn; try contradiction; reflexivity.
Qed.

Lemma fold_nonneg (items : list LineItem.t) (acc : float) :
  Forall (fun item => nonneg_finite (Prim2SF (LineItem.quantity item)) /\
                      nonneg_finite (Prim2SF (LineItem.unitAmount item))) items ->
  nonneg_number (Prim2SF acc) ->
  nonneg_number
    (Prim2SF (fold_left (fun acc item => acc + LineItem.quantity item * LineItem.unitAmount item)
                items acc)).
Proof.
  intros Hall. revert acc. induction Hall as [| item items [Hq Hu] _ IH]; intros acc Hacc;
    [exact Hacc |].
  cbn [fold_left]. apply IH. rewrite FloatAxioms.add_spec, FloatAxioms.mul_spec.
  apply SFadd_nonneg; [exact Hacc | now apply SFmul_nonneg].
Qed.

(** X20.  When every quantity and unit amount is a finite number that is not
    negative, the gross total is not negative, and it is a number: zero, a
    positive number, or [Infinity] when the sum overflows, never [NaN]. *)
Theorem grossTotal_is_not_negative (quote : Quotation.t) :
  Forall (fun item =>
            JS.isFinite (LineItem.quantity item) = true /\
            (0 <=? LineItem.quantity item) = true /\
            JS.isFinite (LineItem.unitAmount item) = true /\
            (0 <=? LineItem.unitAmount item) = true) (Quotation.lineItems quote) ->
  let G := grossTotal (QuotationForm.pricing quote) in
  (0 <=? G) = true /\ (G <? 0) = false /\ (G =? G) = true.
Proof.
  intros Hall G.
  assert (Hn : nonneg_number (Prim2SF G)).
  { apply fold_nonneg; [| exact I].
    eapply Forall_impl; [exact Hall |]. cbn. intros item (Hq & Hq0 & Hu & Hu0).
    split; now apply nonneg_finite_of. }
  split; [now apply nonneg_leb |]. split.
  - apply leb_not_ltb. now apply nonneg_leb.
  - rewrite FloatAxioms.eqb_spec. unfold SFeqb.
    destruct (Prim2SF G) as [s | [|] | | [|] m e]; cbn in Hn |- *; try contradiction;
      try reflexivity.
    now rewrite Z.compare_refl, Pos.compare_cont_refl.
Qed.

(** Two tyres at 100 and three at 250.50. *)
Lemma grossTotal_is_not_negative_witness :
  let quote := Examples.quote_of [Examples.item 2 100; Examples.item 3 250.5] 0 18 in
  (0 <=? grossTotal (QuotationForm.pricing quote)) = true.
Proof.
  intros quote.
  assert (H : Forall (fun item =>
                        JS.isFinite (LineItem.quantity item) = true /\
                        (0 <=? LineItem.quantity item) = true /\
                        JS.isFinite (LineItem.unitAmount item) = true /\
                        (0 <=? LineItem.unitAmount item) = true) (Quotation.lineItems quote))
    by (repeat constructor).
  exact (proj1 (grossTotal_is_not_negative quote H)).
Defined.

End PricingEdges.

(** ** Quote numbers: the series of a day *)

Module NumberSeries.

Import QuoteNumber.

Abbreviation same_day date := (fun q => JS.startsWith (Quotation.quoteNumber q) (datePrefix date)).
Abbreviation count date qs := (length (List.filter (same_day date) qs)).

Lemma generated_number qs date :
  generateQuoteNumber qs date =
  String.append (datePrefix date)
    (String.append "-" (JS.padStart (JS.toString (N.of_nat (count date qs) + 1)) 4 "0")).
Proof. reflexivity. Qed.

Lemma generated_is_same_day qs date q :
  Quotation.quoteNumber q = generateQuoteNumber qs date -> same_day date q = true.
Proof. intros H. cbv beta. rewrite H. apply startsWith_iff. eexists. apply generated_number. Qed.

Lemma save_fresh qs q :
  Quotation.id q ∉ map Quotation.id qs -> App.updatedQuotes_on_save qs q = qs ++ [q].
Proof.
  induction qs as [| a qs IH]; [reflexivity |]. cbn [map]. intros Hn.
  apply not_elem_of_cons in Hn as [Hne Hn]. rewrite StoreLaws.save_cons.
  destruct (String.eqb_spec (Quotation.id a) (Quotation.id q)); [congruence |].
  now rewrite IH.
Qed.

Lemma delete_absent qs id :
  id ∉ map Quotation.id qs -> App.updatedQuotes_on_delete qs id = qs.
Proof.
  induction qs as [| a qs IH]; [reflexivity |]. cbn [map]. intros Hn.
  apply not_elem_of_cons in Hn as [Hne Hn]. rewrite StoreLaws.delete_cons.
  destruct (String.eqb_spec (Quotation.id a) id); [congruence |]. now rewrite IH.
Qed.

Lemma delete_app qs qs' id :
  App.updatedQuotes_on_delete (qs ++ qs') id =
  App.updatedQuotes_on_delete qs id ++ App.updatedQuotes_on_delete qs' id.
Proof. unfold App.updatedQuotes_on_delete. apply List.filter_app. Qed.

(** With distinct identifiers, deleting a quote of the day lowers the count
    of the day by one. *)
Lemma count_after_delete date qs r :
  List.NoDup (map Quotation.id qs) -> r ∈ qs -> same_day date r = true ->
  S (count date (App.updatedQuotes_on_delete qs (Quotation.id r))) = count date qs.
Proof.
  induction qs as [| a qs IH]; intros Hnd Hin Hr; [inversion Hin |].
  cbn [map] in Hnd. apply List.NoDup_cons_iff in Hnd as [Hna Hnd].
  rewrite StoreLaws.delete_cons. apply elem_of_cons in Hin as [-> | Hin].
  - rewrite String.eqb_refl, delete_absent by (now rewrite list_elem_of_In).
    cbn [List.filter]. now rewrite Hr.
  - destruct (String.eqb_spec (Quotation.id a) (Quotation.id r)) as [Heq | Hne].
    + exfalso. apply Hna. rewrite Heq. apply in_map. now apply list_elem_of_In.
    + cbn [List.filter]. specialize (IH Hnd Hin Hr).
      destruct (same_day date a); cbn [length]; lia.
Qed.

(** X21.  Serials follow the count of the day, not the numbers in use.  When
    a new quote is saved under the number that was generated for it, the next
    number has the next serial.  But if an older quote of the same day is
    then deleted, the generator gives the number of the new quote again,
    while that quote is still in the collection. *)
Theorem deleting_reissues_a_number (qs : list Quotation.t) (q r : Quotation.t) (date : JSDate) :
  List.NoDup (map Quotation.id qs) ->
  Quotation.id q ∉ map Quotation.id qs ->
  Quotation.quoteNumber q = generateQuoteNumber qs date ->
  r ∈ qs ->
  JS.startsWith (Quotation.quoteNumber r) (datePrefix date) = true ->
  let saved := App.updatedQuotes_on_save qs q in
  let after := App.updatedQuotes_on_delete saved (Quotation.id r) in
  generateQuoteNumber saved date =
    String.append (datePrefix date)
      (String.append "-" (JS.padStart (JS.toString (N.of_nat (count date qs) + 2)) 4 "0")) /\
  q ∈ after /\
  generateQuoteNumber after date = Quotation.quoteNumber q.
Proof.
  intros Hnd Hfresh Hnum Hin Hr saved after.
  assert (Hsaved : saved = qs ++ [q]) by now apply save_fresh.
  assert (Hq : same_day date q = true) by now apply (generated_is_same_day qs).
  assert (Hne : Quotation.id q <> Quotation.id r).
  { intros Heq. apply Hfresh. rewrite Heq, list_elem_of_In. apply in_map.
    now apply list_elem_of_In. }
  assert (Hafter : after = App.updatedQuotes_on_delete qs (Quotation.id r) ++ [q]).
  { subst after. rewrite Hsaved, delete_app. f_equal.
    rewrite StoreLaws.delete_cons.
    destruct (String.eqb_spec (Quotation.id q) (Quotation.id r)); [contradiction | reflexivity]. }
  split; [| split].
  - rewrite generated_number, Hsaved, List.filter_app, length_app. cbn [List.filter].
    rewrite Hq. cbn [length]. do 4 f_equal. lia.
  - rewrite Hafter. apply elem_of_app. right. apply list_elem_of_singleton. reflexivity.
  - rewrite Hnum, !generated_number, Hafter, List.filter_app, length_app. cbn [List.filter].
    rewrite Hq. cbn [length].
    pose proof (count_after_delete date qs r Hnd Hin Hr) as Hc.
    do 4 f_equal. lia.
Qed.

Lemma append_inj_l p a b : String.append p a = String.append p b -> a = b.
Proof. induction p as [| c p IH]; [auto |]. rewrite !app_cons. intros [= H]. auto. Qed.

Lemma append_snoc_inj s t c d :
  String.append s (String c EmptyString) = String.append t (String d EmptyString) ->
  s = t /\ c = d.
Proof.
  revert t. induction s as [| a s IH]; intros [| b t]; cbn.
  - intros [= ->]. auto.
  - destruct t; discriminate.
  - destruct s; discriminate.
  - intros [= -> H]. destruct (IH t H) as [-> ->]. auto.
Qed.

Lemma digit_inj a b : (a < 10)%N -> (b < 10)%N -> JS.digit a = JS.digit b -> a = b.
Proof.
  intros Ha Hb H. unfold JS.digit in H. apply (f_equal N_of_ascii) in H.
  rewrite !N_ascii_embedding in H by lia. lia.
Qed.

(** Numerals of [k] digits tell the numbers below [10^k] apart. *)
Lemma decimal_inj k : forall n m,
  (n < 10 ^ N.of_nat k)%N -> (m < 10 ^ N.of_nat k)%N -> decimal k n = decimal k m -> n = m.
Proof.
  induction k as [| k IH]; intros n m Hn Hm H.
  - cbn in Hn, Hm. lia.
  - cbn [decimal] in H. apply append_snoc_inj in H as [Hhigh Hlow].
    rewrite Nat2N.inj_succ, N.pow_succ_r' in Hn, Hm.
    apply digit_inj in Hlow; [| apply N.mod_lt; lia | apply N.mod_lt; lia].
    apply IH in Hhigh; [| apply N.Div0.div_lt_upper_bound; lia
                        | apply N.Div0.div_lt_upper_bound; lia].
    rewrite (N.div_mod n 10), (N.div_mod m 10) by lia. congruence.
Qed.

(** X22.  While the serials in use do not run ahead of the count (every
    quote of the day carries a four-digit serial between one and the number
    of quotes of the day) and the next serial has four digits, the number
    that is generated is carried by no quote of the collection. *)
Theorem number_is_fresh_without_gaps (qs : list Quotation.t) (date : JSDate) :
  (N.of_nat (count date qs) + 1 < 10000)%N ->
  Forall (fun q =>
            JS.startsWith (Quotation.quoteNumber q) (datePrefix date) = true ->
            exists serial : N,
              (1 <= serial <= N.of_nat (count date qs))%N /\
              Quotation.quoteNumber q =
                String.append (datePrefix date) (String.append "-" (decimal 4 serial))) qs ->
  generateQuoteNumber qs date ∉ map Quotation.quoteNumber qs.
Proof.
  intros Hmax Hall Hin.
  apply list_elem_of_In, in_map_iff in Hin as (q & Heq & Hq).
  rewrite Forall_forall in Hall. apply list_elem_of_In in Hq.
  destruct (Hall q Hq) as (serial & Hrange & Hnum).
  { now apply (generated_is_same_day qs). }
  rewrite Hnum, generated_number in Heq.
  apply append_inj_l, append_inj_l in Heq.
  rewrite (padStart_decimal 3) in Heq by exact Hmax.
  apply decimal_inj in Heq; [lia | | exact Hmax].
  change (10 ^ N.of_nat 4)%N with 10000%N. lia.
Qed.

(** The first quote of the day is deleted after the second was saved: the
    third quote gets the number of the second. *)
Lemma deleting_reissues_a_number_witness :
  let r := Examples.numbered_quote "a" "QT-021126-0001" in
  let q := Examples.numbered_quote "b" "QT-021126-0002" in
  let after := App.updatedQuotes_on_delete (App.updatedQuotes_on_save [r] q) "a" in
  after = [q] /\ generateQuoteNumber after Examples.a_date = "QT-021126-0002".
Proof.
  intros r q after. split; [reflexivity |].
  assert (Hnd : List.NoDup (map Quotation.id [r])).
  { constructor; [intros [] | constructor]. }
  assert (Hfresh : Quotation.id q ∉ map Quotation.id [r]).
  { intros H. apply list_elem_of_singleton in H. discriminate. }
  assert (Hin : r ∈ [r]) by constructor.
  exact (proj2 (proj2 (deleting_reissues_a_number [r] q r Examples.a_date Hnd Hfresh eq_refl
                         Hin eq_refl))).
Defined.

(** One quote of the day, numbered 0001. *)
Lemma number_is_fresh_without_gaps_witness :
  let r := Examples.numbered_quote "a" "QT-021126-0001" in
  generateQuoteNumber [r] Examples.a_date ∉ map Quotation.quoteNumber [r].
Proof.
  intros r.
  apply (number_is_fresh_without_gaps [r] Examples.a_date); [reflexivity |].
  constructor; [| constructor]. intros _. exists 1%N. split; [split; reflexivity | reflexivity].
Defined.

End NumberSeries.

(** ** The pricing computation: the round-off *)

Module RoundOff.

Import Binary64 Rounding Float64 ExactDifference.
Local Open Scope Z_scope.

Lemma half_bound (C c : Z) :
  c <= 0 -> 2 * Z.abs C <= 2 ^ (- c) -> (Qabs (inject_Z C * 2 ^ c) <= 1 # 2)%Q.
Proof.
  intros Hc Hb. rewrite Qabs_Qmult.
  change (Qabs (inject_Z C)) with (inject_Z (Z.abs C)).
  rewrite (Qabs_pos (2 ^ c)) by (apply Qlt_le_weak, Qpow2_pos).
  rewrite Zle_Qle, inject_Z_mult, (Zpower_Qpower 2 (- c)) in Hb by lia.
  change (inject_Z 2) with 2%Q in Hb.
  assert (Hone : (2 ^ (- c) * 2 ^ c == 1)%Q).
  { rewrite <- Qpower_plus by discriminate. now replace (- c + c) with 0 by lia. }
  pose proof (Qpow2_pos c) as Hp.
  assert (Hmul : (2 * inject_Z (Z.abs C) * 2 ^ c <= 2 ^ (- c) * 2 ^ c)%Q)
    by (apply Qmult_le_compat_r; [exact Hb | now apply Qlt_le_weak]).
  rewrite Hone in Hmul.
  set (u := (inject_Z (Z.abs C) * 2 ^ c)%Q) in *.
  assert (Hmul' : (2 * u <= 1)%Q) by (subst u; now rewrite Qmult_assoc).
  clearbody u. lra.
Qed.

Lemma Math_round_unchanged x :
  match Prim2SF x with
  | S754_finite _ _ e => 0 <= e
  | _ => True
  end -> JS.Math_round x = x.
Proof.
  unfold JS.Math_round. destruct (Prim2SF x) as [s | s | | s m e]; try reflexivity.
  intros He. now replace (0 <=? e) with true by (symmetry; apply Z.leb_le; lia).
Qed.

(** X23.  Whenever the total after the discount is finite, the round-off is
    computed without error: it is exactly the grand total less the total
    after the discount, it is at most one half in magnitude, and the grand
    total is a whole number. *)
Theorem round_off_is_exact (quote : Quotation.t) :
  let p := QuotationForm.pricing quote in
  JS.isFinite (totalAfterDiscount p) = true ->
  exists g t r : Q,
    exact_value (grandTotal p) = Some g /\
    exact_value (totalAfterDiscount p) = Some t /\
    exact_value (roundOff p) = Some r /\
    (r == g - t)%Q /\ (Qabs r <= 1 # 2)%Q /\ exists z, (g == inject_Z z)%Q.
Proof.
  intros p. change (grandTotal p) with (JS.Math_round (totalAfterDiscount p)).
  change (roundOff p) with (JS.Math_round (totalAfterDiscount p) - totalAfterDiscount p)%float.
  generalize (totalAfterDiscount p). clear p quote. intros x.
  intros Hfin. pose proof (Prim2SF_valid x) as Hv.
  assert (Hsame : JS.Math_round x = x ->
            forall t z, exact_value x = Some t -> (t == inject_Z z)%Q ->
            exists g t r : Q,
              exact_value (JS.Math_round x) = Some g /\ exact_value x = Some t /\
              exact_value (JS.Math_round x - x)%float = Some r /\
              (r == g - t)%Q /\ (Qabs r <= 1 # 2)%Q /\ exists z, (g == inject_Z z)%Q).
  { intros Hr t z Ht Hz. exists t, t, 0%Q. rewrite Hr, (sub_diag x Hfin).
    split; [exact Ht |]. split; [exact Ht |]. split; [reflexivity |].
    split; [ring |]. split; [discriminate | now exists z]. }
  unfold JS.isFinite in Hfin.
  destruct (Prim2SF x) as [s | s | | s m e] eqn:Hx; try discriminate.
  - apply (Hsame (Math_round_unchanged x ltac:(now rewrite Hx)) 0%Q 0).
    + unfold exact_value. now rewrite Hx.
    + reflexivity.
  - destruct (Z.le_gt_cases 0 e) as [He | He].
    + destruct (integer_exact (S754_finite s m e) (cond_Zopp s (Z.pos m * 2 ^ e)))
        as (v & Hv1 & Hv2).
      { cbn [JS.integer_of_spec].
        now replace (0 <=? e) with true by (symmetry; apply Z.leb_le; lia). }
      apply (Hsame (Math_round_unchanged x ltac:(now rewrite Hx)) v
               (cond_Zopp s (Z.pos m * 2 ^ e))); [| exact Hv2].
      unfold exact_value. now rewrite Hx.
    + pose proof (nearest_integer_spec s m e ltac:(lia)) as Hn. cbv zeta in Hn.
      destruct (valid_finite s m e Hv) as (_ & He1 & He2 & Hd).
      assert (Hm : Z.pos m < 2 ^ 53).
      { pose proof (Zdigits2_bounds (Z.pos m) ltac:(lia)) as [_ Hhi].
        assert (2 ^ Zdigits2 (Z.pos m) <= 2 ^ 53) by (apply Z.pow_le_mono_r; lia). lia. }
      pose proof (nearest_integer_bound s m e ltac:(lia) Hm) as Hnb.
      assert (Ht : exact_value x = Some (inject_Z (cond_Zopp s (Z.pos m)) * 2 ^ e)%Q)
        by (unfold exact_value; now rewrite Hx).
      assert (Hpe : 0 < 2 ^ (- e)) by (apply Z.pow_pos_nonneg; lia).
      assert (Hround : JS.Math_round x =
                (if JS.nearest_integer s m e =? 0 then (if s then neg_zero else zero)
                 else JS.of_integer (JS.nearest_integer s m e))).
      { unfold JS.Math_round. rewrite Hx.
        now replace (0 <=? e) with false by (symmetry; apply Z.leb_gt; lia). }
      set (n := JS.nearest_integer s m e) in *.
      destruct (Z.eqb_spec n 0) as [Hn0 | Hn0].
      * assert (Hg : Prim2SF (JS.Math_round x) = S754_zero s)
          by (rewrite Hround; now destruct s).
        exists 0%Q, (inject_Z (cond_Zopp s (Z.pos m)) * 2 ^ e)%Q,
               (inject_Z (cond_Zopp (negb s) (Z.pos m)) * 2 ^ e)%Q.
        split; [unfold exact_value; now rewrite Hg |]. split; [exact Ht |].
        split; [unfold exact_value; rewrite FloatAxioms.sub_spec, Hg, Hx; reflexivity |].
        split; [| split; [| now exists 0]].
        -- rewrite (cond_Zopp_mul (negb s)), (cond_Zopp_mul s), !inject_Z_mult.
           assert (Hsign : (inject_Z (cond_Zopp (negb s) 1) == - inject_Z (cond_Zopp s 1))%Q)
             by (destruct s; reflexivity).
           rewrite Hsign. ring.
        -- apply half_bound; [lia |]. rewrite Hn0 in Hn.
           destruct s; cbn [negb cond_Zopp] in *; lia.
      * assert (Hiv : JS.integer_value (JS.of_integer n) = Some n).
        { apply of_integer_value. change (2 ^ 53) with 9007199254740992.
          change (2 ^ 52) with 4503599627370496 in Hnb. lia. }
        rewrite Hround. pose proof (Prim2SF_valid (JS.of_integer n)) as Hvn.
        unfold JS.integer_value in Hiv.
        destruct (Prim2SF (JS.of_integer n)) as [sn | sn | | sn mn en] eqn:Hy;
          try discriminate; [cbn in Hiv; congruence |].
        destruct (valid_finite sn mn en Hvn) as (_ & Hen1 & Hen2 & Hdn).
        assert (Hmn : Z.pos mn < 2 ^ 53).
        { pose proof (Zdigits2_bounds (Z.pos mn) ltac:(lia)) as [_ Hhi].
          assert (2 ^ Zdigits2 (Z.pos mn) <= 2 ^ 53) by (apply Z.pow_le_mono_r; lia). lia. }
        destruct (integer_exact _ _ Hiv) as (g & Hg1 & Hg2).
        set (c := Z.min en e).
        destruct (integer_scaled sn mn en n c Hiv ltac:(lia) ltac:(lia)) as [HA Hen].
        assert (HB : cond_Zopp s (Z.pos m * 2 ^ (e - c))
                     = cond_Zopp s (Z.pos m) * 2 ^ (e - c))
          by (destruct s; cbn [cond_Zopp]; lia).
        assert (Hpc : 0 < 2 ^ (e - c)) by (apply Z.pow_pos_nonneg; lia).
        assert (Hsplit : 2 ^ (- c) = 2 ^ (- e) * 2 ^ (e - c)).
        { rewrite <- Z.pow_add_r by lia. f_equal. lia. }
        assert (Hclose : - 2 ^ (- c)
                         <= 2 * (n * 2 ^ (- c) - cond_Zopp s (Z.pos m) * 2 ^ (e - c))
                         <= 2 ^ (- c)).
        { rewrite Hsplit. nia. }
        assert (He53 : -53 <= e).
        { destruct (Z.le_gt_cases (-53) e) as [| Hlow]; [assumption | exfalso].
          assert (Hbig : 2 ^ 54 <= 2 ^ (- e)) by (apply Z.pow_le_mono_r; lia).
          change (2 ^ 54) with 18014398509481984 in Hbig.
          change (2 ^ 53) with 9007199254740992 in Hm.
          assert (Hc : - Z.pos m <= cond_Zopp s (Z.pos m) <= Z.pos m)
            by (destruct s; cbn [cond_Zopp]; lia).
          nia. }
        assert (Hen53 : -53 <= en).
        { destruct (Z.le_gt_cases 0 en) as [| Hneg]; [lia |].
          destruct (Hen Hneg) as [_ Hle].
          destruct (Z.le_gt_cases (-53) en) as [| Hlow]; [assumption | exfalso].
          assert (Hbig : 2 ^ 53 <= 2 ^ (- en)) by (apply Z.pow_le_mono_r; lia). lia. }
        assert (Hc53 : 2 ^ (- c) <= 2 ^ 53) by (apply Z.pow_le_mono_r; lia).
        destruct (SFsub_exact sn mn en s m e Hvn Hv) as (r & Hr1 & Hr2 & Hr3).
        { fold c. rewrite HA, HB. change (2 ^ 53) with 9007199254740992 in *. lia. }
        fold c in Hr2. rewrite HA, HB in Hr2.
        exists g, (inject_Z (cond_Zopp s (Z.pos m)) * 2 ^ e)%Q, r.
        split; [unfold exact_value; now rewrite Hy |]. split; [exact Ht |].
        split; [unfold exact_value; rewrite FloatAxioms.sub_spec, Hy, Hx; exact Hr1 |].
        split; [| split; [| now exists n]].
        -- rewrite Hr3. cbn [exact_of_spec] in Hg1. injection Hg1 as <-. reflexivity.
        -- rewrite Hr2. apply half_bound; [lia | lia].
Qed.


(** Four tyres at 2499.60 less a discount of 250: the round-off is 0.4 down
    to the last digit. *)
Lemma round_off_is_exact_witness :
  let p := QuotationForm.pricing (Examples.quote_of [Examples.item 4 2499.6] 250 28) in
  JS.isFinite (totalAfterDiscount p) = true /\
  exists r : Q, exact_value (roundOff p) = Some r /\ (Qabs r <= 1 # 2)%Q.
Proof.
  intros p. split; [reflexivity |].
  destruct (round_off_is_exact (Examples.quote_of [Examples.item 4 2499.6] 250 28) eq_refl)
    as (g & t & r & _ & _ & Hr & _ & Hb & _).
  exists r. split; [exact Hr | exact Hb].
Defined.

End RoundOff.

Module SharedLaws.

Lemma read_items_cons heap r refs :
  Shared.read_items heap (r :: refs) =
  match heap !! r with
  | Some item => match Shared.read_items heap refs with
                 | Some items => Some (item :: items)
                 | None => None
                 end
  | None => None
  end.
Proof.
  unfold Shared.read_items. cbn. destruct (heap !! r); [| reflexivity].
  cbn. destruct (mapM _ refs); reflexivity.
Qed.

Lemma read_items_other (heap : Shared.Heap) r v refs :
  r ∉ refs -> Shared.read_items (<[r := v]> heap) refs = Shared.read_items heap refs.
Proof.
  induction refs as [| a refs IH]; intros Hn; [reflexivity |].
  apply not_elem_of_cons in Hn as [Hne Hn].
  rewrite !read_items_cons, lookup_insert_ne by congruence. now rewrite IH.
Qed.

Lemma read_items_changed (heap : Shared.Heap) r v refs index items :
  NoDup refs -> refs !! index = Some r -> Shared.read_items heap refs = Some items ->
  Shared.read_items (<[r := v]> heap) refs = Some (<[index := v]> items).
Proof.
  revert index items. induction refs as [| a refs IH]; intros index items Hnd Hi Hread;
    [discriminate |].
  apply NoDup_cons in Hnd as [Hna Hnd]. rewrite read_items_cons in Hread |- *.
  destruct (heap !! a) as [item |] eqn:Ha; [| discriminate].
  destruct (Shared.read_items heap refs) as [rest |] eqn:Hrest; [| discriminate].
  injection Hread as <-. destruct index as [| index].
  - injection Hi as ->. rewrite lookup_insert_eq, read_items_other, Hrest by assumption.
    reflexivity.
  - cbn in Hi. assert (a <> r).
    { intros ->. apply Hna. now apply (list_elem_of_lookup_2 _ index). }
    rewrite lookup_insert_ne, Ha, (IH index rest Hnd Hi eq_refl) by congruence. reflexivity.
Qed.

Lemma read_items_lookup (heap : Shared.Heap) refs items index r :
  Shared.read_items heap refs = Some items -> refs !! index = Some r ->
  exists item, heap !! r = Some item /\ items !! index = Some item.
Proof.
  revert items index. induction refs as [| a refs IH]; intros items index Hread Hi;
    [discriminate |].
  rewrite read_items_cons in Hread.
  destruct (heap !! a) as [item |] eqn:Ha; [| discriminate].
  destruct (Shared.read_items heap refs) as [rest |] eqn:Hrest; [| discriminate].
  injection Hread as <-. destruct index as [| index].
  - injection Hi as <-. eauto.
  - cbn in Hi. apply (IH rest index eq_refl Hi).
Qed.

(** X24.  A line of an opened quote is changed in place.  The form's new
    quote reads as the change made to the old one; but the quote object of
    the collection, which was neither replaced nor saved, reads the same way
    at once, so closing the form without saving does not bring the old line
    back.  Quotes that share no line with it are not affected. *)
Theorem line_change_reaches_the_collection (Number : string -> float) (index : nat)
    (field : FormState.LineItemField) (value : string)
    (stored other : Shared.QuoteObject) (heap : Shared.Heap) (quote : Quotation.t) :
  NoDup (Shared.lineItemRefs stored) ->
  Shared.read heap stored = Some quote ->
  (forall r, r ∈ Shared.lineItemRefs stored -> r ∉ Shared.lineItemRefs other) ->
  match Shared.handleLineItemChange Number index field value stored heap with
  | Returned (form, heap') =>
      Returned <$> Shared.read heap' form
        = Some (FormState.handleLineItemChange Number index field value quote) /\
      Returned <$> Shared.read heap' stored
        = Some (FormState.handleLineItemChange Number index field value quote) /\
      Shared.read heap' other = Shared.read heap other
  | Thrown => FormState.handleLineItemChange Number index field value quote = Thrown
  end.
Proof.
  intros Hnd Hread Hother. unfold Shared.handleLineItemChange, Shared.read in *.
  destruct (Shared.read_items heap (Shared.lineItemRefs stored)) as [items |] eqn:Hitems;
    [| discriminate].
  cbn in Hread. injection Hread as <-.
  unfold FormState.handleLineItemChange.
  cbn [Quotation.lineItems FormState.with_lineItems].
  destruct (Shared.lineItemRefs stored !! index) as [r |] eqn:Hr.
  - destruct (read_items_lookup _ _ _ _ _ Hitems Hr) as (item & Hitem & Hi).
    rewrite Hitem, Hi. cbn [Shared.fields Shared.lineItemRefs].
    rewrite (read_items_changed _ _ _ _ _ _ Hnd Hr Hitems).
    split; [reflexivity |]. split; [reflexivity |].
    rewrite read_items_other; [reflexivity |].
    apply Hother. now apply (list_elem_of_lookup_2 _ index).
  - assert (Hnone : items !! index = None).
    { apply lookup_ge_None. apply lookup_ge_None in Hr.
      apply length_mapM in Hitems. lia. }
    now rewrite Hnone.
Qed.

(** The quantity of the first of two lines is set to five in the form; the
    quote of the collection has five tyres at once. *)
Lemma line_change_reaches_the_collection_witness :
  let heap : Shared.Heap := {[ 0%nat := Examples.item 4 2500; 1%nat := Examples.item 1 300 ]} in
  let stored := Shared.mkObject (Examples.quote_for "a" "Asha") [0%nat; 1%nat] in
  let other := Shared.mkObject (Examples.quote_for "b" "Bala") [] in
  match Shared.handleLineItemChange (fun _ => 5%float) 0 FormState.item_quantity "5"
          stored heap with
  | Returned (_, heap') =>
      Quotation.lineItems <$> Shared.read heap' stored
        = Some [Examples.item 5 2500; Examples.item 1 300]
  | Thrown => False
  end.
Proof.
  intros heap stored other.
  assert (Hnd : NoDup (Shared.lineItemRefs stored)).
  { apply NoDup_cons. split; [| apply NoDup_singleton].
    intros H. apply list_elem_of_singleton in H. discriminate. }
  assert (Hother : forall r, r ∈ Shared.lineItemRefs stored -> r ∉ Shared.lineItemRefs other)
    by (intros r _; apply not_elem_of_nil).
  pose proof (line_change_reaches_the_collection (fun _ => 5%float) 0
                FormState.item_quantity "5" stored other heap _ Hnd eq_refl Hother) as H.
  destruct (Shared.handleLineItemChange _ _ _ _ stored heap) as [[form heap'] |];
    [| discriminate H].
  destruct H as (_ & H & _).
  destruct (Shared.read heap' stored) as [q |]; [| discriminate H].
  injection H as ->. reflexivity.
Defined.

End SharedLaws.
